(** * Entity-matching engine of the do-not-use scanner (app.js)

    A shallow embedding of the matching core of [app.js] and of its
    closest-match variant: the distance engine ([dist]), the confidence
    heuristic ([distanceToConfidence]), the matcher
    ([matchesForDescriptor], [bestMatchForDescriptor]), the per-image
    aggregation done in the scan handler ([dedupeByPerson] and the
    status computation), the plausibility filter ([isPlausibleFace]) and
    the selection bookkeeping ([selectedPeople], [syncSelection]).

    Numbers.  A JavaScript Number is modelled by the type [number]: a
    real number, or one of the three special values [Infinity],
    [-Infinity] and [NaN].  Arithmetic on finite values is exact, and
    the two zeros are not told apart; the special values follow
    IEEE 754 as JavaScript exposes them, which is what the code relies
    on ([Infinity] as the "no sample" sentinel, [NaN] from reading past
    the end of an array).  What is stated on these numbers is about
    comparisons, orders and structure, which the rounding of binary64
    does not change.  Where the value of an arithmetic expression is
    stated, the rounding is there: [Rounded] has the confidence with a
    rounding after every operation, and [Binary64] has the distance
    engine, the confidence and the plausibility filter on the binary64
    floats of the machine.

    Ids.  The id of a profile is the value the JSON of the store or of
    an imported file holds, a string or a number ([jsid]); the
    selection is an object, read at the property key of an id and with
    the properties every object inherits.

    Storage ([localStorage]) and rendering are left out: the functions
    below take the profile list and the selection map as arguments and
    return the new value where the code assigns it. *)

From Stdlib Require Import Reals Lra Lia ZArith List Floats.
From stdpp Require Import gmap strings list fin_maps sorting.

(** ** JavaScript numbers *)

Module JS.

Inductive number : Type :=
| Num (x : R)
| PosInfinity
| NegInfinity
| NaN.

#[global] Instance Rlt_decision : RelDecision Rlt := Rlt_dec.
#[global] Instance Rle_decision : RelDecision Rle := Rle_dec.
#[global] Instance Req_decision : EqDecision R := Req_dec_T.

(** [a < b], [a <= b], [a > b] on Numbers: false as soon as one side is [NaN]. *)
Definition lt (a b : number) : bool :=
  match a, b with
  | NaN, _ | _, NaN => false
  | Num x, Num y => bool_decide (x < y)%R
  | NegInfinity, NegInfinity => false
  | NegInfinity, _ => true
  | _, NegInfinity => false
  | PosInfinity, _ => false
  | Num _, PosInfinity => true
  end.

Definition le (a b : number) : bool :=
  match a, b with
  | NaN, _ | _, NaN => false
  | Num x, Num y => bool_decide (x <= y)%R
  | NegInfinity, _ => true
  | _, NegInfinity => false
  | _, PosInfinity => true
  | PosInfinity, Num _ => false
  end.

Definition gt (a b : number) : bool := lt b a.

(** The sign of a nonzero real as an infinity. *)
Definition signed_infinity (x : R) : number :=
  if bool_decide (0 < x)%R then PosInfinity else NegInfinity.

Definition neg (a : number) : number :=
  match a with
  | Num x => Num (- x)
  | PosInfinity => NegInfinity
  | NegInfinity => PosInfinity
  | NaN => NaN
  end.

Definition add (a b : number) : number :=
  match a, b with
  | NaN, _ | _, NaN => NaN
  | Num x, Num y => Num (x + y)
  | PosInfinity, NegInfinity | NegInfinity, PosInfinity => NaN
  | PosInfinity, _ | _, PosInfinity => PosInfinity
  | NegInfinity, _ | _, NegInfinity => NegInfinity
  end.

Definition sub (a b : number) : number := add a (neg b).

Definition mul (a b : number) : number :=
  match a, b with
  | NaN, _ | _, NaN => NaN
  | Num x, Num y => Num (x * y)
  | Num x, PosInfinity | PosInfinity, Num x =>
      if bool_decide (x = 0)%R then NaN else signed_infinity x
  | Num x, NegInfinity | NegInfinity, Num x =>
      if bool_decide (x = 0)%R then NaN else signed_infinity (- x)
  | PosInfinity, PosInfinity | NegInfinity, NegInfinity => PosInfinity
  | PosInfinity, NegInfinity | NegInfinity, PosInfinity => NegInfinity
  end.

Definition div (a b : number) : number :=
  match a, b with
  | NaN, _ | _, NaN => NaN
  | Num x, Num y =>
      if bool_decide (y = 0)%R
      then (if bool_decide (x = 0)%R then NaN else signed_infinity x)
      else Num (x / y)
  | Num _, (PosInfinity | NegInfinity) => Num 0
  | PosInfinity, Num y => if bool_decide (y < 0)%R then NegInfinity else PosInfinity
  | NegInfinity, Num y => if bool_decide (y < 0)%R then PosInfinity else NegInfinity
  | (PosInfinity | NegInfinity), (PosInfinity | NegInfinity) => NaN
  end.

(** [isFinite(x)] *)
Definition isFinite (a : number) : bool :=
  match a with Num _ => true | _ => false end.

(** [Math.sqrt(x)] *)
Definition sqrt (a : number) : number :=
  match a with
  | Num x => if bool_decide (x < 0)%R then NaN else Num (R_sqrt.sqrt x)
  | PosInfinity => PosInfinity
  | NegInfinity | NaN => NaN
  end.

(** [Math.min(a, b)] and [Math.max(a, b)]: [NaN] as soon as one argument is. *)
Definition min (a b : number) : number :=
  match a, b with
  | NaN, _ | _, NaN => NaN
  | _, _ => if lt b a then b else a
  end.

Definition max (a b : number) : number :=
  match a, b with
  | NaN, _ | _, NaN => NaN
  | _, _ => if lt a b then b else a
  end.

(** [Math.round(x)]: the integer nearest to [x], ties towards [+Infinity]. *)
Definition round (a : number) : number :=
  match a with
  | Num x => Num (IZR (Zfloor (x + / 2)))
  | _ => a
  end.

(** [a[i]] used as a Number: reading past the end gives [undefined],
    which arithmetic converts to [NaN]. *)
Definition at_index (a : list number) (i : nat) : number :=
  default NaN (a !! i).

End JS.

Export JS (number, Num, PosInfinity, NegInfinity, NaN).


(** ** Data *)

(** An embedding as the detector gives it ([Array.from(det.descriptor)])
    and as the profile store keeps it. *)
Abbreviation embedding := (list number).

(** The id of a profile is what the JSON of the store holds: a string,
    as [uid()] makes it, or, in a file written by hand and imported, a
    number, which is given here by its decimal text, the property key
    it has ([String(n)]).  The string ["1"] and the number [1] are two
    ids ([===], [Set] and [Map] tell them apart) with one property
    key. *)
Inductive jsid : Type :=
| IdString (s : string)
| IdNumber (decimal : string).

#[global] Instance jsid_eq_dec : EqDecision jsid.
Proof. solve_decision. Defined.

(** The property key of an id: [o[id]] and [id in o] read [o] at
    [String(id)]. *)
Definition toKey (i : jsid) : string :=
  match i with
  | IdString s => s
  | IdNumber decimal => decimal
  end.

(** [people = [{id, name, samples: number[][]}]].  [samples] may be
    missing on profiles restored from storage or imported, hence the
    guards [p.samples?.length || 0] and [p.samples || []] of the code. *)
Module person.
Record t : Type := mk {
  id : jsid;
  name : string;
  samples : option (list embedding)
}.
End person.

Definition idKey (p : person.t) : string := toKey (person.id p).

(** [scanSelection = { [personId]: boolean }]: the own properties of
    the object, which the program creates as [{}] or reads from JSON,
    so that its prototype is [Object.prototype]. *)
Abbreviation selection := (gmap string bool).

(** The names an object inherits from [Object.prototype]. *)
Definition objectPrototype : list string :=
  ["constructor"; "__defineGetter__"; "__defineSetter__"; "hasOwnProperty";
   "__lookupGetter__"; "__lookupSetter__"; "isPrototypeOf";
   "propertyIsEnumerable"; "toString"; "valueOf"; "__proto__";
   "toLocaleString"].

(** [k in o]: an own property or an inherited one. *)
Definition hasProperty (k : string) (o : selection) : bool :=
  bool_decide (is_Some (o !! k)) || bool_decide (k ∈ objectPrototype).

(** [o[k] = b].  When [__proto__] is no own property the assignment
    reaches the setter of the prototype, which ignores a boolean. *)
Definition assign (k : string) (b : bool) (o : selection) : selection :=
  if bool_decide (k = "__proto__") && bool_decide (o !! k = None) then o
  else <[k := b]> o.

Inductive level : Type := clear | possible | flagged.

#[global] Instance level_eq_dec : EqDecision level.
Proof. solve_decision. Defined.

(** The objects pushed by [matchesForDescriptor]. *)
Module hit.
Record t : Type := mk {
  personId : jsid;
  name : string;
  dist : number;
  confidence : number;
  level : level
}.
End hit.

(** ** Helpers *)

(** [p.samples?.length || 0] *)
Definition samplesLength (p : person.t) : nat :=
  match person.samples p with
  | Some ss => length ss
  | None => 0
  end.

Definition totalSamples (people : list person.t) : nat :=
  foldl (fun sum p => sum + samplesLength p) 0 people.

(** [people.filter((p) => scanSelection[p.id] !== false)].  What the
    object inherits is never [false], so that only an own [false] puts a
    profile out. *)
Definition selectedPeople (people : list person.t) (scanSelection : selection)
  : list person.t :=
  filter (fun p => scanSelection !! idKey p ≠ Some false) people.

(** [syncSelection].  [known] is a [Set] of the ids as they are; the
    first loop tests [p.id in scanSelection] and assigns
    [scanSelection[p.id] = true]; the second goes through
    [Object.keys(scanSelection)], which are strings, and deletes the
    keys [known] does not have.  The result does not depend on the
    order of the keys. *)
Definition syncSelection (people : list person.t) (scanSelection : selection)
  : selection :=
  let known : list jsid := map person.id people in
  let added :=
    foldl (fun sel p =>
             if hasProperty (idKey p) sel then sel
             else assign (idKey p) true sel) scanSelection people in
  foldl (fun sel k => if decide (IdString k ∈ known) then sel else delete k sel)
        added (map fst (map_to_list added)).

(** ** Distance engine *)

Definition dist (a b : embedding) : number :=
  JS.sqrt
    (foldl (fun s i =>
              let d := JS.sub (JS.at_index a i) (JS.at_index b i) in
              JS.add s (JS.mul d d))
           (Num 0) (seq 0 (length a))).

(** The inner loop of the matchers over the samples of one profile,
    started with [best = Infinity]:
    [d = dist(descriptor, s); if (d < best) best = d; if (best < 0.20) break;] *)
Definition EARLY_EXIT : R := 0.20.

Fixpoint scanSamples (descriptor : embedding) (samples : list embedding)
  (best : number) : number :=
  match samples with
  | [] => best
  | s :: rest =>
      let d := dist descriptor s in
      let best := if JS.lt d best then d else best in
      if JS.lt best (Num EARLY_EXIT) then best
      else scanSamples descriptor rest best
  end.

(** ** [Array.prototype.sort] and [Map]

    [list.sort(cmp)] is stable, and with a consistent comparator its
    result is the unique stable ordering; it is modelled by insertion
    from the right, an element moving past the ones it compares
    greater than ([cmp(x, y) > 0]). *)
Section Containers.
Context {A : Type}.

Fixpoint sort_insert (cmp : A -> A -> number) (x : A) (l : list A) : list A :=
  match l with
  | [] => [x]
  | y :: l' =>
      if JS.gt (cmp x y) (Num 0) then y :: sort_insert cmp x l' else x :: l
  end.

Definition js_sort (cmp : A -> A -> number) (l : list A) : list A :=
  foldr (sort_insert cmp) [] l.

(** A [Map] keyed by ids, as the list of its entries in insertion
    order: [map.set] replaces the value of a key in place and appends
    a new key at the end. *)
Fixpoint map_get (k : jsid) (m : list (jsid * A)) : option A :=
  match m with
  | [] => None
  | (k', v) :: m' => if decide (k = k') then Some v else map_get k m'
  end.

Fixpoint map_set (k : jsid) (v : A) (m : list (jsid * A))
  : list (jsid * A) :=
  match m with
  | [] => [(k, v)]
  | (k', v') :: m' =>
      if decide (k = k') then (k, v) :: m' else (k', v') :: map_set k v m'
  end.

Definition map_values (m : list (jsid * A)) : list A := map snd m.

End Containers.

(** ** Matcher and aggregation of app.js *)

Definition MAX_FACES_PER_IMAGE : nat := 30.
Definition DEFAULT_THRESHOLD : R := 0.60.

(** [(a, b) => a.dist - b.dist] *)
Definition byDist (a b : hit.t) : number := JS.sub (hit.dist a) (hit.dist b).

(** A detection with its descriptor, as the detector returns it:
    [det.detection.box], [det.detection.score], [det.descriptor]. *)
Module det.
Record box : Type := mkBox {
  x : number;
  y : number;
  width : number;
  height : number
}.
Record t : Type := mk {
  detection_box : box;
  detection_score : option number;
  descriptor : embedding
}.
End det.

(** What the scan handler keeps of one face, [{ det, ...m, best, scale }],
    without the detection and the scale, which only the preview reads. *)
Module faceResult.
Record t : Type := mk {
  hits : list hit.t;
  possibles : list hit.t;
  best : option hit.t
}.
End faceResult.

(** What the scan handler computes for one image: [status],
    [listForLabel] and the face count it prints, [trimmed.length]. *)
Module verdict.
Record t : Type := mk {
  status : level;
  listForLabel : list hit.t;
  faceCount : nat
}.
End verdict.

Section Matcher.

(** [BORDERLINE_BAND]: 0.10 in app.js, 0.06 in the earlier multi-person
    variant. *)
Variable BORDERLINE_BAND : R.

(** Distance -> rough "confidence" for UX. *)
Definition distanceToConfidence (d thr : number) : number :=
  let max := JS.add (JS.add thr (Num BORDERLINE_BAND)) (Num 0.25) in
  let clamped := JS.max (Num 0) (JS.min (Num 1) (JS.sub (Num 1) (JS.div d max))) in
  JS.round (JS.mul clamped (Num 100)).

(** One turn of the loop [for (const p of pool)] of
    [matchesForDescriptor] on the pair [(hits, possibles)]. *)
Definition matchPerson (descriptor : embedding) (thr : number)
  (acc : list hit.t * list hit.t) (p : person.t) : list hit.t * list hit.t :=
  let '(hits, possibles) := acc in
  let best := scanSamples descriptor (default [] (person.samples p)) PosInfinity in
  if negb (JS.isFinite best) then (hits, possibles)
  else if JS.le best thr then
    (hits ++ [hit.mk (person.id p) (person.name p) best
                     (distanceToConfidence best thr) flagged], possibles)
  else if JS.le best (JS.add thr (Num BORDERLINE_BAND)) then
    (hits, possibles ++ [hit.mk (person.id p) (person.name p) best
                                (distanceToConfidence best thr) possible])
  else (hits, possibles).

Definition matchesForDescriptor (people : list person.t)
  (scanSelection : selection) (descriptor : embedding) (thr : number)
  : list hit.t * list hit.t :=
  let pool := selectedPeople people scanSelection in
  let '(hits, possibles) := foldl (matchPerson descriptor thr) ([], []) pool in
  (js_sort byDist hits, js_sort byDist possibles).

(** One turn of the loop of [dedupeByPerson] on its [Map]:
    [if (!prev || item.dist < prev.dist) map.set(item.personId, item)]. *)
Definition keepBest (entries : list (jsid * hit.t)) (item : hit.t)
  : list (jsid * hit.t) :=
  match map_get (hit.personId item) entries with
  | None => map_set (hit.personId item) item entries
  | Some prev =>
      if JS.lt (hit.dist item) (hit.dist prev)
      then map_set (hit.personId item) item entries
      else entries
  end.

Definition dedupeByPerson (items : list hit.t) : list hit.t :=
  js_sort byDist (map_values (foldl keepBest [] items)).

(** [const m = matchesForDescriptor(desc, thr);
     const best = m.hits[0] || m.possibles[0] || null;] *)
Definition faceResultFor (people : list person.t) (scanSelection : selection)
  (thr : number) (desc : embedding) : faceResult.t :=
  let '(hits, possibles) := matchesForDescriptor people scanSelection desc thr in
  faceResult.mk hits possibles
    (match head hits with Some h => Some h | None => head possibles end).

(** "Determine image status": from [imageHits] to [listForLabel]. *)
Definition collectFace (acc : list hit.t * list hit.t) (fr : faceResult.t)
  : list hit.t * list hit.t :=
  let '(imageHits, imagePossibles) := acc in
  if negb (length (faceResult.hits fr) =? 0)
  then (imageHits ++ faceResult.hits fr, imagePossibles)
  else if negb (length (faceResult.possibles fr) =? 0)
  then (imageHits, imagePossibles ++ faceResult.possibles fr)
  else (imageHits, imagePossibles).

Definition imageMatches (faceResults : list faceResult.t)
  : list hit.t * list hit.t :=
  foldl collectFace ([], []) faceResults.

Definition imageVerdict (trimmed : nat) (faceResults : list faceResult.t)
  : verdict.t :=
  let '(imageHits, imagePossibles) := imageMatches faceResults in
  let uniqHits := dedupeByPerson imageHits in
  let uniqPoss := dedupeByPerson imagePossibles in
  let status :=
    if negb (length uniqHits =? 0) then flagged
    else if negb (length uniqPoss =? 0) then possible
    else clear in
  let listForLabel :=
    match status with
    | flagged => uniqHits
    | possible => uniqPoss
    | clear => []
    end in
  verdict.mk status listForLabel trimmed.

(** [trimmed.map((det) => { const desc = Array.from(det.descriptor); ... })] *)
Definition faceResultsOf (people : list person.t) (scanSelection : selection)
  (thr : number) (trimmed : list det.t) : list faceResult.t :=
  map (fun d => faceResultFor people scanSelection thr (det.descriptor d)) trimmed.

(** The part of the loop body of the scan handler that follows
    detection: [detections] is what the detector returned for the image. *)
Definition scanDetections (people : list person.t) (scanSelection : selection)
  (thr : number) (detections : list det.t) : verdict.t :=
  let trimmed := take MAX_FACES_PER_IMAGE detections in
  let faceResults := faceResultsOf people scanSelection thr trimmed in
  imageVerdict (length trimmed) faceResults.

End Matcher.

(** 0.10 is the band of app.js. *)
Definition APP_BORDERLINE_BAND : R := 0.10.

(** ** The scan handler of app.js

    The detector is outside the program: [detectAll] is a parameter, and
    an image is whatever the detector looks at, with its two
    dimensions. *)
Module detectorOpts.
Record t : Type := mk { inputSize : R; scoreThreshold : R }.
End detectorOpts.

Module canvas.
Record t (Image : Type) : Type := mk {
  source : Image;
  width : number;
  height : number
}.
Arguments mk {Image}.
Arguments source {Image}.
Arguments width {Image}.
Arguments height {Image}.
End canvas.

Class Detector (Image : Type) : Type := {
  img_width : Image -> number;
  img_height : Image -> number;
  detectAll : canvas.t Image -> detectorOpts.t -> list det.t
}.

Definition DETECTOR_SCAN : detectorOpts.t := detectorOpts.mk 608 0.08.
Definition SCAN_MIN_SIDE : R := 900.

(** What a click on the scan button leaves behind: a status message
    and nothing else, nothing at all, or one result row per file. *)
Inductive clickOutcome : Type :=
| StatusOnly (msg : string)
| Nothing
| Scanned (rows : list verdict.t).

Section ScanHandler.
Context {Image : Type} `{Detector Image}.
Variable BORDERLINE_BAND : R.

(** Upscale an image into a canvas for better face detection. *)
Definition imageToDetectionCanvas (img : Image) (targetMinSide : number)
  : canvas.t Image * number :=
  let minSide := JS.min (img_width img) (img_height img) in
  let scale := if JS.lt minSide targetMinSide
               then JS.div targetMinSide minSide else Num 1 in
  (canvas.mk img (JS.round (JS.mul (img_width img) scale))
                 (JS.round (JS.mul (img_height img) scale)), scale).

(** The body of the loop over the files. *)
Definition scanImage (people : list person.t) (scanSelection : selection)
  (thr : number) (img : Image) : verdict.t :=
  let '(canvas, scale) := imageToDetectionCanvas img (Num SCAN_MIN_SIDE) in
  let detections := detectAll canvas DETECTOR_SCAN in
  let detections :=
    if length detections =? 0
    then detectAll canvas (detectorOpts.mk 608 0.04)
    else detections in
  scanDetections BORDERLINE_BAND people scanSelection thr detections.

Definition btnScan_click (modelsReady : bool) (files : list Image)
  (people : list person.t) (scanSelection : selection) (thr : number)
  : clickOutcome :=
  if negb modelsReady then StatusOnly "Models not ready yet."
  else if length files =? 0 then Nothing
  else
    let pool := selectedPeople people scanSelection in
    let poolSamples := foldl (fun s p => s + samplesLength p) 0 pool in
    if (length pool =? 0) || (poolSamples =? 0) then
      StatusOnly "No selected people with samples. Check filters and enroll samples first."
    else Scanned (map (scanImage people scanSelection thr) files).

End ScanHandler.

(** The result rows a click produces. *)
Definition rowsOf (o : clickOutcome) : list verdict.t :=
  match o with
  | Scanned rows => rows
  | _ => []
  end.

(** ** The closest-match variant

    The variant that labels only the single closest match and filters
    implausible detections before matching. *)
Module ClosestMatch.

Definition DEFAULT_THRESHOLD : R := 0.55.

(** The constants of the plausibility filter, the decimals the code
    writes; the filter, [isPlausibleFace], is in [Binary64], on the
    binary64 numbers the program has for them. *)
Definition MIN_FACE_PX : R := 40.
Definition MIN_DET_SCORE : R := 0.35.
Definition MIN_AR : R := 0.65.
Definition MAX_AR : R := 1.60.

Module bestMatch.
Record t : Type := mk {
  personId : jsid;
  name : string;
  dist : number;
  confidence : number
}.
End bestMatch.

Definition distanceToConfidence (d thr : number) : number :=
  let max := JS.add thr (Num 0.25) in
  let clamped := JS.max (Num 0) (JS.min (Num 1) (JS.sub (Num 1) (JS.div d max))) in
  JS.round (JS.mul clamped (Num 100)).

(** One turn of the loop [for (const p of pool)] of
    [bestMatchForDescriptor]. *)
Definition bestStep (descriptor : embedding) (thr : number)
  (best : option bestMatch.t) (p : person.t) : option bestMatch.t :=
  if samplesLength p =? 0 then best
  else
    let bestDist :=
      scanSamples descriptor (default [] (person.samples p)) PosInfinity in
    if negb (JS.isFinite bestDist) then best
    else
      let found := bestMatch.mk (person.id p) (person.name p) bestDist
                                (distanceToConfidence bestDist thr) in
      match best with
      | None => Some found
      | Some b => if JS.lt bestDist (bestMatch.dist b) then Some found else best
      end.

(** Closest match only (or null if no one passes threshold). *)
Definition bestMatchForDescriptor (people : list person.t)
  (scanSelection : selection) (descriptor : embedding) (thr : number)
  : option bestMatch.t :=
  let pool := selectedPeople people scanSelection in
  match foldl (bestStep descriptor thr) None pool with
  | None => None
  | Some best => if JS.gt (bestMatch.dist best) thr then None else Some best
  end.

End ClosestMatch.

(** ** The specification's reading of the engine

    Definitions written from the words of the design document, to be
    compared with the code above. *)
Module Spec.

(** "the minimum distance from [query] to any of [identity.samples]",
    "∞ when [identity.samples] is empty": the scan without the
    short-circuit. *)
Definition minDistance (query : embedding) (samples : list embedding) : number :=
  foldl (fun best s =>
           let d := dist query s in if JS.lt d best then d else best)
        PosInfinity samples.

(** The samples a short-circuiting scan looks at: up to and including
    the first one closer than the cutoff. *)
Fixpoint scanned (query : embedding) (samples : list embedding)
  : list embedding :=
  match samples with
  | [] => []
  | s :: rest =>
      if JS.lt (dist query s) (Num EARLY_EXIT) then [s]
      else s :: scanned query rest
  end.

(** "[activeIdentities(profiles, selectionSet)] returns profiles whose
    selection flag is not explicitly [false] (absence defaults to
    included)". *)
Definition activeIdentities (profiles : list person.t) (selectionSet : selection)
  : list person.t :=
  filter (fun p => selectionSet !! idKey p ≠ Some false) profiles.

(** "[bestDistanceToIdentity(query, identity)]: the minimum distance
    from [query] to any of [identity.samples]; returns ∞ when
    [identity.samples] is empty". *)
Definition bestDistanceToIdentity (query : embedding) (identity : person.t)
  : number :=
  minDistance query (default [] (person.samples identity)).

(** "for each active identity with ≥1 sample, compute
    [bestDistanceToIdentity]. Skip identities returning ∞." *)
Definition candidates (query : embedding) (active : list person.t)
  : list (person.t * number) :=
  omap (fun p =>
          if samplesLength p =? 0 then None
          else match bestDistanceToIdentity query p with
               | PosInfinity => None
               | d => Some (p, d)
               end) active.

(** "the minimum-distance identity", the first one met among
    equidistant ones. *)
Fixpoint closest (cs : list (person.t * number)) : option (person.t * number) :=
  match cs with
  | [] => None
  | c :: cs' =>
      match closest cs' with
      | Some c' => if JS.lt (snd c') (snd c) then Some c' else Some c
      | None => Some c
      end
  end.

(** "[distance <= threshold] → tier FLAGGED;
     [threshold < distance <= threshold + possibleBand] → tier POSSIBLE;
     otherwise → no result". *)
Definition classify (threshold possibleBand : R) (distance : number)
  : option level :=
  if JS.le distance (Num threshold) then Some flagged
  else if JS.lt (Num threshold) distance
          && JS.le distance (Num (threshold + possibleBand)) then Some possible
  else None.

Definition clamp (x lo hi : R) : R := Rmax lo (Rmin hi x).

(** "[round(100 * clamp(1 - distance / (threshold + possibleBand + MARGIN), 0, 1))]" *)
Definition confidence (margin threshold possibleBand distance : R) : Z :=
  Zfloor (100 * clamp (1 - distance / (threshold + possibleBand + margin)) 0 1 + / 2).

(** "Among the rest, classify the minimum-distance identity": the
    match made of the closest of the candidates [cs]. *)
Definition matchAmong (confidenceOf : number -> number -> number)
  (threshold possibleBand : R) (cs : list (person.t * number))
  : option hit.t :=
  match closest cs with
  | None => None
  | Some (p, d) =>
      match classify threshold possibleBand d with
      | Some tier =>
          Some (hit.mk (person.id p) (person.name p) d
                       (confidenceOf d (Num threshold)) tier)
      | None => None
      end
  end.

(** "[match(observation, activeIdentities, threshold, possibleBand) ->
    MatchResult | null]". *)
Definition matchObservation (confidenceOf : number -> number -> number)
  (threshold possibleBand : R) (query : embedding) (active : list person.t)
  : option hit.t :=
  matchAmong confidenceOf threshold possibleBand (candidates query active).

(** Severity of a tier: CLEAR, then POSSIBLE, then FLAGGED. *)
Definition severity (t : level) : nat :=
  match t with clear => 0 | possible => 1 | flagged => 2 end.

(** The tier one face contributes: that of its match, CLEAR without one. *)
Definition tierOf (m : option hit.t) : level :=
  match m with Some h => hit.level h | None => clear end.

(** "FLAGGED if any face matched at FLAGGED; else POSSIBLE if any
    matched at POSSIBLE; else CLEAR". *)
Definition imageTier (matches : list (option hit.t)) : level :=
  if existsb (fun m => bool_decide (tierOf m = flagged)) matches then flagged
  else if existsb (fun m => bool_decide (tierOf m = possible)) matches then possible
  else clear.

End Spec.

(** ** Definitions used by the proofs *)

(** The loop of [dist] by recursion on the first array. *)
Fixpoint sumSquares (a b : embedding) (s : number) : number :=
  match a with
  | [] => s
  | x :: a' =>
      let d := JS.sub x (JS.at_index b 0) in
      sumSquares a' (tail b) (JS.add s (JS.mul d d))
  end.

(** Euclidean distance of two real vectors, component by component as
    far as both go. *)
Definition squaredDistance (xs ys : list R) : R :=
  foldr (fun xy acc => ((xy.1 - xy.2) * (xy.1 - xy.2) + acc)%R) 0%R (zip xs ys).

Definition euclidean (xs ys : list R) : R := R_sqrt.sqrt (squaredDistance xs ys).

(** A distance the matchers keep: a finite Number. *)
Definition finiteDist (h : hit.t) : Prop := JS.isFinite (hit.dist h) = true.

(** Examples of the development. *)
Definition query0 : embedding := [Num 0].
Definition twoSamples : list embedding := [[Num 0.1875]; [Num 0.0625]].

(** One turn of the scan without the exit. *)
Definition keepCloser (q : embedding) (best : number) (s : embedding) : number :=
  let d := dist q s in if JS.lt d best then d else best.

(** The running minimum has not gone below the cutoff. *)
Definition aboveCutoff (best : number) : Prop :=
  best = PosInfinity \/ exists y, best = Num y /\ (EARLY_EXIT <= y)%R.

(** The closest of a list of matches, the first one among equals. *)
Fixpoint firstMin (l : list hit.t) : option hit.t :=
  match l with
  | [] => None
  | h :: l' =>
      match firstMin l' with
      | Some h' => if JS.lt (hit.dist h') (hit.dist h) then Some h' else Some h
      | None => Some h
      end
  end.

(** The object [matchesForDescriptor] pushes for a candidate whose
    distance passes the test [keep]. *)
Definition pushed (BORDERLINE_BAND : R) (thr : number) (tier : level)
  (keep : number -> bool) (c : person.t * number) : option hit.t :=
  if keep c.2
  then Some (hit.mk (person.id c.1) (person.name c.1) c.2
                    (distanceToConfidence BORDERLINE_BAND c.2 thr) tier)
  else None.

Definition finiteCandidate (c : person.t * number) : Prop :=
  exists x, c.2 = Num x.

(** A detector for the examples: an image is given by what the detector
    finds on it. *)
#[global] Instance exampleDetector : Detector (list det.t) := {|
  img_width := fun _ => Num 1000;
  img_height := fun _ => Num 1000;
  detectAll := fun c _ => canvas.source c
|}.

(** The resyncs that follow a sequence of states of the profile list. *)
Definition resyncs (states : list (list person.t)) (scanSelection : selection)
  : selection :=
  foldl (fun sel people => syncSelection people sel) scanSelection states.

Definition alice : person.t := person.mk (IdString "a1") "Alice" (Some [[Num 0]]).

(** A detection of the examples with the descriptor [desc]. *)
Definition faceAt (desc : embedding) : det.t :=
  det.mk (det.mkBox (Num 10) (Num 10) (Num 100) (Num 100)) (Some (Num 0.9)) desc.
Definition bob : person.t := person.mk (IdString "b2") "Bob" (Some []).

(** Ascending by distance. *)
Definition closerOrEqual (a b : hit.t) : Prop :=
  JS.le (hit.dist a) (hit.dist b) = true.

(** [list.length] is not 0. *)
Definition nonempty {A} (l : list A) : bool := negb (length l =? 0).

(** A face result as [faceResultFor] builds it. *)
Definition wellFormedFace (fr : faceResult.t) : Prop :=
  Forall (fun h => hit.level h = flagged /\ finiteDist h) (faceResult.hits fr)
  /\ Forall (fun h => hit.level h = possible /\ finiteDist h) (faceResult.possibles fr)
  /\ faceResult.best fr
     = match head (faceResult.hits fr) with
       | Some h => Some h
       | None => head (faceResult.possibles fr)
       end.

(** The matches an image verdict is built from: the flagged ones of
    all faces, or the possible ones of the faces without a flagged one. *)
Definition matchesAt (tier : level) (faceResults : list faceResult.t)
  : list hit.t :=
  match tier with
  | flagged => (imageMatches faceResults).1
  | possible => (imageMatches faceResults).2
  | clear => []
  end.

(** What the [Map] of [dedupeByPerson] holds once the items [l] have
    gone through the loop: one entry per person met, under the id of
    that person, and it is an item of [l] no other item of the same
    person is closer than. *)
Definition dedupeInv (l : list hit.t) (entries : list (jsid * hit.t)) : Prop :=
  NoDup (map fst entries)
  /\ (forall k v, (k, v) ∈ entries ->
        k = hit.personId v /\ v ∈ l
        /\ forall i, i ∈ l -> hit.personId i = k -> closerOrEqual v i)
  /\ (forall i, i ∈ l -> hit.personId i ∈ map fst entries).

(** The match of the closest-match variant: a match without its tier. *)
Definition toBestMatch (h : hit.t) : ClosestMatch.bestMatch.t :=
  ClosestMatch.bestMatch.mk (hit.personId h) (hit.name h) (hit.dist h)
                            (hit.confidence h).

(** The closest candidate so far, as the closest-match variant keeps it. *)
Definition closerCandidate (thr : number) (best : option ClosestMatch.bestMatch.t)
  (c : person.t * number) : option ClosestMatch.bestMatch.t :=
  let found := ClosestMatch.bestMatch.mk (person.id c.1) (person.name c.1) c.2
                 (ClosestMatch.distanceToConfidence c.2 thr) in
  match best with
  | None => Some found
  | Some b => if JS.lt c.2 (ClosestMatch.bestMatch.dist b) then Some found else best
  end.

Definition finiteBest (best : option ClosestMatch.bestMatch.t) : Prop :=
  forall b, best = Some b -> exists y, ClosestMatch.bestMatch.dist b = Num y.

(** The distance the code has for an identity, the one its scan of the
    samples reports, and the candidates with these distances. *)
Definition reportedDistance (query : embedding) (identity : person.t) : number :=
  scanSamples query (default [] (person.samples identity)) PosInfinity.

Definition reportedCandidates (query : embedding) (active : list person.t)
  : list (person.t * number) :=
  omap (fun p =>
          if samplesLength p =? 0 then None
          else match reportedDistance query p with
               | PosInfinity => None
               | d => Some (p, d)
               end) active.

(** The match of the specification on the reported distances. *)
Definition reportedMatch (confidenceOf : number -> number -> number)
  (threshold possibleBand : R) (query : embedding) (active : list person.t)
  : option hit.t :=
  Spec.matchAmong confidenceOf threshold possibleBand
    (reportedCandidates query active).

(** The tier of the closest of the candidates [cs]. *)
Definition tierAmong (threshold possibleBand : R) (cs : list (person.t * number))
  : level :=
  match Spec.closest cs with
  | Some (p, d) => default clear (Spec.classify threshold possibleBand d)
  | None => clear
  end.

(** ** The program on binary64 floats

    The loops of [dist] and of the scan of the samples, the confidence
    and the plausibility filter on the binary64 floats of the machine,
    with the operations of IEEE 754 that JavaScript has. *)
Module Binary64.

Definition at_index (a : list float) (i : nat) : float :=
  default PrimFloat.nan (a !! i).

Definition dist (a b : list float) : float :=
  PrimFloat.sqrt
    (foldl (fun s i =>
              let d := PrimFloat.sub (at_index a i) (at_index b i) in
              PrimFloat.add s (PrimFloat.mul d d))
           PrimFloat.zero (seq 0 (length a))).

(** 0.20 as binary64 reads it. *)
Definition EARLY_EXIT : float := 0x1.999999999999ap-3%float.

Fixpoint scanSamples (descriptor : list float) (samples : list (list float))
  (best : float) : float :=
  match samples with
  | [] => best
  | s :: rest =>
      let d := dist descriptor s in
      let best := if PrimFloat.ltb d best then d else best in
      if PrimFloat.ltb best EARLY_EXIT then best
      else scanSamples descriptor rest best
  end.

Definition minDistance (query : list float) (samples : list (list float))
  : float :=
  foldl (fun best s =>
           let d := dist query s in if PrimFloat.ltb d best then d else best)
        PrimFloat.infinity samples.

(** The real number a finite binary64 number is. *)
Definition toR (x : float) : R :=
  match Prim2SF x with
  | S754_finite s m e => ((if s then -1 else 1) * IZR (Zpos m) * powerRZ 2 e)%R
  | _ => 0%R
  end.

(** [Math.min(a, b)] and [Math.max(a, b)]: [NaN] as soon as one
    argument is. *)
Definition min (a b : float) : float :=
  if PrimFloat.is_nan a || PrimFloat.is_nan b then PrimFloat.nan
  else if PrimFloat.ltb b a then b else a.

Definition max (a b : float) : float :=
  if PrimFloat.is_nan a || PrimFloat.is_nan b then PrimFloat.nan
  else if PrimFloat.ltb a b then b else a.

(** [Math.round(x)] for [x] from 0 to 100, where the clamp of
    [distanceToConfidence] puts its argument: the least integer [k]
    with [x < k + 0.5]. *)
Fixpoint roundFrom (fuel : nat) (k x : float) : float :=
  match fuel with
  | O => k
  | S fuel =>
      if PrimFloat.ltb x (PrimFloat.add k 0.5) then k
      else roundFrom fuel (PrimFloat.add k 1) x
  end.

Definition round (x : float) : float :=
  if PrimFloat.is_nan x then PrimFloat.nan else roundFrom 100 0 x.

(** 0.10 as binary64 reads it. *)
Definition BORDERLINE_BAND : float := 0x1.999999999999ap-4%float.

(** [distanceToConfidence] of app.js and of the closest-match variant. *)
Definition distanceToConfidence (d thr : float) : float :=
  let max_ := PrimFloat.add (PrimFloat.add thr BORDERLINE_BAND) 0.25 in
  let clamped :=
    max 0 (min 1 (PrimFloat.sub 1 (PrimFloat.div d max_))) in
  round (PrimFloat.mul clamped 100).

Definition closestDistanceToConfidence (d thr : float) : float :=
  let max_ := PrimFloat.add thr 0.25 in
  let clamped :=
    max 0 (min 1 (PrimFloat.sub 1 (PrimFloat.div d max_))) in
  round (PrimFloat.mul clamped 100).

(** What [isPlausibleFace] reads of a detection,
    [det.detection.box.width], [det.detection.box.height] and
    [det.detection.score], and of the image. *)
Module det.
Record t : Type := mk { width : float; height : float; score : option float }.
End det.

Module image.
Record t : Type := mk { width : float; height : float }.
End image.

(** The constants of the filter as binary64 reads them: 40, 0.35, 0.65
    and 1.60. *)
Definition MIN_FACE_PX : float := 40%float.
Definition MIN_DET_SCORE : float := 0x1.6666666666666p-2%float.
Definition MIN_AR : float := 0x1.4cccccccccccdp-1%float.
Definition MAX_AR : float := 0x1.999999999999ap+0%float.

(** Filters bogus detections. *)
Definition isPlausibleFace (d : det.t) (detScale : float) (img : image.t)
  : bool :=
  let score := default 0%float (det.score d) in
  let w := PrimFloat.div (det.width d) detScale in
  let h := PrimFloat.div (det.height d) detScale in
  if PrimFloat.ltb score MIN_DET_SCORE then false
  else
    let minSide := min w h in
    if PrimFloat.ltb minSide MIN_FACE_PX then false
    else
      let ar := PrimFloat.div w h in
      if PrimFloat.ltb ar MIN_AR || PrimFloat.ltb MAX_AR ar then false
      else if PrimFloat.ltb (PrimFloat.mul (image.width img) 0.75) w
              || PrimFloat.ltb (PrimFloat.mul (image.height img) 0.75) h
      then false
      else true.

End Binary64.

Definition carol : person.t := person.mk (IdString "c3") "Carol" (Some [[Num 1]]).

(** ** The first version

    The first version of the scanner compares a face with every sample
    of every profile, without selection and without early exit. *)
Module FirstVersion.

(** [{ hit, personName, personId, dist }] *)
Module found.
Record t : Type := mk {
  hit : bool;
  personName : string;
  personId : jsid;
  dist : number
}.
End found.

(** The body of the inner loop of [bestMatchToPeople]. *)
Definition closerSample (descriptor : embedding) (thr : number) (p : person.t)
  (best : found.t) (s : embedding) : found.t :=
  let d := dist descriptor s in
  if JS.lt d (found.dist best)
  then found.mk (JS.le d thr) (person.name p) (person.id p) d
  else best.

Definition bestMatchToPeople (people : list person.t) (descriptor : embedding)
  (thr : number) : found.t :=
  foldl (fun best p =>
           foldl (closerSample descriptor thr p) best
                 (default [] (person.samples p)))
        (found.mk false "" (IdString "") PosInfinity) people.

(** [const isFlagged = matches.some(m => m.hit);] for the faces of one
    image. *)
Definition isFlagged (people : list person.t) (thr : number)
  (detections : list det.t) : bool :=
  existsb found.hit
    (map (fun d => bestMatchToPeople people (det.descriptor d) thr) detections).

End FirstVersion.

(** All the samples of a profile list. *)
Definition allSamples (people : list person.t) : list embedding :=
  concat (map (fun p => default [] (person.samples p)) people).

(** A running best of the first version: its distance is a distance or
    the sentinel, and its [hit] says whether the distance passes. *)
Definition coherentBest (thr : R) (best : FirstVersion.found.t) : Prop :=
  FirstVersion.found.hit best = JS.le (FirstVersion.found.dist best) (Num thr)
  /\ (FirstVersion.found.dist best = PosInfinity
      \/ exists x, FirstVersion.found.dist best = Num x).

(** Two matches of one person for the examples. *)
Definition nearMatch : hit.t := hit.mk (IdString "a1") "Alice" (Num 0.3) (Num 68) flagged.
Definition farMatch : hit.t := hit.mk (IdString "a1") "Alice" (Num 0.5) (Num 47) flagged.

(** ** The buckets of the scan handler

    What the loop over the files does with each result row once its
    status is known: it counts the row in its bucket and, for the first
    row that is the most severe so far, draws the preview.  [preview] is
    the row of the last call of [drawPreview]. *)
Module buckets.
Record t : Type := mk {
  flaggedCount : nat;
  possibleCount : nat;
  clearCount : nat;
  preview : option verdict.t
}.
End buckets.

Definition bucketRow (b : buckets.t) (row : verdict.t) : buckets.t :=
  match verdict.status row with
  | flagged =>
      let flaggedCount := S (buckets.flaggedCount b) in
      buckets.mk flaggedCount (buckets.possibleCount b) (buckets.clearCount b)
        (if flaggedCount =? 1 then Some row else buckets.preview b)
  | possible =>
      let possibleCount := S (buckets.possibleCount b) in
      buckets.mk (buckets.flaggedCount b) possibleCount (buckets.clearCount b)
        (if (buckets.flaggedCount b =? 0) && (possibleCount =? 1)
         then Some row else buckets.preview b)
  | clear =>
      let clearCount := S (buckets.clearCount b) in
      buckets.mk (buckets.flaggedCount b) (buckets.possibleCount b) clearCount
        (if (buckets.flaggedCount b =? 0) && (buckets.possibleCount b =? 0)
            && (clearCount =? 1)
         then Some row else buckets.preview b)
  end.

(** The buckets after the rows of a scan, from the counters at 0. *)
Definition fillBuckets (rows : list verdict.t) : buckets.t :=
  foldl bucketRow (buckets.mk 0 0 0 None) rows.

(** The rows of a tier, and the first of them. *)
Definition rowsAt (tier : level) (rows : list verdict.t) : list verdict.t :=
  filter (fun r => verdict.status r = tier) rows.

Definition firstAt (tier : level) (rows : list verdict.t) : option verdict.t :=
  head (rowsAt tier rows).

(** ** The scan button and the preview *)

(** [btnScan.disabled] as [updateButtons] sets it. *)
Definition btnScan_disabled (modelsReady : bool) (files : nat)
  (people : list person.t) (scanSelection : selection) : bool :=
  let pool := selectedPeople people scanSelection in
  let poolSamples := foldl (fun s p => s + samplesLength p) 0 pool in
  negb modelsReady || (files =? 0) || (length pool =? 0) || (poolSamples =? 0).

(** [best?.dist]: [undefined], hence [NaN] in a comparison, without a
    match. *)
Definition optionalDist (best : option hit.t) : number :=
  match best with
  | Some b => hit.dist b
  | None => NaN
  end.

(** The level [drawPreview] works out again for each face. *)
Definition previewLevel (best : option hit.t) (thr possibleThr : number) : level :=
  if JS.le (optionalDist best) thr then flagged
  else if JS.le (optionalDist best) possibleThr then possible
  else clear.

(** ** Geometry: the preview canvas and the enrollment crops *)

(** [Math.floor(x)] *)
Definition js_floor (a : number) : number :=
  match a with
  | Num x => Num (IZR (Zfloor x))
  | _ => a
  end.

(** [const scaleCanvas = Math.min(1, maxW / img.width)] with [maxW = 1100]. *)
Definition previewScale (imgWidth : number) : number :=
  JS.min (Num 1) (JS.div (Num 1100) imgWidth).

(** [previewCanvas.width] and [previewCanvas.height]. *)
Definition previewSize (imgWidth imgHeight : number) : number * number :=
  let scaleCanvas := previewScale imgWidth in
  (JS.round (JS.mul imgWidth scaleCanvas), JS.round (JS.mul imgHeight scaleCanvas)).

(** The rectangle [handleEnrollFiles] crops from the original image for
    a detection: the box with a padding, kept inside the image. *)
Definition enrollCrop (box : det.box) (scale imgWidth imgHeight : number)
  : det.box :=
  let ox := JS.div (det.x box) scale in
  let oy := JS.div (det.y box) scale in
  let ow := JS.div (det.width box) scale in
  let oh := JS.div (det.height box) scale in
  let pad := JS.max (Num 12) (JS.round (JS.mul (JS.min ow oh) (Num 0.18))) in
  let x := JS.max (Num 0) (js_floor (JS.sub ox pad)) in
  let y := JS.max (Num 0) (js_floor (JS.sub oy pad)) in
  let w := JS.min (JS.sub imgWidth x) (js_floor (JS.add ow (JS.mul pad (Num 2)))) in
  let h := JS.min (JS.sub imgHeight y) (js_floor (JS.add oh (JS.mul pad (Num 2)))) in
  det.mkBox x y w h.

(** A box of real coordinates. *)
Definition realBox (x y w h : R) : det.box :=
  det.mkBox (Num x) (Num y) (Num w) (Num h).


(** ** People controls and the scan selection *)

(** [btnAddPerson]: [name] is the trimmed text of the input, [pid] what
    [uid()] returned. *)
Definition btnAddPerson_click (pid name : string) (people : list person.t)
  : list person.t :=
  if decide (name = EmptyString) then people
  else people ++ [person.mk (IdString pid) name (Some [])].

(** [delBtn.onclick]: [people = people.filter((x) => x.id !== p.id)]. *)
Definition deletePerson (pid : jsid) (people : list person.t)
  : list person.t :=
  filter (fun x => person.id x ≠ pid) people.

(** [for (const p of people) scanSelection[p.id] = checked] *)
Definition selectEach (checked : bool) (people : list person.t)
  (scanSelection : selection) : selection :=
  foldl (fun sel p => assign (idKey p) checked sel) scanSelection people.

Definition btnAll_click := selectEach true.
Definition btnNone_click := selectEach false.

(** ** escapeHtml

    A string as the sequence of its UTF-16 code units; the entities are
    written in ASCII. *)
Definition units (s : string) : list N :=
  map Ascii.N_of_ascii (String.list_ascii_of_string s).

(** The replacement of one code unit: the five characters of the
    character class, ampersand (38), less-than (60), greater-than (62),
    double quote (34) and apostrophe (39), become their entities. *)
Definition escapeUnit (m : N) : list N :=
  if (m =? 38)%N then units "&amp;"
  else if (m =? 60)%N then units "&lt;"
  else if (m =? 62)%N then units "&gt;"
  else if (m =? 34)%N then units "&quot;"
  else if (m =? 39)%N then units "&#039;"
  else [m].

Definition escapeHtml (str : list N) : list N :=
  concat (map escapeUnit str).

(** The characters that open or close markup or an attribute value. *)
Definition markup (m : N) : Prop :=
  m = 60%N \/ m = 62%N \/ m = 34%N \/ m = 39%N.

(** What the closest-match variant and app.js report of a match. *)
Definition reportOfBest (b : ClosestMatch.bestMatch.t) : jsid * string * number :=
  (ClosestMatch.bestMatch.personId b, ClosestMatch.bestMatch.name b,
   ClosestMatch.bestMatch.dist b).

Definition reportOfHit (h : hit.t) : jsid * string * number :=
  (hit.personId h, hit.name h, hit.dist h).

Definition flaggedOnly (best : option hit.t) : option hit.t :=
  match best with
  | Some h => match hit.level h with flagged => Some h | _ => None end
  | None => None
  end.

(** [clearSamplesBtn.onclick]: [p.samples = []] on the profile of the
    card, the object at index [i] of [people]. *)
Definition clearSamples (i : nat) (people : list person.t) : list person.t :=
  alter (fun p => person.mk (person.id p) (person.name p) (Some [])) i people.

(** A profile whose id is a string, as [uid()] makes the ids. *)
Definition stringId (p : person.t) : Prop := exists s, person.id p = IdString s.

(** A profile as a file written by hand may hold it, with a number
    for id: [{ "id": 1, "name": "Ann", "samples": [[0]] }]. *)
Definition ann : person.t := person.mk (IdNumber "1") "Ann" (Some [[Num 0]]).

(** A profile whose second sample is the closer one to [query0]. *)
Definition dora : person.t := person.mk (IdString "d4") "Dora" (Some twoSamples).

(** A face result whose matches have finite distances, as the
    [isFinite] test of the matcher makes them. *)
Definition finiteFace (fr : faceResult.t) : Prop :=
  Forall finiteDist (faceResult.hits fr)
  /\ Forall finiteDist (faceResult.possibles fr).

(** Two faces of one image that match the same person. *)
Definition faceNear : faceResult.t := faceResult.mk [nearMatch] [] (Some nearMatch).
Definition faceFar : faceResult.t := faceResult.mk [farMatch] [] (Some farMatch).

(** ** The confidence with the rounding of binary64

    The program computes on binary64 numbers: the result of an
    arithmetic operation is the exact result rounded to a binary64
    number.  In [Rounded] the rounding is a parameter [fl], applied
    to the result of every operation of [distanceToConfidence] that
    can be inexact, on finite numbers; [Math.min], [Math.max] and
    [Math.round] are exact.  With [fl] the identity these are the
    functions on exact numbers of the sections above. *)
Module Rounded.
Section Rounded.
Variable fl : R -> R.

(** [distanceToConfidence] of app.js. *)
Definition distanceToConfidence (BORDERLINE_BAND d thr : R) : Z :=
  let max := fl (fl (thr + BORDERLINE_BAND) + 0.25)%R in
  let clamped := Rmax 0 (Rmin 1 (fl (1 - fl (d / max))))%R in
  Zfloor (fl (clamped * 100) + / 2)%R.

(** [distanceToConfidence] of the closest-match variant. *)
Definition closestDistanceToConfidence (d thr : R) : Z :=
  let max := fl (thr + 0.25)%R in
  let clamped := Rmax 0 (Rmin 1 (fl (1 - fl (d / max))))%R in
  Zfloor (fl (clamped * 100) + / 2)%R.

End Rounded.
End Rounded.

(** The error of a rounding: on the numbers of magnitude at most [B]
    the rounded number is within the relative error [u] of the exact
    one, and within [eta] where the exact one is too small for that.
    Rounding to the nearest binary64 number is within [u = 2^-53] and
    [eta = 2^-1075] up to [B = 2^1023]. *)
Definition roundsWithin (fl : R -> R) (B u eta : R) : Prop :=
  forall x, (Rabs x <= B)%R -> (Rabs (fl x - x) <= u * Rabs x + eta)%R.

(** The number [distanceToConfidence] rounds to an integer, from the
    divisor [m] it has computed. *)
Definition percentFrom (fl : R -> R) (m d : R) : R :=
  fl (Rmax 0 (Rmin 1 (fl (1 - fl (d / m)))) * 100)%R.

(** The number the formula of the specification rounds to an integer. *)
Definition exactPercent (margin threshold possibleBand distance : R) : R :=
  (100 * Spec.clamp (1 - distance / (threshold + possibleBand + margin)) 0 1)%R.

(** [const possibleThr = thr + BORDERLINE_BAND] of the scan handler,
    the sum [matchesForDescriptor] compares a distance with as well. *)
Definition possibleThr (BORDERLINE_BAND : R) (thr : number) : number :=
  JS.add thr (Num BORDERLINE_BAND).

(** A match of another person, closer than [nearMatch]. *)
Definition bobMatch : hit.t :=
  hit.mk (IdString "b2") "Bob" (Num 0.2) (Num 79) flagged.

(** A detector that finds nothing, on images given by their two sides,
    which are numbers of pixels. *)
#[global] Instance sizedDetector : Detector (Z * Z) := {|
  img_width := fun i => Num (IZR i.1);
  img_height := fun i => Num (IZR i.2);
  detectAll := fun _ _ => []
|}.

(** * Proofs *)

(** ** Numbers *)

Ltac Rdecide :=
  repeat match goal with
  | |- context [@bool_decide ?P ?d] =>
      first [ rewrite (@bool_decide_eq_true_2 P d) by (simpl; lra)
            | rewrite (@bool_decide_eq_false_2 P d) by (simpl; lra) ]
  | H : context [@bool_decide ?P ?d] |- _ =>
      first [ rewrite (@bool_decide_eq_true_2 P d) in H by (simpl; lra)
            | rewrite (@bool_decide_eq_false_2 P d) in H by (simpl; lra) ]
  end.

Lemma sqrt_of_square (x y : R) : (0 <= y)%R -> (x = y * y)%R -> R_sqrt.sqrt x = y.
Proof. intros Hy ->. by apply sqrt_square. Qed.

Lemma lt_Num_true x y : JS.lt (Num x) (Num y) = true <-> (x < y)%R.
Proof. simpl. apply bool_decide_eq_true. Qed.

Lemma lt_Num_false x y : JS.lt (Num x) (Num y) = false <-> (y <= x)%R.
Proof. simpl. rewrite bool_decide_eq_false. split; lra. Qed.

Lemma le_Num_true x y : JS.le (Num x) (Num y) = true <-> (x <= y)%R.
Proof. simpl. apply bool_decide_eq_true. Qed.

Lemma le_Num_false x y : JS.le (Num x) (Num y) = false <-> (y < x)%R.
Proof. simpl. rewrite bool_decide_eq_false. split; lra. Qed.

Lemma isFinite_Num a : JS.isFinite a = true <-> exists x, a = Num x.
Proof. destruct a; simpl; split; intros; eauto; try done; by destruct H. Qed.

Lemma sub_Num x y : JS.sub (Num x) (Num y) = Num (x - y).
Proof. reflexivity. Qed.

Lemma min_Num x y : JS.min (Num x) (Num y) = Num (Rmin x y).
Proof.
  simpl. unfold Rmin. case_bool_decide; destruct (Rle_dec x y); f_equal; lra.
Qed.

Lemma max_Num x y : JS.max (Num x) (Num y) = Num (Rmax x y).
Proof.
  simpl. unfold Rmax. case_bool_decide; destruct (Rle_dec x y); f_equal; lra.
Qed.

Lemma div_Num x y : y <> 0%R -> JS.div (Num x) (Num y) = Num (x / y).
Proof. intros Hy. simpl. by rewrite bool_decide_eq_false_2. Qed.

Ltac orderR :=
  repeat match goal with
  | H : JS.le (Num _) (Num _) = true |- _ => apply le_Num_true in H
  | H : JS.le (Num _) (Num _) = false |- _ => apply le_Num_false in H
  | H : JS.lt (Num _) (Num _) = true |- _ => apply lt_Num_true in H
  | H : JS.lt (Num _) (Num _) = false |- _ => apply lt_Num_false in H
  end.

Ltac cases_lt :=
  repeat match goal with
  | |- context [JS.lt (Num ?a) (Num ?b)] =>
      let H := fresh "Hlt" in
      destruct (JS.lt (Num a) (Num b)) eqn:H;
      [apply lt_Num_true in H | apply lt_Num_false in H]
  | |- context [JS.le (Num ?a) (Num ?b)] =>
      let H := fresh "Hle" in
      destruct (JS.le (Num a) (Num b)) eqn:H;
      [apply le_Num_true in H | apply le_Num_false in H]
  end.

(** ** Order on Numbers *)

Lemma lt_trans a b c : JS.lt a b = true -> JS.lt b c = true -> JS.lt a c = true.
Proof.
  destruct a, b, c; simpl; try done.
  rewrite !bool_decide_eq_true. lra.
Qed.

Lemma le_trans a b c : JS.le a b = true -> JS.le b c = true -> JS.le a c = true.
Proof.
  destruct a, b, c; simpl; try done.
  rewrite !bool_decide_eq_true. lra.
Qed.

Lemma lt_le a b : JS.lt a b = true -> JS.le a b = true.
Proof.
  destruct a, b; simpl; try done.
  rewrite !bool_decide_eq_true. lra.
Qed.

Lemma le_refl a : a <> NaN -> JS.le a a = true.
Proof. destruct a; simpl; try done. intros _. apply bool_decide_eq_true. lra. Qed.

Lemma lt_true_not_NaN a b : JS.lt a b = true -> a <> NaN.
Proof. by destruct a. Qed.

(** ** The distance engine *)

Lemma dist_sumSquares_from a b s :
  foldl (fun s i =>
           let d := JS.sub (JS.at_index a i) (JS.at_index b i) in
           JS.add s (JS.mul d d)) s (seq 0 (length a))
  = sumSquares a b s.
Proof.
  revert b s. induction a as [|x a IH]; intros b s; [done|].
  cbn [length seq foldl sumSquares].
  rewrite <- seq_shift, foldl_fmap.
  rewrite <- IH. destruct b; reflexivity.
Qed.

Lemma dist_sumSquares a b : dist a b = JS.sqrt (sumSquares a b (Num 0)).
Proof. unfold dist. by rewrite dist_sumSquares_from. Qed.

Lemma sumSquares_NaN a b : sumSquares a b NaN = NaN.
Proof. revert b. induction a; intros b; simpl; [done|]. by rewrite IHa. Qed.

Lemma sumSquares_longer a b s :
  length b < length a -> sumSquares a b s = NaN.
Proof.
  revert b s. induction a as [|x a IH]; intros b s Hlen; simpl in *; [lia|].
  destruct b as [|y b]; simpl in *.
  - replace (JS.add s _) with NaN; [apply sumSquares_NaN|].
    unfold JS.sub. destruct x, s; reflexivity.
  - apply IH. lia.
Qed.

Lemma sumSquares_real xs ys s :
  length xs <= length ys ->
  sumSquares (Num <$> xs) (Num <$> ys) (Num s)
  = Num (s + squaredDistance xs ys).
Proof.
  revert ys s. induction xs as [|x xs IH]; intros ys s Hlen.
  - simpl. unfold squaredDistance. simpl. f_equal. lra.
  - destruct ys as [|y ys]; simpl in Hlen; [lia|].
    cbn [fmap list_fmap sumSquares tail]. unfold JS.at_index. simpl.
    rewrite IH by lia. f_equal. unfold squaredDistance. simpl. lra.
Qed.

Lemma squaredDistance_nonneg xs ys : (0 <= squaredDistance xs ys)%R.
Proof.
  unfold squaredDistance. induction (zip xs ys) as [|[x y] l IH]; simpl; [lra|].
  pose proof (Rle_0_sqr (x - y)) as Hsq. unfold Rsqr in Hsq. lra.
Qed.

Lemma squaredDistance_take xs ys :
  squaredDistance xs ys = squaredDistance xs (take (length xs) ys).
Proof.
  unfold squaredDistance. f_equal.
  revert ys. induction xs; intros [|y ys]; simpl; try done. by rewrite <- IHxs.
Qed.

(** The result of [dist] is a distance, [Infinity] or [NaN]. *)
Lemma dist_range a b :
  dist a b = NaN \/ dist a b = PosInfinity \/ exists x, dist a b = Num x /\ (0 <= x)%R.
Proof.
  rewrite dist_sumSquares. destruct (sumSquares a b (Num 0)); simpl; auto.
  case_bool_decide; auto. right; right. eexists; split; [done|apply sqrt_pos].
Qed.

Lemma dist_singleton (a b : R) : dist [Num a] [Num b] = Num (Rabs (a - b)).
Proof.
  rewrite dist_sumSquares. simpl.
  assert (0 <= 0 + (a + - b) * (a + - b))%R as Hsq.
  { pose proof (Rle_0_sqr (a + - b)) as H. unfold Rsqr in H. lra. }
  rewrite bool_decide_eq_false_2 by lra. f_equal.
  replace (0 + (a + - b) * (a + - b))%R with (Rsqr (a - b)) by (unfold Rsqr; lra).
  apply sqrt_Rsqr_abs.
Qed.

(** ** C3 *)

(** C3, what [dist] does with embeddings of different lengths: it raises
    no error.  When the first embedding is the longer one the result is
    [NaN]; when it is the shorter one the extra components of the second
    are ignored, and the result is the Euclidean distance between the
    first embedding and the prefix of the second of the same length. *)
Theorem dist_length_mismatch (xs ys : list R) :
  length xs <> length ys ->
  dist (Num <$> xs) (Num <$> ys)
  = if length ys <? length xs then NaN
    else Num (euclidean xs (take (length xs) ys)).
Proof.
  intros Hne. rewrite dist_sumSquares.
  destruct (length ys <? length xs) eqn:Hlen.
  - apply Nat.ltb_lt in Hlen.
    rewrite sumSquares_longer; [done|]. by rewrite !length_fmap.
  - apply Nat.ltb_ge in Hlen. rewrite sumSquares_real by done.
    unfold euclidean. rewrite <- squaredDistance_take. simpl.
    pose proof (squaredDistance_nonneg xs ys).
    rewrite bool_decide_eq_false_2 by lra. do 2 f_equal. lra.
Qed.

Lemma dist_length_mismatch_witness :
  dist (Num <$> [1%R]) (Num <$> [1%R; 2%R])
  = Num (euclidean [1%R] (take 1 [1%R; 2%R])).
Proof. apply (dist_length_mismatch [1%R] [1%R; 2%R]). simpl. lia. Defined.

(** C3 as stated fails: on embeddings of lengths 1 and 2 [dist] returns
    the number 0. *)
Lemma dist_mismatch_returns_number :
  length [Num 1] <> length [Num 1; Num 2]
  /\ dist [Num 1] [Num 1; Num 2] = Num 0.
Proof.
  split; [simpl; lia|].
  rewrite dist_sumSquares. simpl. Rdecide.
  f_equal. apply sqrt_of_square; lra.
Qed.

(** In the matchers a sample shorter than the query is passed over
    without a trace: its distance is [NaN], which no comparison keeps. *)
Lemma shorter_sample_skipped (q s : embedding) (rest : list embedding) :
  length s < length q ->
  scanSamples q (s :: rest) PosInfinity = scanSamples q rest PosInfinity.
Proof.
  intros Hlen. cbn [scanSamples].
  by rewrite dist_sumSquares, sumSquares_longer.
Qed.

(** ** The per-identity scan and its early exit *)

Lemma minDistance_foldl q ss :
  Spec.minDistance q ss = foldl (keepCloser q) PosInfinity ss.
Proof. reflexivity. Qed.

Lemma aboveCutoff_not_below best :
  aboveCutoff best -> JS.lt best (Num EARLY_EXIT) = false.
Proof.
  intros [-> | (y & -> & Hy)]; [done|]. by apply lt_Num_false.
Qed.

Lemma keepCloser_above q best s :
  aboveCutoff best ->
  JS.lt (keepCloser q best s) (Num EARLY_EXIT) = false ->
  aboveCutoff (keepCloser q best s).
Proof.
  intros Hb. unfold keepCloser.
  destruct (JS.lt (dist q s) best) eqn:Hlt; [|done].
  destruct (dist_range q s) as [Hd | [Hd | (x & Hd & Hx)]]; rewrite Hd in *.
  - by destruct best.
  - by destruct best.
  - intros Hc. apply lt_Num_false in Hc. right. eauto.
Qed.

Lemma keepCloser_below q best s :
  aboveCutoff best ->
  JS.lt (keepCloser q best s) (Num EARLY_EXIT) = JS.lt (dist q s) (Num EARLY_EXIT).
Proof.
  intros Hb. unfold keepCloser.
  destruct (JS.lt (dist q s) best) eqn:Hlt; [done|].
  rewrite (aboveCutoff_not_below _ Hb). symmetry.
  destruct (dist_range q s) as [Hd | [Hd | (x & Hd & Hx)]]; rewrite Hd in *; try done.
  apply lt_Num_false.
  destruct Hb as [-> | (y & -> & Hy)]; [done|].
  apply lt_Num_false in Hlt. lra.
Qed.

Lemma scanSamples_scanned q ss best :
  aboveCutoff best ->
  scanSamples q ss best = foldl (keepCloser q) best (Spec.scanned q ss).
Proof.
  revert best. induction ss as [|s ss IH]; intros best Hb; [done|].
  cbn [scanSamples Spec.scanned]. fold (keepCloser q best s).
  rewrite (keepCloser_below q best s Hb).
  destruct (JS.lt (dist q s) (Num EARLY_EXIT)) eqn:Hd; [done|].
  cbn [foldl]. apply IH, keepCloser_above; [done|].
  by rewrite keepCloser_below.
Qed.

Lemma keepCloser_not_NaN q best s : best <> NaN -> keepCloser q best s <> NaN.
Proof.
  intros Hb. unfold keepCloser.
  destruct (JS.lt (dist q s) best) eqn:Hlt; [|done]. by eapply lt_true_not_NaN.
Qed.

Lemma keepCloser_le q best s : best <> NaN -> JS.le (keepCloser q best s) best = true.
Proof.
  intros Hb. unfold keepCloser.
  destruct (JS.lt (dist q s) best) eqn:Hlt; [by apply lt_le|by apply le_refl].
Qed.

Lemma foldl_keepCloser_not_NaN q ss best :
  best <> NaN -> foldl (keepCloser q) best ss <> NaN.
Proof.
  revert best. induction ss as [|s ss IH]; intros best Hb; [done|].
  simpl. by apply IH, keepCloser_not_NaN.
Qed.

Lemma foldl_keepCloser_le q ss best :
  best <> NaN -> JS.le (foldl (keepCloser q) best ss) best = true.
Proof.
  revert best. induction ss as [|s ss IH]; intros best Hb; simpl.
  - by apply le_refl.
  - eapply le_trans; [apply IH, keepCloser_not_NaN, Hb|by apply keepCloser_le].
Qed.

Lemma foldl_keepCloser_below q ss best :
  JS.lt best (Num EARLY_EXIT) = true ->
  JS.lt (foldl (keepCloser q) best ss) (Num EARLY_EXIT) = true.
Proof.
  revert best. induction ss as [|s ss IH]; intros best Hb; [done|].
  simpl. apply IH. unfold keepCloser.
  destruct (JS.lt (dist q s) best) eqn:Hlt; [|done]. by eapply lt_trans.
Qed.

(** Without a sample below the cutoff the scan never exits early. *)
Lemma scanSamples_no_exit q ss best :
  aboveCutoff best ->
  JS.lt (foldl (keepCloser q) best ss) (Num EARLY_EXIT) = false ->
  scanSamples q ss best = foldl (keepCloser q) best ss.
Proof.
  revert best. induction ss as [|s ss IH]; intros best Hb Hmin; [done|].
  cbn [scanSamples foldl] in *. fold (keepCloser q best s) in *.
  destruct (JS.lt (keepCloser q best s) (Num EARLY_EXIT)) eqn:Hk.
  - by rewrite foldl_keepCloser_below in Hmin.
  - apply IH; [by apply keepCloser_above|done].
Qed.

Lemma scanned_prefix q ss : exists rest, ss = Spec.scanned q ss ++ rest.
Proof.
  induction ss as [|s ss [rest IH]]; [by exists []|].
  simpl. destruct (JS.lt (dist q s) (Num EARLY_EXIT)).
  - by exists ss.
  - exists rest. simpl. by rewrite <- IH.
Qed.

(** The scan returns a finite distance or the sentinel. *)
Lemma scanSamples_range q ss :
  scanSamples q ss PosInfinity = PosInfinity
  \/ exists x, scanSamples q ss PosInfinity = Num x /\ (0 <= x)%R.
Proof.
  rewrite scanSamples_scanned by (by left).
  assert (forall best l,
    (best = PosInfinity \/ exists x, best = Num x /\ (0 <= x)%R) ->
    (foldl (keepCloser q) best l = PosInfinity
     \/ exists x, foldl (keepCloser q) best l = Num x /\ (0 <= x)%R)) as Hgen.
  { intros best l. revert best. induction l as [|s l IH]; intros best Hb; [done|].
    simpl. apply IH. unfold keepCloser.
    destruct (JS.lt (dist q s) best) eqn:Hlt; [|done].
    destruct (dist_range q s) as [Hd | [Hd | Hd]]; rewrite ?Hd in *; auto.
    by destruct best. }
  apply Hgen. by left.
Qed.

(** ** C2 *)

Lemma scanned_all q ss best :
  aboveCutoff best ->
  JS.lt (foldl (keepCloser q) best (Spec.scanned q ss)) (Num EARLY_EXIT) = false ->
  Spec.scanned q ss = ss.
Proof.
  revert best. induction ss as [|s ss IH]; intros best Hb Hrep; [done|].
  simpl in *. pose proof (keepCloser_below q best s Hb) as Hk.
  destruct (JS.lt (dist q s) (Num EARLY_EXIT)) eqn:Hd.
  - simpl in Hrep. congruence.
  - f_equal. simpl in Hrep. eapply IH; [|done].
    apply keepCloser_above; [done|congruence].
Qed.

(** A true minimum below the cutoff makes the scan report a distance
    below the cutoff. *)
Lemma scanSamples_exit q ss :
  JS.lt (Spec.minDistance q ss) (Num EARLY_EXIT) = true ->
  JS.lt (scanSamples q ss PosInfinity) (Num EARLY_EXIT) = true.
Proof.
  rewrite minDistance_foldl. intros Hmin.
  assert (aboveCutoff PosInfinity) as Hinf by (by left).
  destruct (JS.lt (scanSamples q ss PosInfinity) (Num EARLY_EXIT)) eqn:Hrep; [done|].
  rewrite scanSamples_scanned in Hrep by done.
  rewrite (scanned_all q ss PosInfinity Hinf Hrep) in Hrep. congruence.
Qed.

Lemma scanSamples_at_least q ss :
  JS.le (Spec.minDistance q ss) (scanSamples q ss PosInfinity) = true.
Proof.
  rewrite minDistance_foldl, scanSamples_scanned by (by left).
  destruct (scanned_prefix q ss) as [rest Hrest].
  rewrite Hrest at 1. rewrite foldl_app.
  apply foldl_keepCloser_le, foldl_keepCloser_not_NaN. done.
Qed.

(** C2, the early exit as the code has it: the distance reported for an
    identity is the minimum over the samples up to and including the
    first one below the cutoff.  It is the true minimum over all the
    samples whenever that minimum is not below the cutoff; when the true
    minimum is below the cutoff, the reported distance is below the
    cutoff too and is not smaller than the true minimum. *)
Theorem early_exit_reported (q : embedding) (ss : list embedding) :
  scanSamples q ss PosInfinity = Spec.minDistance q (Spec.scanned q ss)
  /\ (JS.lt (Spec.minDistance q ss) (Num EARLY_EXIT) = false ->
      scanSamples q ss PosInfinity = Spec.minDistance q ss)
  /\ (JS.lt (Spec.minDistance q ss) (Num EARLY_EXIT) = true ->
      JS.lt (scanSamples q ss PosInfinity) (Num EARLY_EXIT) = true
      /\ JS.le (Spec.minDistance q ss) (scanSamples q ss PosInfinity) = true).
Proof.
  assert (aboveCutoff PosInfinity) as Hinf by (by left).
  split; [by apply scanSamples_scanned|].
  split; [by apply scanSamples_no_exit|].
  intros Hmin. split; [by apply scanSamples_exit|apply scanSamples_at_least].
Qed.

Lemma twoSamples_minDistance : Spec.minDistance query0 twoSamples = Num 0.0625.
Proof.
  unfold Spec.minDistance, twoSamples, query0. cbn [foldl].
  rewrite !dist_singleton.
  replace (Rabs (0 - 0.1875)) with 0.1875%R
    by (rewrite Rabs_left; lra).
  replace (Rabs (0 - 0.0625)) with 0.0625%R
    by (rewrite Rabs_left; lra).
  simpl. by Rdecide.
Qed.

Lemma twoSamples_reported : scanSamples query0 twoSamples PosInfinity = Num 0.1875.
Proof.
  unfold twoSamples, query0. cbn [scanSamples]. rewrite !dist_singleton.
  replace (Rabs (0 - 0.1875)) with 0.1875%R
    by (rewrite Rabs_left; lra).
  simpl. unfold EARLY_EXIT. by Rdecide.
Qed.

Lemma early_exit_reported_witness :
  JS.lt (scanSamples query0 twoSamples PosInfinity) (Num EARLY_EXIT) = true
  /\ JS.le (Spec.minDistance query0 twoSamples)
           (scanSamples query0 twoSamples PosInfinity) = true.
Proof.
  apply (early_exit_reported query0 twoSamples).
  rewrite twoSamples_minDistance. apply lt_Num_true. unfold EARLY_EXIT. lra.
Defined.

(** C2 as stated fails: with samples at distances 0.1875 and 0.0625 the
    true minimum 0.0625 is below the cutoff, and the scan reports 0.1875. *)
Lemma early_exit_changes_distance :
  Spec.minDistance query0 twoSamples = Num 0.0625
  /\ JS.lt (Spec.minDistance query0 twoSamples) (Num EARLY_EXIT) = true
  /\ scanSamples query0 twoSamples PosInfinity = Num 0.1875
  /\ scanSamples query0 twoSamples PosInfinity <> Spec.minDistance query0 twoSamples.
Proof.
  rewrite twoSamples_minDistance, twoSamples_reported. repeat split.
  - apply lt_Num_true. unfold EARLY_EXIT. lra.
  - intros [=]. lra.
Qed.

(** ** C6: the confidence heuristic *)

Lemma clamp_unit x : (0 <= Spec.clamp x 0 1 <= 1)%R.
Proof.
  unfold Spec.clamp, Rmax, Rmin.
  destruct (Rle_dec 1 x); destruct (Rle_dec 0 _); lra.
Qed.

Lemma round_percent c :
  (0 <= c <= 1)%R -> (0 <= Zfloor (100 * c + / 2) <= 100)%Z.
Proof.
  intros Hc. pose proof (Zfloor_bound (100 * c + / 2)) as [Hlo Hhi].
  assert (-1 < Zfloor (100 * c + / 2))%Z by (apply lt_IZR; lra).
  assert (Zfloor (100 * c + / 2) < 101)%Z by (apply lt_IZR; lra).
  lia.
Qed.

Lemma clamped_percent (d m : R) :
  m <> 0%R ->
  JS.round
    (JS.mul (JS.max (Num 0) (JS.min (Num 1) (JS.sub (Num 1) (JS.div (Num d) (Num m)))))
            (Num 100))
  = Num (IZR (Zfloor (100 * Spec.clamp (1 - d / m) 0 1 + / 2))).
Proof.
  intros Hm. rewrite div_Num by done.
  rewrite sub_Num, min_Num, max_Num. cbn [JS.mul JS.round].
  unfold Spec.clamp. do 3 f_equal. lra.
Qed.

Lemma distanceToConfidence_value (band thr d : R) :
  (thr + band + 0.25 <> 0)%R ->
  distanceToConfidence band (Num d) (Num thr)
  = Num (IZR (Spec.confidence 0.25 thr band d)).
Proof.
  intros Hmax. unfold distanceToConfidence, Spec.confidence.
  cbn [JS.add]. by rewrite clamped_percent.
Qed.

Lemma closestMatch_distanceToConfidence_value (thr d : R) :
  (thr + 0.25 <> 0)%R ->
  ClosestMatch.distanceToConfidence (Num d) (Num thr)
  = Num (IZR (Spec.confidence 0.25 thr 0 d)).
Proof.
  intros Hmax. unfold ClosestMatch.distanceToConfidence, Spec.confidence.
  cbn [JS.add]. rewrite clamped_percent by done.
  by replace (thr + 0 + 0.25)%R with (thr + 0.25)%R by lra.
Qed.

Lemma confidence_percent (margin thr band d : R) :
  (0 <= Spec.confidence margin thr band d <= 100)%Z.
Proof. apply round_percent, clamp_unit. Qed.

(** The confidence of the scenario of the design document: distance
    0.50 at threshold 0.55 gives 44. *)
Example confidence_at_half :
  distanceToConfidence 0.10 (Num 0.5) (Num 0.55) = Num 44.
Proof.
  rewrite distanceToConfidence_value by lra.
  do 2 f_equal. unfold Spec.confidence. apply Zfloor_eq.
  unfold Spec.clamp, Rmax, Rmin.
  destruct (Rle_dec 1 _); destruct (Rle_dec 0 _); lra.
Qed.

(** ** Sorting by distance: the head *)

Lemma finiteDist_Num h : finiteDist h <-> exists x, hit.dist h = Num x.
Proof. apply isFinite_Num. Qed.

Lemma byDist_gt a b :
  finiteDist a -> finiteDist b ->
  JS.gt (byDist a b) (Num 0) = JS.lt (hit.dist b) (hit.dist a).
Proof.
  intros [x Hx]%finiteDist_Num [y Hy]%finiteDist_Num.
  unfold byDist, JS.gt. rewrite Hx, Hy. simpl.
  apply bool_decide_ext. lra.
Qed.

Lemma head_sort_insert {A} (cmp : A -> A -> number) x l :
  head (sort_insert cmp x l)
  = match head l with
    | Some y => if JS.gt (cmp x y) (Num 0) then Some y else Some x
    | None => Some x
    end.
Proof.
  destruct l as [|y l]; [done|]. cbn [sort_insert head].
  by destruct (JS.gt (cmp x y) (Num 0)).
Qed.

Lemma firstMin_elem l h : firstMin l = Some h -> h ∈ l.
Proof.
  revert h. induction l as [|a l IH]; intros h; simpl; [done|].
  destruct (firstMin l) as [h'|].
  - destruct (JS.lt _ _); intros [= <-]; [right; by apply IH|left].
  - intros [= <-]. left.
Qed.

Lemma head_js_sort l :
  Forall finiteDist l -> head (js_sort byDist l) = firstMin l.
Proof.
  induction 1 as [|a l Ha Hl IH]; [done|].
  cbn [js_sort foldr firstMin]. fold (js_sort byDist l).
  rewrite head_sort_insert, IH.
  destruct (firstMin l) as [h'|] eqn:Hmin; [|done].
  rewrite byDist_gt; [done..|].
  eapply Forall_forall; [exact Hl|]. by apply firstMin_elem.
Qed.

(** ** Sorting by distance: permutation and order *)

Lemma sort_insert_perm {A} (cmp : A -> A -> number) x l :
  sort_insert cmp x l ≡ₚ x :: l.
Proof.
  induction l as [|y l IH]; [done|]. cbn [sort_insert].
  destruct (JS.gt (cmp x y) (Num 0)); [|done].
  rewrite IH. apply Permutation_swap.
Qed.

Lemma js_sort_perm {A} (cmp : A -> A -> number) l : js_sort cmp l ≡ₚ l.
Proof.
  induction l as [|x l IH]; [done|].
  cbn [js_sort foldr]. fold (js_sort cmp l).
  by rewrite sort_insert_perm, IH.
Qed.

Lemma closerOrEqual_trans a b c :
  closerOrEqual a b -> closerOrEqual b c -> closerOrEqual a c.
Proof. apply le_trans. Qed.

Lemma sort_insert_sorted x l :
  finiteDist x -> Forall finiteDist l ->
  StronglySorted closerOrEqual l ->
  StronglySorted closerOrEqual (sort_insert byDist x l).
Proof.
  intros Hx Hl Hs. induction Hs as [|y l Hs IH Hy].
  - repeat constructor.
  - apply Forall_cons in Hl as [Hfy Hl]. cbn [sort_insert].
    rewrite byDist_gt by done.
    apply finiteDist_Num in Hx as Hx'. destruct Hx' as [a Ha].
    apply finiteDist_Num in Hfy as Hy'. destruct Hy' as [b Hb].
    destruct (JS.lt (hit.dist y) (hit.dist x)) eqn:Hlt.
    + constructor; [by apply IH|].
      rewrite sort_insert_perm. constructor; [by apply lt_le|done].
    + assert (closerOrEqual x y) as Hxy.
      { unfold closerOrEqual. rewrite Ha, Hb in *.
        apply lt_Num_false in Hlt. by apply le_Num_true. }
      constructor; [by constructor|].
      constructor; [done|].
      eapply Forall_impl; [exact Hy|].
      intros z Hz. by eapply closerOrEqual_trans.
Qed.

Lemma js_sort_sorted l :
  Forall finiteDist l -> StronglySorted closerOrEqual (js_sort byDist l).
Proof.
  induction 1 as [|x l Hx Hl IH]; [constructor|].
  cbn [js_sort foldr]. fold (js_sort byDist l).
  apply sort_insert_sorted; [done| |done].
  by rewrite js_sort_perm.
Qed.

(** ** The [Map] of [dedupeByPerson] *)

Section MapFacts.
Context {A : Type}.
Implicit Types (m : list (jsid * A)) (k : jsid) (v : A).

Lemma map_get_None k m : map_get k m = None <-> k ∉ map fst m.
Proof.
  induction m as [|[k' v'] m IH]; simpl.
  - split; [intros _; apply not_elem_of_nil|done].
  - destruct (decide (k = k')) as [->|Hne].
    + split; [done|]. intros Hk. exfalso. apply Hk. left.
    + rewrite IH, not_elem_of_cons. tauto.
Qed.

Lemma map_get_Some_elem k v m : map_get k m = Some v -> (k, v) ∈ m.
Proof.
  induction m as [|[k' v'] m IH]; simpl; [done|].
  destruct (decide (k = k')) as [->|Hne].
  - intros [= ->]. left.
  - intros Hg. right. by apply IH.
Qed.

Lemma map_get_elem k v m : NoDup (map fst m) -> (k, v) ∈ m -> map_get k m = Some v.
Proof.
  induction m as [|[k' v'] m IH]; simpl; [by intros _ ?%elem_of_nil|].
  intros [Hk' Hm]%NoDup_cons [[= -> ->]|Hin]%elem_of_cons.
  - by rewrite decide_True.
  - rewrite decide_False; [by apply IH|].
    intros ->. apply Hk'. apply list_elem_of_fmap. by exists (k', v).
Qed.

Lemma map_set_keys k v m k' :
  k' ∈ map fst (map_set k v m) <-> k' = k \/ k' ∈ map fst m.
Proof.
  induction m as [|[k0 v0] m IH]; simpl.
  - rewrite list_elem_of_singleton. split; [auto|]. intros [?|?%elem_of_nil]; done.
  - destruct (decide (k = k0)) as [->|Hne]; simpl.
    + rewrite !elem_of_cons. tauto.
    + rewrite !elem_of_cons, IH. tauto.
Qed.

Lemma map_set_NoDup k v m : NoDup (map fst m) -> NoDup (map fst (map_set k v m)).
Proof.
  induction m as [|[k0 v0] m IH]; simpl.
  - intros _. apply NoDup_singleton.
  - intros [Hk0 Hm]%NoDup_cons.
    destruct (decide (k = k0)) as [->|Hne]; simpl.
    + by apply NoDup_cons.
    + apply NoDup_cons. split; [|by apply IH].
      rewrite map_set_keys. intros [->|?]; done.
Qed.

Lemma map_set_elem k v m : (k, v) ∈ map_set k v m.
Proof.
  induction m as [|[k0 v0] m IH]; simpl; [left|].
  destruct (decide (k = k0)); [left|by right].
Qed.

Lemma map_set_elem_inv k v m k' v' :
  (k', v') ∈ map_set k v m -> (k', v') = (k, v) \/ (k', v') ∈ m.
Proof.
  induction m as [|[k0 v0] m IH]; simpl.
  - intros ->%list_elem_of_singleton. by left.
  - destruct (decide (k = k0)) as [->|Hne].
    + intros [->|Hin]%elem_of_cons; [by left|right; by right].
    + intros [->|Hin]%elem_of_cons; [right; left|].
      destruct (IH Hin) as [?|?]; [by left|right; by right].
Qed.

Lemma map_set_nonempty k v m : map_set k v m <> [].
Proof. destruct m as [|[k0 v0] m]; simpl; [done|]. by destruct (decide (k = k0)). Qed.

End MapFacts.

(** ** [dedupeByPerson] *)

Lemma closerOrEqual_refl h : finiteDist h -> closerOrEqual h h.
Proof.
  intros [x Hx]%finiteDist_Num. unfold closerOrEqual. rewrite Hx.
  apply le_Num_true. lra.
Qed.

Lemma not_closer h h' :
  finiteDist h -> finiteDist h' ->
  JS.lt (hit.dist h) (hit.dist h') = false -> closerOrEqual h' h.
Proof.
  intros [x Hx]%finiteDist_Num [y Hy]%finiteDist_Num. unfold closerOrEqual.
  rewrite Hx, Hy. intros Hlt%lt_Num_false. by apply le_Num_true.
Qed.

Lemma keepBest_inv l entries item :
  Forall finiteDist l -> finiteDist item ->
  dedupeInv l entries -> dedupeInv (l ++ [item]) (keepBest entries item).
Proof.
  intros Hl Hitem (Hnd & Hent & Hkeys). unfold keepBest.
  assert (forall i, i ∈ l ++ [item] -> i ∈ l \/ i = item) as Hsplit.
  { intros i [?|?%list_elem_of_singleton]%elem_of_app; auto. }
  destruct (map_get (hit.personId item) entries) as [prev|] eqn:Hget.
  - apply map_get_Some_elem in Hget as Hprev.
    destruct (Hent _ _ Hprev) as (Hid & Hprevl & Hleast).
    assert (finiteDist prev) as Hfp by (by eapply Forall_forall).
    destruct (JS.lt (hit.dist item) (hit.dist prev)) eqn:Hlt.
    + assert (NoDup (map fst (map_set (hit.personId item) item entries)))
        as Hnd' by (by apply map_set_NoDup).
      split; [done|]. split.
      * intros k v Hin.
        destruct (decide (k = hit.personId item)) as [->|Hne].
        -- assert (v = item) as ->.
           { apply (map_get_elem _ _ _ Hnd') in Hin.
             rewrite (map_get_elem _ item _ Hnd') in Hin by apply map_set_elem.
             congruence. }
           split; [done|]. split; [apply elem_of_app; right; left|].
           intros i [Hi| ->]%Hsplit Hidi; [|by apply closerOrEqual_refl].
           eapply closerOrEqual_trans; [by apply lt_le|by apply Hleast].
        -- apply map_set_elem_inv in Hin as [[= -> ->]|Hin]; [done|].
           destruct (Hent _ _ Hin) as (Hk & Hv & Hmin).
           split; [done|]. split; [apply elem_of_app; by left|].
           intros i [Hi| ->]%Hsplit Hidi; [by apply Hmin|done].
      * intros i [Hi| ->]%Hsplit; apply map_set_keys; [right; by apply Hkeys|by left].
    + split; [done|]. split.
      * intros k v Hin. destruct (Hent _ _ Hin) as (Hk & Hv & Hmin).
        split; [done|]. split; [apply elem_of_app; by left|].
        intros i [Hi| ->]%Hsplit Hidi; [by apply Hmin|].
        assert (v = prev) as ->.
        { apply (map_get_elem _ _ _ Hnd) in Hin.
          rewrite Hidi in Hget. congruence. }
        by apply not_closer.
      * intros i [Hi| ->]%Hsplit; [by apply Hkeys|].
        apply list_elem_of_fmap. by exists (hit.personId item, prev).
  - apply map_get_None in Hget.
    split; [by apply map_set_NoDup|]. split.
    + intros k v [[= -> ->]|Hin]%map_set_elem_inv.
      * split; [done|]. split; [apply elem_of_app; right; left|].
        intros i [Hi| ->]%Hsplit Hidi; [|by apply closerOrEqual_refl].
        exfalso. apply Hget. rewrite <- Hidi. by apply Hkeys.
      * destruct (Hent _ _ Hin) as (Hk & Hv & Hmin).
        split; [done|]. split; [apply elem_of_app; by left|].
        intros i [Hi| ->]%Hsplit Hidi; [by apply Hmin|].
        exfalso. apply Hget. rewrite Hidi.
        apply list_elem_of_fmap. by exists (k, v).
    + intros i [Hi| ->]%Hsplit; apply map_set_keys; [right; by apply Hkeys|by left].
Qed.

Lemma foldl_keepBest_inv l :
  Forall finiteDist l -> dedupeInv l (foldl keepBest [] l).
Proof.
  induction l as [|item l IH] using rev_ind; intros Hl.
  - split; [constructor|]. split; [by intros k v ?%elem_of_nil|].
    by intros i ?%elem_of_nil.
  - apply Forall_app in Hl as [Hl [Hitem _]%Forall_cons].
    rewrite foldl_app. cbn [foldl]. by apply keepBest_inv; [| |apply IH].
Qed.

Lemma keepBest_nonempty entries item : keepBest entries item <> [].
Proof.
  unfold keepBest. destruct (map_get (hit.personId item) entries) eqn:Hget.
  - destruct (JS.lt _ _); [apply map_set_nonempty|]. by destruct entries.
  - apply map_set_nonempty.
Qed.

Lemma foldl_keepBest_nonempty l entries :
  entries <> [] \/ l <> [] -> foldl keepBest entries l <> [].
Proof.
  revert entries. induction l as [|item l IH]; intros entries; simpl.
  - by intros [?|?].
  - intros _. apply IH. left. apply keepBest_nonempty.
Qed.

Lemma nonempty_dedupeByPerson l : nonempty (dedupeByPerson l) = nonempty l.
Proof.
  unfold nonempty, dedupeByPerson.
  rewrite (Permutation_length (js_sort_perm byDist _)).
  unfold map_values. rewrite length_map.
  destruct l as [|item l]; [done|].
  destruct (foldl keepBest [] (item :: l)) eqn:Hf; [|done].
  by apply foldl_keepBest_nonempty in Hf; [|right].
Qed.

(** [dedupeByPerson] on matches with finite distances: one entry per
    person, the closest of the person's items, in ascending order. *)
Lemma dedupeByPerson_spec l :
  Forall finiteDist l ->
  NoDup (map hit.personId (dedupeByPerson l))
  /\ StronglySorted closerOrEqual (dedupeByPerson l)
  /\ (forall e, e ∈ dedupeByPerson l ->
        e ∈ l /\ forall i, i ∈ l -> hit.personId i = hit.personId e ->
                           closerOrEqual e i)
  /\ (forall i, i ∈ l ->
        exists e, e ∈ dedupeByPerson l /\ hit.personId e = hit.personId i).
Proof.
  intros Hl. destruct (foldl_keepBest_inv l Hl) as (Hnd & Hent & Hkeys).
  unfold dedupeByPerson. set (entries := foldl keepBest [] l) in *.
  assert (map hit.personId (map_values entries) = map fst entries) as Hids.
  { unfold map_values. rewrite map_map. apply map_ext_in.
    intros [k v] Hin%list_elem_of_In. simpl. by destruct (Hent _ _ Hin) as (-> & _). }
  assert (forall e, e ∈ js_sort byDist (map_values entries) ->
                    (hit.personId e, e) ∈ entries) as Hback.
  { intros e He. rewrite js_sort_perm in He.
    apply list_elem_of_fmap in He as ([k v] & -> & Hin). simpl.
    by destruct (Hent _ _ Hin) as (<- & _). }
  split; [|split; [|split]].
  - rewrite (js_sort_perm byDist). by rewrite Hids.
  - apply js_sort_sorted. apply Forall_forall.
    intros e ([k v] & -> & Hin)%list_elem_of_fmap. simpl.
    destruct (Hent _ _ Hin) as (_ & Hv & _). by eapply Forall_forall.
  - intros e He%Hback. destruct (Hent _ _ He) as (_ & Hv & Hmin).
    split; [done|]. intros i Hi Hid. by apply Hmin.
  - intros i Hi. apply Hkeys in Hi.
    apply list_elem_of_fmap in Hi as ([k v] & Hk & Hin). simpl in Hk. subst k.
    exists v. split.
    + rewrite js_sort_perm. apply list_elem_of_fmap. by exists (hit.personId i, v).
    + by destruct (Hent _ _ Hin) as (-> & _).
Qed.

(** ** The matcher against the specification *)

Lemma candidates_finite q pool : Forall finiteCandidate (reportedCandidates q pool).
Proof.
  unfold reportedCandidates. induction pool as [|p pool IH]; simpl; [constructor|].
  destruct (samplesLength p =? 0); [done|].
  unfold reportedDistance.
  destruct (scanSamples_range q (default [] (person.samples p)))
    as [-> | (x & -> & _)]; [done|].
  constructor; [by exists x|done].
Qed.

(** The loop of [matchesForDescriptor] pushes, in the order of the
    pool, the candidates of the specification that pass each test. *)
Lemma pushed_pair band thr tier keep p d :
  pushed band thr tier keep (p, d)
  = if keep d
    then Some (hit.mk (person.id p) (person.name p) d
                      (distanceToConfidence band d thr) tier)
    else None.
Proof. reflexivity. Qed.

Lemma foldl_matchPerson band q thr pool hs ps :
  foldl (matchPerson band q thr) (hs, ps) pool
  = (hs ++ omap (pushed band thr flagged (fun d => JS.le d thr))
             (reportedCandidates q pool),
     ps ++ omap (pushed band thr possible
                   (fun d => negb (JS.le d thr)
                             && JS.le d (JS.add thr (Num band))))
             (reportedCandidates q pool)).
Proof.
  revert hs ps. induction pool as [|p pool IH]; intros hs ps.
  - simpl. by rewrite !app_nil_r.
  - cbn [foldl]. unfold matchPerson at 2. unfold reportedCandidates.
    cbn [omap list_omap]. fold (reportedCandidates q pool).
    unfold reportedDistance.
    destruct (samplesLength p =? 0) eqn:Hlen.
    + assert (default [] (person.samples p) = []) as ->.
      { apply Nat.eqb_eq in Hlen. unfold samplesLength in Hlen.
        destruct (person.samples p) as [[|]|]; simpl in *; done. }
      simpl. apply IH.
    + destruct (scanSamples_range q (default [] (person.samples p)))
        as [-> | (x & -> & _)]; [apply IH|].
      cbn [JS.isFinite negb omap list_omap]. rewrite !pushed_pair.
      destruct (JS.le (Num x) thr) eqn:Hle; cbn [negb andb].
      * rewrite IH. by rewrite <- app_assoc.
      * destruct (JS.le (Num x) (JS.add thr (Num band))) eqn:Hle2.
        -- rewrite IH. by rewrite <- app_assoc.
        -- apply IH.
Qed.

Lemma pushed_finite band thr tier keep cs :
  Forall finiteCandidate cs ->
  Forall finiteDist (omap (pushed band thr tier keep) cs).
Proof.
  induction 1 as [|c cs [x Hx] Hcs IH]; [constructor|].
  cbn [omap list_omap]. unfold pushed at 1.
  destruct (keep c.2); [|done].
  constructor; [|done]. unfold finiteDist. simpl. by rewrite Hx.
Qed.

Lemma closest_elem cs c : Spec.closest cs = Some c -> c ∈ cs.
Proof.
  revert c. induction cs as [|a cs IH]; intros c; simpl; [done|].
  destruct (Spec.closest cs) as [c'|].
  - destruct (JS.lt _ _); intros [= <-]; [right; by apply IH|left].
  - intros [= <-]. left.
Qed.

Lemma closest_None cs : Spec.closest cs = None -> cs = [].
Proof.
  destruct cs as [|a cs]; [done|]. simpl.
  destruct (Spec.closest cs); [by destruct (JS.lt _ _)|done].
Qed.

Lemma closest_least cs c :
  Forall finiteCandidate cs -> Spec.closest cs = Some c ->
  forall c', c' ∈ cs -> JS.le c.2 c'.2 = true.
Proof.
  intros Hfin. revert c. induction Hfin as [|a cs [x Hx] Hcs IH]; intros c; [done|].
  simpl. destruct (Spec.closest cs) as [c0|] eqn:Hc0.
  - assert (finiteCandidate c0) as [x0 Hx0].
    { eapply Forall_forall; [exact Hcs|]. by apply closest_elem. }
    rewrite Hx, Hx0.
    destruct (JS.lt (Num x0) (Num x)) eqn:Hlt; intros [= <-] c' Hc'.
    + apply lt_Num_true in Hlt.
      apply elem_of_cons in Hc' as [-> | Hc'].
      * rewrite Hx, Hx0. apply le_Num_true. lra.
      * by apply IH.
    + apply lt_Num_false in Hlt.
      apply elem_of_cons in Hc' as [-> | Hc'].
      * rewrite Hx. apply le_Num_true. lra.
      * pose proof (IH c0 eq_refl c' Hc') as Hle.
        assert (finiteCandidate c') as [x' Hx'].
        { eapply Forall_forall; [exact Hcs|done]. }
        rewrite Hx0, Hx' in Hle. apply le_Num_true in Hle.
        rewrite Hx, Hx'. apply le_Num_true. lra.
  - apply closest_None in Hc0 as ->. intros [= <-] c' Hc'.
    apply list_elem_of_singleton in Hc' as ->. rewrite Hx. apply le_Num_true. lra.
Qed.

(** Among the candidates that pass a test which every closer candidate
    passes as well, the closest is the closest of all. *)
Lemma firstMin_pushed band thr tier keep cs :
  Forall finiteCandidate cs ->
  (forall d d', keep d' = true -> JS.le d d' = true -> keep d = true) ->
  firstMin (omap (pushed band thr tier keep) cs)
  = Spec.closest cs ≫= pushed band thr tier keep.
Proof.
  intros Hfin Hdown. induction Hfin as [|c cs [x Hx] Hcs IH]; [done|].
  cbn [omap list_omap Spec.closest].
  destruct (Spec.closest cs) as [c'|] eqn:Hc'.
  - assert (finiteCandidate c') as [x' Hx'].
    { eapply Forall_forall; [exact Hcs|]. by apply closest_elem. }
    simpl in IH. unfold pushed at 1.
    destruct (keep c.2) eqn:Hk; cbn [firstMin]; rewrite IH.
    + unfold pushed at 1. destruct (keep c'.2) eqn:Hk'; simpl.
      * destruct (JS.lt c'.2 c.2); simpl; unfold pushed; by rewrite ?Hk, ?Hk'.
      * destruct (JS.lt c'.2 c.2) eqn:Hlt; simpl; unfold pushed; rewrite ?Hk; [|done].
        rewrite (Hdown c'.2 c.2 Hk) in Hk'; [done|by apply lt_le].
    + destruct (JS.lt c'.2 c.2) eqn:Hlt; simpl; [done|].
      unfold pushed. rewrite Hk.
      destruct (keep c'.2) eqn:Hk'; [|done].
      rewrite (Hdown c.2 c'.2 Hk') in Hk; [done|].
      rewrite Hx, Hx' in *. apply lt_Num_false in Hlt. by apply le_Num_true.
  - apply closest_None in Hc' as ->. simpl. unfold pushed.
    destruct (keep c.2); done.
Qed.

Lemma omap_ext_elem {A B} (f g : A -> option B) (l : list A) :
  (forall a, a ∈ l -> f a = g a) -> omap f l = omap g l.
Proof.
  induction l as [|a l IH]; intros Hfg; [done|].
  cbn [omap list_omap]. rewrite (Hfg a) by left.
  rewrite IH; [done|]. intros b Hb. apply Hfg. by right.
Qed.

Lemma le_down thr d d' :
  JS.le d' thr = true -> JS.le d d' = true -> JS.le d thr = true.
Proof. intros H1 H2. by eapply le_trans. Qed.

(** The match kept for a face is the closest candidate, classified. *)
Lemma faceResultFor_best (band thr : R) (people : list person.t)
  (scanSelection : selection) (desc : embedding) :
  faceResult.best (faceResultFor band people scanSelection (Num thr) desc)
  = reportedMatch (distanceToConfidence band) thr band desc
      (selectedPeople people scanSelection).
Proof.
  unfold faceResultFor, matchesForDescriptor, reportedMatch, Spec.matchAmong.
  rewrite foldl_matchPerson. cbn [app faceResult.best].
  set (cs := reportedCandidates desc (selectedPeople people scanSelection)).
  pose proof (candidates_finite desc (selectedPeople people scanSelection)) as Hfin.
  fold cs in Hfin.
  rewrite !head_js_sort by (by apply pushed_finite).
  rewrite firstMin_pushed by (done || apply le_down).
  destruct (Spec.closest cs) as [[p d]|] eqn:Hc; cbn [mbind option_bind].
  - assert (finiteCandidate (p, d)) as [x Hx].
    { eapply Forall_forall; [exact Hfin|]. by apply closest_elem. }
    simpl in Hx. subst d. rewrite pushed_pair. unfold Spec.classify.
    destruct (JS.le (Num x) (Num thr)) eqn:Hle; [done|].
    apply le_Num_false in Hle.
    rewrite (omap_ext_elem _
               (pushed band (Num thr) possible
                  (fun d => JS.le d (Num (thr + band))))).
    + rewrite firstMin_pushed by (done || apply le_down).
      rewrite Hc. cbn [mbind option_bind]. rewrite pushed_pair.
      replace (JS.lt (Num thr) (Num x)) with true
        by (symmetry; by apply lt_Num_true).
      cbn [andb]. by destruct (JS.le (Num x) (Num (thr + band))).
    + intros [p' d'] Hin.
      assert (finiteCandidate (p', d')) as [x' Hx'].
      { eapply Forall_forall; [exact Hfin|done]. }
      simpl in Hx'. subst d'.
      pose proof (closest_least cs _ Hfin Hc _ Hin) as Hleast.
      simpl in Hleast. apply le_Num_true in Hleast.
      rewrite !pushed_pair.
      replace (JS.le (Num x') (Num thr)) with false
        by (symmetry; apply le_Num_false; lra).
      done.
  - apply closest_None in Hc. rewrite Hc. done.
Qed.

(** ** The closest-match variant against the specification *)

Lemma foldl_bestStep desc thr pool best :
  foldl (ClosestMatch.bestStep desc thr) best pool
  = foldl (closerCandidate thr) best (reportedCandidates desc pool).
Proof.
  revert best. induction pool as [|p pool IH]; intros best; [done|].
  cbn [foldl]. unfold reportedCandidates. cbn [omap list_omap].
  fold (reportedCandidates desc pool). unfold ClosestMatch.bestStep at 2.
  unfold reportedDistance.
  destruct (samplesLength p =? 0); [apply IH|].
  destruct (scanSamples_range desc (default [] (person.samples p)))
    as [-> | (x & -> & _)]; [apply IH|].
  cbn [JS.isFinite negb foldl]. rewrite IH. done.
Qed.

Lemma closerCandidate_finite thr best c :
  finiteCandidate c -> finiteBest best -> finiteBest (closerCandidate thr best c).
Proof.
  intros [x Hx] Hbest b. unfold closerCandidate.
  destruct best as [b0|].
  - destruct (JS.lt _ _); intros [= <-]; [by exists x|by apply Hbest].
  - intros [= <-]. by exists x.
Qed.

Lemma foldl_closerCandidate thr cs best :
  Forall finiteCandidate cs -> finiteBest best ->
  foldl (closerCandidate thr) best cs
  = match Spec.closest cs with
    | Some c => closerCandidate thr best c
    | None => best
    end.
Proof.
  intros Hcs. revert best.
  induction Hcs as [|c cs Hc Hcs IH]; intros best Hbest; [done|].
  cbn [foldl Spec.closest]. rewrite IH by (by apply closerCandidate_finite).
  destruct (Spec.closest cs) as [c'|] eqn:Hc'; [|done].
  assert (finiteCandidate c') as [x' Hx'].
  { eapply Forall_forall; [exact Hcs|]. by apply closest_elem. }
  destruct Hc as [x Hx]. unfold closerCandidate. rewrite Hx, Hx'.
  destruct best as [b|]; cbn [ClosestMatch.bestMatch.dist].
  - destruct (Hbest b eq_refl) as [y Hy]. rewrite Hy.
    repeat first
      [ progress cases_lt
      | progress (cbn [ClosestMatch.bestMatch.dist]; rewrite ?Hx, ?Hx', ?Hy) ];
      try done; lra.
  - by destruct (JS.lt (Num x') (Num x)); rewrite ?Hx, ?Hx'.
Qed.

(** The closest-match variant returns the match of the specification
    with an empty band, without its tier: the closest candidate when
    its distance is at most the threshold. *)
Lemma bestMatchForDescriptor_closest (thr : R) (people : list person.t)
  (scanSelection : selection) (desc : embedding) :
  ClosestMatch.bestMatchForDescriptor people scanSelection desc (Num thr)
  = toBestMatch
      <$> reportedMatch ClosestMatch.distanceToConfidence thr 0 desc
            (selectedPeople people scanSelection).
Proof.
  unfold ClosestMatch.bestMatchForDescriptor, reportedMatch, Spec.matchAmong.
  rewrite foldl_bestStep.
  pose proof (candidates_finite desc (selectedPeople people scanSelection)) as Hfin.
  rewrite foldl_closerCandidate by done.
  destruct (Spec.closest _) as [[p d]|] eqn:Hc; [|done].
  assert (finiteCandidate (p, d)) as [x Hx].
  { eapply Forall_forall; [exact Hfin|]. by apply closest_elem. }
  simpl in Hx. subst d. unfold closerCandidate, Spec.classify, JS.gt.
  cbn [ClosestMatch.bestMatch.dist fst snd].
  destruct (JS.lt (Num thr) (Num x)) eqn:H1;
    destruct (JS.le (Num x) (Num thr)) eqn:H2;
    destruct (JS.le (Num x) (Num (thr + 0))) eqn:H3;
    try done; orderR; lra.
Qed.

(** ** The face results of the matcher *)

Lemma pushed_level band thr tier keep cs :
  Forall finiteCandidate cs ->
  Forall (fun h => hit.level h = tier /\ finiteDist h)
         (omap (pushed band thr tier keep) cs).
Proof.
  induction 1 as [|[p d] cs [x Hx] Hcs IH]; [constructor|].
  cbn [omap list_omap]. rewrite pushed_pair.
  destruct (keep d); [|done].
  constructor; [|done]. split; [done|]. unfold finiteDist. simpl in *. by subst d.
Qed.

Lemma faceResultFor_wf band people scanSelection thr desc :
  wellFormedFace (faceResultFor band people scanSelection thr desc).
Proof.
  unfold faceResultFor, matchesForDescriptor.
  rewrite foldl_matchPerson. cbn [app].
  pose proof (candidates_finite desc (selectedPeople people scanSelection)) as Hfin.
  unfold wellFormedFace. cbn [faceResult.hits faceResult.possibles faceResult.best].
  split; [|split; [|done]].
  - rewrite js_sort_perm. by apply pushed_level.
  - rewrite js_sort_perm. by apply pushed_level.
Qed.

Lemma faceResultsOf_wf band people scanSelection thr trimmed :
  Forall wellFormedFace (faceResultsOf band people scanSelection thr trimmed).
Proof.
  unfold faceResultsOf. apply Forall_forall.
  intros fr (d & -> & _)%list_elem_of_fmap. apply faceResultFor_wf.
Qed.

(** ** The image verdict *)

Lemma nonempty_app {A} (l1 l2 : list A) :
  nonempty (l1 ++ l2) = nonempty l1 || nonempty l2.
Proof. destruct l1; [by destruct l2|done]. Qed.

Lemma nonempty_false {A} (l : list A) : nonempty l = false -> l = [].
Proof. by destruct l. Qed.

Lemma foldl_collectFace frs hs ps :
  foldl collectFace (hs, ps) frs
  = (hs ++ concat (map faceResult.hits frs),
     ps ++ concat (map (fun fr => if nonempty (faceResult.hits fr) then []
                                  else faceResult.possibles fr) frs)).
Proof.
  revert hs ps. induction frs as [|fr frs IH]; intros hs ps.
  - simpl. by rewrite !app_nil_r.
  - cbn [foldl map concat]. unfold collectFace at 2. fold (nonempty (faceResult.hits fr)).
    fold (nonempty (faceResult.possibles fr)).
    destruct (nonempty (faceResult.hits fr)) eqn:Hh.
    + rewrite IH. by rewrite <- app_assoc.
    + apply nonempty_false in Hh. rewrite Hh.
      destruct (nonempty (faceResult.possibles fr)) eqn:Hp.
      * rewrite IH. by rewrite <- app_assoc.
      * apply nonempty_false in Hp. rewrite Hp. apply IH.
Qed.

Lemma imageMatches_concat frs :
  imageMatches frs
  = (concat (map faceResult.hits frs),
     concat (map (fun fr => if nonempty (faceResult.hits fr) then []
                            else faceResult.possibles fr) frs)).
Proof. unfold imageMatches. by rewrite foldl_collectFace. Qed.

Lemma nonempty_concat {A B} (f : A -> list B) (l : list A) :
  nonempty (concat (map f l)) = existsb (fun a => nonempty (f a)) l.
Proof.
  induction l as [|a l IH]; [done|].
  cbn [map concat existsb]. by rewrite nonempty_app, IH.
Qed.

Lemma existsb_over_map {A B} (f : B -> bool) (g : A -> B) (l : list A) :
  existsb f (map g l) = existsb (fun a => f (g a)) l.
Proof. induction l as [|a l IH]; [done|]. simpl. by rewrite IH. Qed.

Lemma existsb_ext_Forall {A} (f g : A -> bool) (l : list A) :
  Forall (fun a => f a = g a) l -> existsb f l = existsb g l.
Proof. induction 1 as [|a l Ha _ IH]; [done|]. simpl. by rewrite Ha, IH. Qed.

Lemma wellFormedFace_flagged fr :
  wellFormedFace fr ->
  bool_decide (Spec.tierOf (faceResult.best fr) = flagged)
  = nonempty (faceResult.hits fr).
Proof.
  intros (Hh & Hp & ->).
  destruct (faceResult.hits fr) as [|h hs]; simpl.
  - destruct (faceResult.possibles fr) as [|h ps]; simpl; [done|].
    apply Forall_cons in Hp as [[-> _] _]. done.
  - apply Forall_cons in Hh as [[-> _] _]. done.
Qed.

Lemma wellFormedFace_possible fr :
  wellFormedFace fr ->
  bool_decide (Spec.tierOf (faceResult.best fr) = possible)
  = nonempty (if nonempty (faceResult.hits fr) then []
              else faceResult.possibles fr).
Proof.
  intros (Hh & Hp & ->).
  destruct (faceResult.hits fr) as [|h hs]; simpl.
  - destruct (faceResult.possibles fr) as [|h ps]; simpl; [done|].
    apply Forall_cons in Hp as [[-> _] _]. done.
  - apply Forall_cons in Hh as [[-> _] _]. done.
Qed.

(** The status of an image is the most severe tier among the matches
    of its faces. *)
Lemma imageVerdict_status n frs :
  Forall wellFormedFace frs ->
  verdict.status (imageVerdict n frs) = Spec.imageTier (map faceResult.best frs).
Proof.
  intros Hwf. unfold imageVerdict, Spec.imageTier.
  rewrite imageMatches_concat. cbn [verdict.status].
  fold (nonempty (dedupeByPerson (concat (map faceResult.hits frs)))).
  fold (nonempty (dedupeByPerson
    (concat (map (fun fr => if nonempty (faceResult.hits fr) then []
                            else faceResult.possibles fr) frs)))).
  rewrite !nonempty_dedupeByPerson, !nonempty_concat, !existsb_over_map.
  rewrite (existsb_ext_Forall
             (fun fr => bool_decide (Spec.tierOf (faceResult.best fr) = flagged))
             (fun fr => nonempty (faceResult.hits fr)))
    by (eapply Forall_impl; [exact Hwf|apply wellFormedFace_flagged]).
  rewrite (existsb_ext_Forall
             (fun fr => bool_decide (Spec.tierOf (faceResult.best fr) = possible))
             (fun fr => nonempty (if nonempty (faceResult.hits fr) then []
                                  else faceResult.possibles fr)))
    by (eapply Forall_impl; [exact Hwf|apply wellFormedFace_possible]).
  done.
Qed.

(** ** C4 *)

(** C4: the status of an image is FLAGGED if the match of one of its
    faces is FLAGGED, else POSSIBLE if the match of one of its faces is
    POSSIBLE, else CLEAR; the face count is the number of faces
    processed; an image without a face is CLEAR, with a face count of 0
    and no matched identity. *)
Theorem image_status_most_severe (band : R) (people : list person.t)
  (scanSelection : selection) (thr : number) (detections : list det.t) :
  verdict.status (scanDetections band people scanSelection thr detections)
  = Spec.imageTier
      (map faceResult.best
           (faceResultsOf band people scanSelection thr
              (take MAX_FACES_PER_IMAGE detections)))
  /\ verdict.faceCount (scanDetections band people scanSelection thr detections)
     = length (take MAX_FACES_PER_IMAGE detections)
  /\ scanDetections band people scanSelection thr []
     = verdict.mk clear [] 0.
Proof.
  split; [|split].
  - unfold scanDetections. apply imageVerdict_status, faceResultsOf_wf.
  - unfold scanDetections, imageVerdict. by destruct (imageMatches _).
  - reflexivity.
Qed.

(** ** C5 *)

Lemma wellFormed_matches_finite tier frs :
  Forall wellFormedFace frs -> Forall finiteDist (matchesAt tier frs).
Proof.
  intros Hwf. unfold matchesAt. rewrite imageMatches_concat. cbn [fst snd].
  destruct tier; [constructor| |].
  - apply Forall_concat, Forall_fmap. eapply Forall_impl; [exact Hwf|].
    intros fr (_ & Hp & _). simpl. destruct (nonempty _); [constructor|].
    eapply Forall_impl; [exact Hp|]. by intros h [_ ?].
  - apply Forall_concat, Forall_fmap. eapply Forall_impl; [exact Hwf|].
    intros fr (Hh & _). simpl. eapply Forall_impl; [exact Hh|]. by intros h [_ ?].
Qed.

Lemma imageVerdict_label n frs :
  verdict.listForLabel (imageVerdict n frs)
  = dedupeByPerson (matchesAt (verdict.status (imageVerdict n frs)) frs).
Proof.
  unfold imageVerdict, matchesAt.
  destruct (imageMatches frs) as [imageHits imagePossibles].
  cbn [verdict.status verdict.listForLabel fst snd].
  destruct (negb (length (dedupeByPerson imageHits) =? 0)); [done|].
  destruct (negb (length (dedupeByPerson imagePossibles) =? 0)); done.
Qed.

(** ** C9 *)

Lemma classify_mono (thr1 thr2 band x : R) :
  (thr1 <= thr2)%R ->
  Spec.severity (default clear (Spec.classify thr1 band (Num x)))
  <= Spec.severity (default clear (Spec.classify thr2 band (Num x))).
Proof.
  intros Hthr. unfold Spec.classify.
  destruct (JS.le (Num x) (Num thr1)) eqn:H1;
    destruct (JS.le (Num x) (Num thr2)) eqn:H2;
    destruct (JS.lt (Num thr1) (Num x)) eqn:H3;
    destruct (JS.lt (Num thr2) (Num x)) eqn:H4;
    destruct (JS.le (Num x) (Num (thr1 + band))) eqn:H5;
    destruct (JS.le (Num x) (Num (thr2 + band))) eqn:H6;
    simpl; try lia; orderR; lra.
Qed.

Lemma tierOf_matchObservation conf thr band desc pool :
  Spec.tierOf (reportedMatch conf thr band desc pool)
  = match Spec.closest (reportedCandidates desc pool) with
    | Some (p, d) => default clear (Spec.classify thr band d)
    | None => clear
    end.
Proof.
  unfold reportedMatch, Spec.matchAmong.
  destruct (Spec.closest _) as [[p d]|]; [|done].
  by destruct (Spec.classify thr band d).
Qed.

Lemma face_tier_mono (band thr1 thr2 : R) people scanSelection desc :
  (thr1 <= thr2)%R ->
  Spec.severity (Spec.tierOf (faceResult.best
    (faceResultFor band people scanSelection (Num thr1) desc)))
  <= Spec.severity (Spec.tierOf (faceResult.best
    (faceResultFor band people scanSelection (Num thr2) desc))).
Proof.
  intros Hthr. rewrite !faceResultFor_best, !tierOf_matchObservation.
  destruct (Spec.closest _) as [[p d]|] eqn:Hc; [|done].
  assert (finiteCandidate (p, d)) as [x Hx].
  { eapply Forall_forall; [apply candidates_finite|]. by apply closest_elem. }
  simpl in Hx. subst d. by apply classify_mono.
Qed.

Lemma severity_imageTier ms :
  Spec.severity (Spec.imageTier ms)
  = foldr (fun m acc => Nat.max (Spec.severity (Spec.tierOf m)) acc) 0 ms.
Proof.
  induction ms as [|m ms IH]; [done|].
  cbn [foldr]. rewrite <- IH. clear IH. unfold Spec.imageTier. cbn [existsb].
  destruct (Spec.tierOf m);
    destruct (existsb (fun m => bool_decide (Spec.tierOf m = flagged)) ms);
    destruct (existsb (fun m => bool_decide (Spec.tierOf m = possible)) ms);
    reflexivity.
Qed.

Lemma imageTier_mono {A} (f g : A -> option hit.t) (l : list A) :
  (forall a, Spec.severity (Spec.tierOf (f a)) <= Spec.severity (Spec.tierOf (g a))) ->
  Spec.severity (Spec.imageTier (map f l)) <= Spec.severity (Spec.imageTier (map g l)).
Proof.
  intros Hfg. rewrite !severity_imageTier.
  induction l as [|a l IH]; [done|]. cbn [map foldr].
  specialize (Hfg a). lia.
Qed.

(** C9: with the band fixed, a higher threshold never lowers the
    severity of a classification (CLEAR, then POSSIBLE, then FLAGGED):
    this holds for the match of every face and for the status of every
    image. *)
Theorem raising_threshold_monotone (band thr1 thr2 : R)
  (people : list person.t) (scanSelection : selection) :
  (thr1 <= thr2)%R ->
  (forall desc,
     Spec.severity (Spec.tierOf (faceResult.best
       (faceResultFor band people scanSelection (Num thr1) desc)))
     <= Spec.severity (Spec.tierOf (faceResult.best
       (faceResultFor band people scanSelection (Num thr2) desc))))
  /\ (forall detections,
        Spec.severity (verdict.status
          (scanDetections band people scanSelection (Num thr1) detections))
        <= Spec.severity (verdict.status
          (scanDetections band people scanSelection (Num thr2) detections))).
Proof.
  intros Hthr. split.
  - intros desc. by apply face_tier_mono.
  - intros detections. unfold scanDetections.
    rewrite !imageVerdict_status by apply faceResultsOf_wf.
    unfold faceResultsOf. rewrite !map_map.
    apply imageTier_mono. intros desc. by apply face_tier_mono.
Qed.

Lemma raising_threshold_monotone_witness :
  Spec.severity (Spec.tierOf (faceResult.best
    (faceResultFor 0.10 [alice] ∅ (Num 0.5) query0)))
  <= Spec.severity (Spec.tierOf (faceResult.best
    (faceResultFor 0.10 [alice] ∅ (Num 0.6) query0))).
Proof.
  apply (raising_threshold_monotone 0.10 0.5 0.6 [alice] ∅); lra.
Defined.

(** ** The tier at the usual thresholds

    With a threshold at or above the cutoff of the early exit, the tier
    of a face is the one the true minimum distances give. *)

Lemma minDistance_range q ss :
  Spec.minDistance q ss = PosInfinity
  \/ exists x, Spec.minDistance q ss = Num x /\ (0 <= x)%R.
Proof.
  rewrite minDistance_foldl.
  assert (forall best l,
    (best = PosInfinity \/ exists x, best = Num x /\ (0 <= x)%R) ->
    (foldl (keepCloser q) best l = PosInfinity
     \/ exists x, foldl (keepCloser q) best l = Num x /\ (0 <= x)%R)) as Hgen.
  { intros best l. revert best. induction l as [|s l IH]; intros best Hb; [done|].
    simpl. apply IH. unfold keepCloser.
    destruct (JS.lt (dist q s) best) eqn:Hlt; [|done].
    destruct (dist_range q s) as [Hd | [Hd | Hd]]; rewrite ?Hd in *; auto.
    by destruct best. }
  apply Hgen. by left.
Qed.

Lemma minimum_candidates_finite q pool : Forall finiteCandidate (Spec.candidates q pool).
Proof.
  unfold Spec.candidates, Spec.bestDistanceToIdentity. induction pool as [|p pool IH]; simpl; [constructor|].
  destruct (samplesLength p =? 0); [done|].
  destruct (minDistance_range q (default [] (person.samples p)))
    as [-> | (x & -> & _)]; [done|].
  constructor; [by exists x|done].
Qed.

Lemma existsb_false {A} (f : A -> bool) (l : list A) :
  (forall a, a ∈ l -> f a = false) -> existsb f l = false.
Proof.
  induction l as [|a l IH]; intros Hf; [done|]. simpl.
  rewrite (Hf a) by left. apply IH. intros b Hb. apply Hf. by right.
Qed.

Lemma existsb_true {A} (f : A -> bool) (l : list A) (a : A) :
  a ∈ l -> f a = true -> existsb f l = true.
Proof.
  induction 1 as [a l|a b l _ IH]; intros Hf; simpl.
  - by rewrite Hf.
  - rewrite IH by done. apply orb_true_r.
Qed.

Lemma tierAmong_existsb thr band cs :
  Forall finiteCandidate cs ->
  tierAmong thr band cs
  = if existsb (fun c => JS.le c.2 (Num thr)) cs then flagged
    else if existsb (fun c => JS.le c.2 (Num (thr + band))) cs then possible
    else clear.
Proof.
  intros Hfin. unfold tierAmong.
  destruct (Spec.closest cs) as [[p d]|] eqn:Hc.
  - pose proof (closest_elem _ _ Hc) as Hin.
    assert (finiteCandidate (p, d)) as [x Hx] by (by eapply Forall_forall).
    simpl in Hx. subst d.
    assert (forall t c', c' ∈ cs -> JS.le (Num x) (Num t) = false ->
                         JS.le c'.2 (Num t) = false) as Hfar.
    { intros t c' Hc' Hle.
      pose proof (closest_least cs _ Hfin Hc c' Hc') as Hleast.
      assert (finiteCandidate c') as [x' Hx'] by (by eapply Forall_forall).
      cbn [snd] in Hleast. rewrite Hx' in *. orderR. apply le_Num_false. lra. }
    unfold Spec.classify.
    destruct (JS.le (Num x) (Num thr)) eqn:H1.
    + by rewrite (existsb_true _ cs (p, Num x)).
    + rewrite existsb_false by (intros c' Hc'; by apply Hfar).
      replace (JS.lt (Num thr) (Num x)) with true
        by (symmetry; orderR; by apply lt_Num_true).
      cbn [andb].
      destruct (JS.le (Num x) (Num (thr + band))) eqn:H2.
      * by rewrite (existsb_true _ cs (p, Num x)).
      * by rewrite existsb_false by (intros c' Hc'; by apply Hfar).
  - by apply closest_None in Hc as ->.
Qed.

Lemma candidates_within q pool (t : R) :
  (EARLY_EXIT <= t)%R ->
  existsb (fun c => JS.le c.2 (Num t)) (reportedCandidates q pool)
  = existsb (fun c => JS.le c.2 (Num t)) (Spec.candidates q pool).
Proof.
  intros Ht. unfold reportedCandidates, Spec.candidates, reportedDistance,
    Spec.bestDistanceToIdentity.
  induction pool as [|p pool IH]; [done|]. cbn [omap list_omap].
  destruct (samplesLength p =? 0); [done|].
  set (ss := default [] (person.samples p)).
  destruct (JS.lt (Spec.minDistance q ss) (Num EARLY_EXIT)) eqn:Hmin.
  - pose proof (scanSamples_exit q ss Hmin) as Hrep.
    destruct (minDistance_range q ss) as [Hm | (y & Hm & _)];
      rewrite Hm in *; [done|].
    destruct (scanSamples_range q ss) as [Hr | (x & Hr & _)];
      rewrite Hr in *; [done|].
    orderR. cbn [existsb snd].
    replace (JS.le (Num x) (Num t)) with true
      by (symmetry; apply le_Num_true; lra).
    replace (JS.le (Num y) (Num t)) with true
      by (symmetry; apply le_Num_true; lra).
    done.
  - rewrite (scanSamples_no_exit q ss PosInfinity) by (by left || done).
    rewrite <- minDistance_foldl.
    destruct (Spec.minDistance q ss); cbn [existsb]; by rewrite IH.
Qed.

(** For a threshold at or above the cutoff and a band that is not
    negative, classifying the closest identity by the distances the
    scan reports gives the tier that the true minimum distances give. *)
Lemma tier_by_true_minimum (thr band : R) (q : embedding) (pool : list person.t) :
  (EARLY_EXIT <= thr)%R -> (0 <= band)%R ->
  tierAmong thr band (reportedCandidates q pool)
  = tierAmong thr band (Spec.candidates q pool).
Proof.
  intros Hthr Hband.
  rewrite !tierAmong_existsb by (apply candidates_finite || apply minimum_candidates_finite).
  by rewrite !candidates_within by lra.
Qed.

Lemma face_tier_by_true_minimum (band thr : R) (people : list person.t)
  (scanSelection : selection) (desc : embedding) :
  (EARLY_EXIT <= thr)%R -> (0 <= band)%R ->
  Spec.tierOf (faceResult.best
    (faceResultFor band people scanSelection (Num thr) desc))
  = tierAmong thr band (Spec.candidates desc (selectedPeople people scanSelection)).
Proof.
  intros Hthr Hband.
  rewrite faceResultFor_best, tierOf_matchObservation.
  by apply tier_by_true_minimum.
Qed.

(** ** C1: the match of a face and the closest identity *)

Lemma selectedPeople_active people sel :
  selectedPeople people sel = Spec.activeIdentities people sel.
Proof. reflexivity. Qed.

Lemma tierOf_matchAmong conf thr band cs :
  Spec.tierOf (Spec.matchAmong conf thr band cs) = tierAmong thr band cs.
Proof.
  unfold Spec.matchAmong, tierAmong.
  destruct (Spec.closest cs) as [[p d]|]; [|done].
  by destruct (Spec.classify thr band d).
Qed.

Lemma is_Some_matchAmong conf thr band cs :
  is_Some (Spec.matchAmong conf thr band cs) <-> tierAmong thr band cs <> clear.
Proof.
  unfold Spec.matchAmong, tierAmong.
  destruct (Spec.closest cs) as [[p d]|].
  - unfold Spec.classify.
    destruct (JS.le d (Num thr)); [by split; [|eexists]|].
    destruct (JS.lt (Num thr) d && JS.le d (Num (thr + band)));
      [by split; [|eexists]|].
    split; [by intros [? [=]]|done].
  - split; [by intros [? [=]]|done].
Qed.

(** Without a sample below the cutoff the scan reports the minimum. *)
Lemma scanSamples_all_far q ss best :
  aboveCutoff best ->
  Forall (fun s => JS.lt (dist q s) (Num EARLY_EXIT) = false) ss ->
  scanSamples q ss best = foldl (keepCloser q) best ss.
Proof.
  intros Hb Hfar. revert best Hb.
  induction Hfar as [|s ss Hs _ IH]; intros best Hb; [done|].
  cbn [scanSamples foldl]. fold (keepCloser q best s).
  assert (JS.lt (keepCloser q best s) (Num EARLY_EXIT) = false) as Hk
    by (by rewrite keepCloser_below).
  rewrite Hk. apply IH. by apply keepCloser_above.
Qed.

Lemma reportedCandidates_all_far q pool :
  Forall (fun s => JS.lt (dist q s) (Num EARLY_EXIT) = false) (allSamples pool) ->
  reportedCandidates q pool = Spec.candidates q pool.
Proof.
  unfold reportedCandidates, Spec.candidates, reportedDistance,
    Spec.bestDistanceToIdentity, allSamples.
  induction pool as [|p pool IH]; [done|].
  cbn [map concat]. intros [Hp Hpool]%Forall_app.
  cbn [omap list_omap]. rewrite IH by done.
  rewrite (scanSamples_all_far q _ PosInfinity) by (by left || done).
  by rewrite <- minDistance_foldl.
Qed.



Lemma dora_reported : reportedCandidates query0 [dora] = [(dora, Num 0.1875)].
Proof.
  unfold reportedCandidates, reportedDistance, dora.
  cbn [omap list_omap samplesLength person.samples length twoSamples Nat.eqb
       default from_option].
  unfold Datatypes.id. fold twoSamples. by rewrite twoSamples_reported.
Qed.

Lemma dora_minimum : Spec.candidates query0 [dora] = [(dora, Num 0.0625)].
Proof.
  unfold Spec.candidates, Spec.bestDistanceToIdentity, dora.
  cbn [omap list_omap samplesLength person.samples length twoSamples Nat.eqb
       default from_option].
  unfold Datatypes.id. fold twoSamples. by rewrite twoSamples_minDistance.
Qed.


(** ** C8: the precondition of a scan *)

Lemma totalSamples_pool_fold (pool : list person.t) :
  foldl (fun s p => s + samplesLength p) 0 pool = totalSamples pool.
Proof. reflexivity. Qed.

(** C8: when no profile is selected, or the selected profiles have no
    sample at all, a click on the scan button produces no result row:
    with the models loaded and files chosen it only sets the status to
    the message asking to select people and enroll samples, whatever
    the detector would have returned, which no scan that produces rows,
    CLEAR ones included, does. *)
Theorem scan_refused_without_samples {Image : Type} `{Detector Image} (band : R)
  (modelsReady : bool) (files : list Image) (people : list person.t)
  (scanSelection : selection) (thr : number) :
  selectedPeople people scanSelection = []
  \/ totalSamples (selectedPeople people scanSelection) = 0 ->
  rowsOf (btnScan_click band modelsReady files people scanSelection thr) = []
  /\ (forall rows,
        btnScan_click band modelsReady files people scanSelection thr
        <> Scanned rows)
  /\ (modelsReady = true -> files <> [] ->
      btnScan_click band modelsReady files people scanSelection thr
      = StatusOnly "No selected people with samples. Check filters and enroll samples first.").
Proof.
  intros Hpool. unfold btnScan_click. rewrite totalSamples_pool_fold.
  assert ((length (selectedPeople people scanSelection) =? 0)
          || (totalSamples (selectedPeople people scanSelection) =? 0) = true)
    as ->.
  { destruct Hpool as [-> | ->]; [done|]. apply orb_true_r. }
  destruct modelsReady; cbn [negb].
  - destruct files as [|f files]; cbn [length Nat.eqb]; repeat split; done.
  - repeat split; done.
Qed.

Lemma scan_refused_without_samples_witness :
  rowsOf (btnScan_click 0.10 true [[]] [bob] ∅ (Num 0.6)) = []
  /\ (forall rows, btnScan_click 0.10 true [[]] [bob] ∅ (Num 0.6) <> Scanned rows)
  /\ (true = true -> [[]] <> ([] : list (list det.t)) ->
      btnScan_click 0.10 true [[]] [bob] ∅ (Num 0.6)
      = StatusOnly "No selected people with samples. Check filters and enroll samples first.").
Proof.
  apply (scan_refused_without_samples 0.10 true [[]] [bob] ∅ (Num 0.6)).
  right. reflexivity.
Defined.

(** With a selected profile that has a sample, the same click scans
    every file. *)
Lemma scan_runs_with_samples {Image : Type} `{Detector Image} (band : R)
  (files : list Image) (people : list person.t) (scanSelection : selection)
  (thr : number) :
  files <> [] ->
  totalSamples (selectedPeople people scanSelection) <> 0 ->
  btnScan_click band true files people scanSelection thr
  = Scanned (map (scanImage band people scanSelection thr) files).
Proof.
  intros Hfiles Hsamples. unfold btnScan_click. rewrite totalSamples_pool_fold.
  cbn [negb]. destruct files as [|f files]; [done|]. cbn [length Nat.eqb].
  destruct (selectedPeople people scanSelection) as [|p pool] eqn:Hpool; [done|].
  cbn [length Nat.eqb orb].
  by apply Nat.eqb_neq in Hsamples as ->.
Qed.

(** ** The scenarios of the design document *)

Lemma scan_one (q s : R) :
  scanSamples [Num q] [[Num s]] PosInfinity = Num (Rabs (q - s)).
Proof.
  cbn [scanSamples]. rewrite dist_singleton.
  change (JS.lt (Num (Rabs (q - s))) PosInfinity) with true. cbn iota.
  by destruct (JS.lt (Num (Rabs (q - s))) (Num EARLY_EXIT)).
Qed.

Lemma alice_match (thr band q : R) :
  (0 <= q)%R ->
  faceResult.best (faceResultFor band [alice] ∅ (Num thr) [Num q])
  = match Spec.classify thr band (Num q) with
    | Some tier =>
        Some (hit.mk (IdString "a1") "Alice" (Num q)
                     (distanceToConfidence band (Num q) (Num thr)) tier)
    | None => None
    end.
Proof.
  intros Hq. rewrite faceResultFor_best. unfold reportedMatch, Spec.matchAmong.
  assert (selectedPeople [alice] ∅ = [alice]) as -> by reflexivity.
  unfold reportedCandidates, alice.
  cbn [omap list_omap samplesLength person.samples length Nat.eqb].
  unfold reportedDistance. cbn [person.samples default from_option].
  unfold Datatypes.id. rewrite scan_one.
  replace (Rabs (q - 0)) with q by (rewrite Rabs_pos_eq; lra).
  reflexivity.
Qed.

(** Threshold 0.55, band 0.10, one identity with one sample: a face at
    distance 0.50 is FLAGGED, one at 0.60 is POSSIBLE, one at 0.80 has
    no match. *)
Example alice_flagged :
  Spec.tierOf (faceResult.best (faceResultFor 0.10 [alice] ∅ (Num 0.55) [Num 0.5]))
  = flagged.
Proof.
  rewrite alice_match by lra. unfold Spec.classify. cases_lt; try lra. done.
Qed.

Example alice_possible :
  Spec.tierOf (faceResult.best (faceResultFor 0.10 [alice] ∅ (Num 0.55) [Num 0.6]))
  = possible.
Proof.
  rewrite alice_match by lra. unfold Spec.classify. cases_lt; try lra. done.
Qed.

Example alice_clear :
  faceResult.best (faceResultFor 0.10 [alice] ∅ (Num 0.55) [Num 0.8]) = None.
Proof.
  rewrite alice_match by lra. unfold Spec.classify. cases_lt; try lra. done.
Qed.

Lemma matches_alice (band thr q : R) :
  (0 <= q <= thr)%R ->
  matchesForDescriptor band [alice] ∅ [Num q] (Num thr)
  = ([hit.mk (IdString "a1") "Alice" (Num q)
             (distanceToConfidence band (Num q) (Num thr)) flagged], []).
Proof.
  intros Hq. unfold matchesForDescriptor.
  assert (selectedPeople [alice] ∅ = [alice]) as -> by reflexivity.
  cbn [foldl]. unfold matchPerson, alice.
  cbn [person.samples default from_option person.id person.name].
  unfold Datatypes.id. rewrite scan_one.
  replace (Rabs (q - 0)) with q by (rewrite Rabs_pos_eq; lra).
  cbn [JS.isFinite negb]. cases_lt; try lra. reflexivity.
Qed.

(** Two faces of one image match the same identity at distances 0.3 and
    0.5, threshold 0.6: the verdict has one entry, with distance 0.3. *)
Example dedup_scenario :
  scanDetections 0.10 [alice] ∅ (Num 0.6) [faceAt [Num 0.3]; faceAt [Num 0.5]]
  = verdict.mk flagged
      [hit.mk (IdString "a1") "Alice" (Num 0.3)
              (distanceToConfidence 0.10 (Num 0.3) (Num 0.6)) flagged]
      2.
Proof.
  unfold scanDetections, faceResultsOf, faceResultFor.
  cbn [take MAX_FACES_PER_IMAGE map length faceAt det.descriptor].
  rewrite !matches_alice by lra. cbn [head].
  unfold imageVerdict, imageMatches.
  cbn [foldl collectFace faceResult.hits faceResult.possibles length Nat.eqb negb app].
  unfold dedupeByPerson. cbn [foldl]. unfold keepBest at 2.
  cbn [map_get hit.personId map_set].
  unfold keepBest. cbn [map_get hit.personId map_set hit.dist].
  rewrite !decide_True by done. cbn [hit.dist]. cases_lt; try lra.
  reflexivity.
Qed.

(** ** The examples on binary64 floats

    The inputs of the examples of the early exit and of the length
    mismatch give the same results in binary64 arithmetic. *)

Example binary64_early_exit :
  Binary64.scanSamples [0%float] [[0.1875%float]; [0.0625%float]]
    PrimFloat.infinity = 0.1875%float
  /\ Binary64.minDistance [0%float] [[0.1875%float]; [0.0625%float]]
     = 0.0625%float.
Proof. split; vm_compute; reflexivity. Qed.

Example binary64_shorter_first :
  Binary64.dist [1%float] [1%float; 2%float] = 0%float.
Proof. vm_compute. reflexivity. Qed.

Example binary64_longer_first :
  PrimFloat.is_nan (Binary64.dist [1%float; 2%float] [1%float]) = true.
Proof. vm_compute. reflexivity. Qed.

(** * Further properties of the code *)

(** ** [dist] on vectors of one length *)

Lemma dist_real (xs ys : list R) :
  length xs <= length ys ->
  dist (Num <$> xs) (Num <$> ys) = Num (euclidean xs ys).
Proof.
  intros Hlen. rewrite dist_sumSquares, sumSquares_real by done.
  unfold euclidean. simpl.
  pose proof (squaredDistance_nonneg xs ys).
  rewrite bool_decide_eq_false_2 by lra. do 2 f_equal. lra.
Qed.

Lemma squaredDistance_cons x xs y ys :
  squaredDistance (x :: xs) (y :: ys)
  = ((x - y) * (x - y) + squaredDistance xs ys)%R.
Proof. reflexivity. Qed.

Lemma squaredDistance_sym xs ys : squaredDistance xs ys = squaredDistance ys xs.
Proof.
  revert ys. induction xs as [|x xs IH]; intros [|y ys]; try done.
  rewrite !squaredDistance_cons, IH. lra.
Qed.

Lemma squaredDistance_self xs : squaredDistance xs xs = 0%R.
Proof.
  induction xs as [|x xs IH]; [done|]. rewrite squaredDistance_cons, IH. lra.
Qed.

(** X1: the distance of a vector of finite numbers to itself is 0. *)
Theorem dist_to_itself (xs : list R) :
  dist (Num <$> xs) (Num <$> xs) = Num 0.
Proof.
  rewrite dist_real by done. unfold euclidean.
  by rewrite squaredDistance_self, sqrt_0.
Qed.

(** X2: [dist] is symmetric on vectors of one length. *)
Theorem dist_symmetric (xs ys : list R) :
  length xs = length ys ->
  dist (Num <$> xs) (Num <$> ys) = dist (Num <$> ys) (Num <$> xs).
Proof.
  intros Hlen. rewrite !dist_real by lia. unfold euclidean.
  by rewrite squaredDistance_sym.
Qed.

Lemma dist_symmetric_witness :
  dist (Num <$> [1%R; 2%R]) (Num <$> [3%R; 5%R])
  = dist (Num <$> [3%R; 5%R]) (Num <$> [1%R; 2%R]).
Proof. by apply (dist_symmetric [1%R; 2%R] [3%R; 5%R]). Defined.

(** ** The confidence heuristic: order and end points *)

Lemma clamp_mono x y : (x <= y)%R -> (Spec.clamp x 0 1 <= Spec.clamp y 0 1)%R.
Proof.
  intros Hxy. unfold Spec.clamp, Rmax, Rmin.
  repeat destruct (Rle_dec _ _); lra.
Qed.

Lemma confidence_antitone (margin thr band d1 d2 : R) :
  (0 < thr + band + margin)%R -> (d1 <= d2)%R ->
  (Spec.confidence margin thr band d2 <= Spec.confidence margin thr band d1)%Z.
Proof.
  intros Hmax Hd. unfold Spec.confidence. apply Zfloor_le.
  assert (d1 / (thr + band + margin) <= d2 / (thr + band + margin))%R.
  { unfold Rdiv. apply Rmult_le_compat_r; [|done].
    left. by apply Rinv_0_lt_compat. }
  pose proof (clamp_mono (1 - d2 / (thr + band + margin))
                         (1 - d1 / (thr + band + margin))).
  lra.
Qed.

(** X4: the confidence never grows with the distance: a closer face has
    a confidence at least as high. *)
Theorem distanceToConfidence_antitone (band thr d1 d2 : R) :
  (0 < thr + band + 0.25)%R -> (d1 <= d2)%R ->
  JS.le (distanceToConfidence band (Num d2) (Num thr))
        (distanceToConfidence band (Num d1) (Num thr)) = true.
Proof.
  intros Hmax Hd. rewrite !distanceToConfidence_value by lra.
  apply le_Num_true, IZR_le. by apply confidence_antitone.
Qed.

Lemma distanceToConfidence_antitone_witness :
  JS.le (distanceToConfidence 0.10 (Num 0.5) (Num 0.6))
        (distanceToConfidence 0.10 (Num 0.3) (Num 0.6)) = true.
Proof. apply (distanceToConfidence_antitone 0.10 0.6 0.3 0.5); lra. Defined.

(** X5: the confidence is 100 at distance 0 and 0 from the distance
    [thr + band + 0.25] on. *)
Theorem distanceToConfidence_ends (band thr d : R) :
  (0 < thr + band + 0.25)%R ->
  distanceToConfidence band (Num 0) (Num thr) = Num 100
  /\ ((thr + band + 0.25 <= d)%R ->
      distanceToConfidence band (Num d) (Num thr) = Num 0).
Proof.
  intros Hmax. rewrite !distanceToConfidence_value by lra.
  unfold Spec.confidence, Spec.clamp. split.
  - do 2 f_equal. apply Zfloor_eq.
    replace (1 - 0 / (thr + band + 0.25))%R with 1%R by (unfold Rdiv; lra).
    unfold Rmax, Rmin. repeat destruct (Rle_dec _ _); lra.
  - intros Hd. do 2 f_equal. apply Zfloor_eq.
    assert (1 <= d / (thr + band + 0.25))%R.
    { apply Rmult_le_reg_r with (thr + band + 0.25)%R; [done|].
      unfold Rdiv. rewrite Rmult_assoc, Rinv_l by lra. lra. }
    unfold Rmax, Rmin. repeat destruct (Rle_dec _ _); lra.
Qed.

Lemma distanceToConfidence_ends_witness :
  distanceToConfidence 0.10 (Num 0) (Num 0.6) = Num 100
  /\ ((0.6 + 0.10 + 0.25 <= 1)%R ->
      distanceToConfidence 0.10 (Num 1) (Num 0.6) = Num 0).
Proof. apply (distanceToConfidence_ends 0.10 0.6 1). lra. Defined.

(** ** What [matchesForDescriptor] returns *)

Lemma matchesForDescriptor_sorted_pushed band people sel q thr :
  matchesForDescriptor band people sel q thr
  = (js_sort byDist
       (omap (pushed band thr flagged (fun d => JS.le d thr))
             (reportedCandidates q (selectedPeople people sel))),
     js_sort byDist
       (omap (pushed band thr possible
                (fun d => negb (JS.le d thr) && JS.le d (JS.add thr (Num band))))
             (reportedCandidates q (selectedPeople people sel)))).
Proof. unfold matchesForDescriptor. by rewrite foldl_matchPerson. Qed.

Lemma candidates_elem q pool p d :
  (p, d) ∈ reportedCandidates q pool ->
  p ∈ pool /\ samplesLength p <> 0 /\ d = reportedDistance q p
  /\ exists x, d = Num x /\ (0 <= x)%R.
Proof.
  unfold reportedCandidates. intros (p' & Hin & Hsome)%list_elem_of_omap.
  destruct (samplesLength p' =? 0) eqn:Hlen; [done|].
  apply Nat.eqb_neq in Hlen. unfold reportedDistance in *.
  destruct (scanSamples_range q (default [] (person.samples p')))
    as [Hr | (x & Hr & Hx)]; rewrite Hr in Hsome; [done|].
  injection Hsome as <- <-. repeat split; try done. eauto.
Qed.

Lemma pushed_elem band thr tier keep (cs : list (person.t * number)) h :
  h ∈ omap (pushed band thr tier keep) cs ->
  exists p d, (p, d) ∈ cs /\ keep d = true
    /\ h = hit.mk (person.id p) (person.name p) d
                  (distanceToConfidence band d thr) tier.
Proof.
  intros ([p d] & Hin & Hsome)%list_elem_of_omap.
  rewrite pushed_pair in Hsome. destruct (keep d) eqn:Hk; [|done].
  injection Hsome as <-. eauto.
Qed.

(** One of the two lists of a face, whichever. *)
Lemma matches_elem band people sel q thr h :
  h ∈ (matchesForDescriptor band people sel q thr).1
      ++ (matchesForDescriptor band people sel q thr).2 ->
  exists p x tier,
    p ∈ selectedPeople people sel /\ samplesLength p <> 0
    /\ reportedDistance q p = Num x /\ (0 <= x)%R
    /\ h = hit.mk (person.id p) (person.name p) (Num x)
                  (distanceToConfidence band (Num x) thr) tier
    /\ (tier = flagged /\ JS.le (Num x) thr = true
        /\ h ∈ (matchesForDescriptor band people sel q thr).1
        \/ tier = possible /\ JS.le (Num x) thr = false
           /\ JS.le (Num x) (JS.add thr (Num band)) = true
           /\ h ∈ (matchesForDescriptor band people sel q thr).2).
Proof.
  rewrite matchesForDescriptor_sorted_pushed. cbn [fst snd].
  intros [Hh|Hh]%elem_of_app.
  - pose proof Hh as Hh'. rewrite js_sort_perm in Hh'.
    apply pushed_elem in Hh' as (p & d & Hc & Hk & ->).
    apply candidates_elem in Hc as (Hp & Hlen & Hd & x & -> & Hx).
    exists p, x, flagged. repeat split; try done. by left.
  - pose proof Hh as Hh'. rewrite js_sort_perm in Hh'.
    apply pushed_elem in Hh' as (p & d & Hc & Hk & ->).
    apply candidates_elem in Hc as (Hp & Hlen & Hd & x & -> & Hx).
    apply andb_true_iff in Hk as [Hk1%negb_true_iff Hk2].
    exists p, x, possible. repeat split; try done. by right.
Qed.

(** X6: every match of a face, flagged or possible, is a profile of the
    list that is not deselected and has at least one sample, under its
    id and name, at the distance the scan of its samples reports: a
    deselected profile and a profile without samples are never matched. *)
Theorem matches_are_selected_profiles (band : R) (people : list person.t)
  (sel : selection) (q : embedding) (thr : number) (h : hit.t) :
  h ∈ (matchesForDescriptor band people sel q thr).1
      ++ (matchesForDescriptor band people sel q thr).2 ->
  exists p, p ∈ people /\ sel !! idKey p <> Some false
            /\ samplesLength p <> 0
            /\ hit.personId h = person.id p /\ hit.name h = person.name p
            /\ hit.dist h = reportedDistance q p.
Proof.
  intros (p & x & tier & Hp & Hlen & Hd & _ & -> & _)%matches_elem.
  apply list_elem_of_filter in Hp as [Hsel Hin].
  exists p. by rewrite Hd.
Qed.


Lemma matches_are_selected_profiles_witness :
  exists p, p ∈ [alice] /\ (∅ : selection) !! idKey p <> Some false
            /\ samplesLength p <> 0
            /\ IdString "a1" = person.id p /\ "Alice" = person.name p
            /\ Num 0.3 = reportedDistance [Num 0.3] p.
Proof.
  apply (matches_are_selected_profiles 0.10 [alice] ∅ [Num 0.3] (Num 0.6)
           (hit.mk (IdString "a1") "Alice" (Num 0.3)
                   (distanceToConfidence 0.10 (Num 0.3) (Num 0.6)) flagged)).
  rewrite matches_alice by lra. left.
Defined.

Lemma NoDup_fmap_elem {A B} (f : A -> B) (l : list A) (x y : A) :
  NoDup (f <$> l) -> x ∈ l -> y ∈ l -> f x = f y -> x = y.
Proof.
  induction l as [|a l IH]; [by intros _ ?%elem_of_nil|].
  rewrite fmap_cons. intros [Ha Hl]%NoDup_cons.
  intros [->|Hx]%elem_of_cons [->|Hy]%elem_of_cons Hf; try done.
  - exfalso. apply Ha. rewrite Hf. by apply list_elem_of_fmap_2.
  - exfalso. apply Ha. rewrite <- Hf. by apply list_elem_of_fmap_2.
  - by apply IH.
Qed.

Lemma selectedPeople_NoDup people sel :
  NoDup (person.id <$> people) -> NoDup (person.id <$> selectedPeople people sel).
Proof.
  unfold selectedPeople. induction people as [|p people IH]; [done|].
  rewrite fmap_cons. intros [Hp Hl]%NoDup_cons. rewrite filter_cons.
  case_decide; [|by apply IH]. rewrite fmap_cons. apply NoDup_cons.
  split; [|by apply IH].
  intros (p' & Hid & [_ Hin]%list_elem_of_filter)%list_elem_of_fmap.
  apply Hp. rewrite Hid. by apply list_elem_of_fmap_2.
Qed.

Lemma candidates_NoDup q pool :
  NoDup (person.id <$> pool) ->
  NoDup ((fun c => person.id c.1) <$> reportedCandidates q pool).
Proof.
  induction pool as [|p pool IH]; [done|].
  rewrite fmap_cons. intros [Hp Hl]%NoDup_cons.
  unfold reportedCandidates. cbn [omap list_omap]. fold (reportedCandidates q pool).
  destruct (if samplesLength p =? 0 then None else _) as [c|] eqn:Hc;
    [|by apply IH].
  assert (c.1 = p) as Hc1.
  { destruct (samplesLength p =? 0); [done|].
    destruct (reportedDistance q p); try done; by injection Hc as <-. }
  rewrite fmap_cons. apply NoDup_cons. split; [|by apply IH].
  intros ([p' d'] & Hid & (Hin & _)%candidates_elem)%list_elem_of_fmap.
  apply Hp. simpl in Hid. rewrite Hc1 in Hid. rewrite Hid.
  by apply list_elem_of_fmap_2.
Qed.

Lemma pushed_NoDup band thr tier keep (cs : list (person.t * number)) :
  NoDup ((fun c => person.id c.1) <$> cs) ->
  NoDup (hit.personId <$> omap (pushed band thr tier keep) cs).
Proof.
  induction cs as [|[p d] cs IH]; [done|].
  rewrite fmap_cons. intros [Hp Hl]%NoDup_cons.
  cbn [omap list_omap]. rewrite pushed_pair.
  destruct (keep d); [|by apply IH].
  rewrite fmap_cons. apply NoDup_cons. split; [|by apply IH].
  intros (h & Hid & (p' & d' & Hin & _ & ->)%pushed_elem)%list_elem_of_fmap.
  apply Hp. simpl in *. rewrite Hid.
  by apply (list_elem_of_fmap_2 (fun c => person.id c.1) _ (p', d')).
Qed.

(** X8: when the profiles have distinct ids, no profile occurs twice
    among the matches of a face, flagged and possible together. *)
Theorem matches_once_per_profile (band : R) (people : list person.t)
  (sel : selection) (q : embedding) (thr : number) :
  NoDup (person.id <$> people) ->
  NoDup (hit.personId
           <$> (matchesForDescriptor band people sel q thr).1
               ++ (matchesForDescriptor band people sel q thr).2).
Proof.
  intros Hids. rewrite matchesForDescriptor_sorted_pushed. cbn [fst snd].
  rewrite !js_sort_perm.
  set (cs := reportedCandidates q (selectedPeople people sel)).
  assert (NoDup ((fun c => person.id c.1) <$> cs)) as Hcs
    by (by apply candidates_NoDup, selectedPeople_NoDup).
  rewrite fmap_app. apply NoDup_app. split; [by apply pushed_NoDup|].
  split; [|by apply pushed_NoDup].
  intros k (h1 & -> & (p1 & d1 & Hin1 & Hk1 & ->)%pushed_elem)%list_elem_of_fmap.
  intros (h2 & Hid & (p2 & d2 & Hin2 & Hk2 & ->)%pushed_elem)%list_elem_of_fmap.
  simpl in Hid.
  assert ((p1, d1) = (p2, d2)) as [= -> ->].
  { by apply (NoDup_fmap_elem (fun c => person.id c.1) cs). }
  apply andb_true_iff in Hk2 as [Hk2%negb_true_iff _]. congruence.
Qed.

Lemma matches_once_per_profile_witness :
  NoDup (hit.personId
           <$> (matchesForDescriptor 0.10 [alice; bob] ∅ [Num 0.3] (Num 0.6)).1
               ++ (matchesForDescriptor 0.10 [alice; bob] ∅ [Num 0.3] (Num 0.6)).2).
Proof.
  apply (matches_once_per_profile 0.10 [alice; bob] ∅ [Num 0.3] (Num 0.6)).
  simpl. apply NoDup_cons. split; [|apply NoDup_singleton].
  by intros ?%list_elem_of_singleton.
Defined.

(** X9: in the matches of one face no possible match has a higher
    confidence than a flagged one. *)
Theorem flagged_at_least_as_confident (band thr : R) (people : list person.t)
  (sel : selection) (q : embedding) (h p : hit.t) :
  h ∈ (matchesForDescriptor band people sel q (Num thr)).1 ->
  p ∈ (matchesForDescriptor band people sel q (Num thr)).2 ->
  JS.le (hit.confidence p) (hit.confidence h) = true.
Proof.
  intros Hh Hp.
  destruct (matches_elem band people sel q (Num thr) h)
    as (ph & x & tier & _ & _ & _ & Hx & -> & Hcase);
    [apply elem_of_app; by left|].
  destruct (matches_elem band people sel q (Num thr) p)
    as (pp & y & tier' & _ & _ & _ & Hy & -> & Hcase');
    [apply elem_of_app; by right|].
  cbn [hit.confidence].
  assert (JS.le (Num x) (Num thr) = true) as Hle.
  { destruct Hcase as [(_ & Hle & _) | (-> & _ & _ & Hin2)]; [done|].
    rewrite matchesForDescriptor_sorted_pushed in Hh. cbn [fst] in Hh.
    rewrite js_sort_perm in Hh.
    by apply pushed_elem in Hh as (? & ? & _ & _ & [=]). }
  assert (JS.le (Num y) (Num thr) = false
          /\ JS.le (Num y) (JS.add (Num thr) (Num band)) = true) as [Hgt Hle2].
  { destruct Hcase' as [(-> & _ & Hin1) | (_ & Hgt & Hle2 & _)]; [|done].
    rewrite matchesForDescriptor_sorted_pushed in Hp. cbn [snd] in Hp.
    rewrite js_sort_perm in Hp.
    by apply pushed_elem in Hp as (? & ? & _ & _ & [=]). }
  cbn [JS.add] in Hle2. orderR.
  rewrite !distanceToConfidence_value by lra.
  apply le_Num_true, IZR_le, confidence_antitone; lra.
Qed.

Lemma matches_alice_carol :
  matchesForDescriptor 0.10 [alice; carol] ∅ [Num 0.3] (Num 0.6)
  = ([hit.mk (IdString "a1") "Alice" (Num 0.3)
             (distanceToConfidence 0.10 (Num 0.3) (Num 0.6)) flagged],
     [hit.mk (IdString "c3") "Carol" (Num 0.7)
             (distanceToConfidence 0.10 (Num 0.7) (Num 0.6)) possible]).
Proof.
  unfold matchesForDescriptor.
  assert (selectedPeople [alice; carol] ∅ = [alice; carol]) as -> by reflexivity.
  cbn [foldl]. unfold matchPerson, alice, carol.
  cbn [person.samples default from_option person.id person.name].
  unfold Datatypes.id. rewrite !scan_one.
  replace (Rabs (0.3 - 0)) with 0.3%R by (rewrite Rabs_pos_eq; lra).
  replace (Rabs (0.3 - 1)) with 0.7%R by (rewrite Rabs_left; lra).
  cbn [JS.isFinite negb JS.add]. cases_lt; try lra. reflexivity.
Qed.

Lemma flagged_at_least_as_confident_witness :
  JS.le (distanceToConfidence 0.10 (Num 0.7) (Num 0.6))
        (distanceToConfidence 0.10 (Num 0.3) (Num 0.6)) = true.
Proof.
  apply (flagged_at_least_as_confident 0.10 0.6 [alice; carol] ∅ [Num 0.3]
           (hit.mk (IdString "a1") "Alice" (Num 0.3)
                   (distanceToConfidence 0.10 (Num 0.3) (Num 0.6)) flagged)
           (hit.mk (IdString "c3") "Carol" (Num 0.7)
                   (distanceToConfidence 0.10 (Num 0.7) (Num 0.6)) possible)).
  - rewrite matches_alice_carol. left.
  - rewrite matches_alice_carol. left.
Defined.

(** ** The first version: the closest sample of all *)

Lemma closerSample_dist q thr p best s :
  FirstVersion.found.dist (FirstVersion.closerSample q thr p best s)
  = keepCloser q (FirstVersion.found.dist best) s.
Proof.
  unfold FirstVersion.closerSample, keepCloser.
  by destruct (JS.lt (dist q s) (FirstVersion.found.dist best)).
Qed.

Lemma closerSample_coherent q (thr : R) p best s :
  coherentBest thr best ->
  coherentBest thr (FirstVersion.closerSample q (Num thr) p best s).
Proof.
  intros [Hhit Hrange]. unfold FirstVersion.closerSample.
  destruct (JS.lt (dist q s) (FirstVersion.found.dist best)) eqn:Hlt; [|done].
  split; [done|]. cbn [FirstVersion.found.dist].
  destruct (dist_range q s) as [Hd | [Hd | (x & Hd & _)]]; rewrite Hd in *; eauto.
  by destruct (FirstVersion.found.dist best).
Qed.

Lemma foldl_closerSample q (thr : R) p ss best :
  coherentBest thr best ->
  coherentBest thr (foldl (FirstVersion.closerSample q (Num thr) p) best ss)
  /\ FirstVersion.found.dist (foldl (FirstVersion.closerSample q (Num thr) p) best ss)
     = foldl (keepCloser q) (FirstVersion.found.dist best) ss.
Proof.
  revert best. induction ss as [|s ss IH]; intros best Hbest; [done|].
  cbn [foldl].
  destruct (IH _ (closerSample_coherent q thr p best s Hbest)) as [Hc Hd].
  split; [done|]. by rewrite Hd, closerSample_dist.
Qed.

Lemma foldl_people_closerSample q (thr : R) people best :
  coherentBest thr best ->
  coherentBest thr
    (foldl (fun best p =>
              foldl (FirstVersion.closerSample q (Num thr) p) best
                    (default [] (person.samples p))) best people)
  /\ FirstVersion.found.dist
       (foldl (fun best p =>
                 foldl (FirstVersion.closerSample q (Num thr) p) best
                       (default [] (person.samples p))) best people)
     = foldl (keepCloser q) (FirstVersion.found.dist best) (allSamples people).
Proof.
  revert best. induction people as [|p people IH]; intros best Hbest; [done|].
  cbn [foldl]. unfold allSamples. cbn [map concat]. rewrite foldl_app.
  destruct (foldl_closerSample q thr p (default [] (person.samples p)) best Hbest)
    as [Hc Hd].
  destruct (IH _ Hc) as [Hc' Hd']. split; [done|].
  by rewrite Hd', Hd.
Qed.

(** X10: the first version returns the minimum of the distances to all
    the samples of all the profiles, and its [hit] tells whether that
    minimum is at most the threshold. *)
Theorem bestMatchToPeople_minimum (people : list person.t) (q : embedding)
  (thr : R) :
  FirstVersion.found.dist (FirstVersion.bestMatchToPeople people q (Num thr))
  = Spec.minDistance q (allSamples people)
  /\ FirstVersion.found.hit (FirstVersion.bestMatchToPeople people q (Num thr))
     = JS.le (Spec.minDistance q (allSamples people)) (Num thr).
Proof.
  unfold FirstVersion.bestMatchToPeople.
  assert (coherentBest thr (FirstVersion.found.mk false "" (IdString "") PosInfinity))
    as Hinit by (split; [done|by left]).
  destruct (foldl_people_closerSample q thr people _ Hinit) as [[Hhit _] Hd].
  rewrite minDistance_foldl. split; [done|]. by rewrite Hhit, Hd.
Qed.

Lemma le_keepCloser q (t : R) best s :
  (best = PosInfinity \/ exists y, best = Num y) ->
  JS.le (keepCloser q best s) (Num t)
  = JS.le best (Num t) || JS.le (dist q s) (Num t).
Proof.
  intros Hbest. unfold keepCloser.
  destruct (dist_range q s) as [Hd | [Hd | (x & Hd & _)]]; rewrite Hd.
  - destruct Hbest as [-> | [y ->]]; cbn [JS.lt JS.le]; by rewrite orb_false_r.
  - destruct Hbest as [-> | [y ->]]; cbn [JS.lt JS.le]; by rewrite orb_false_r.
  - destruct Hbest as [-> | [y ->]]; [done|].
    cases_lt; try done; lra.
Qed.

Lemma keepCloser_range q best s :
  (best = PosInfinity \/ exists y, best = Num y) ->
  keepCloser q best s = PosInfinity \/ exists y, keepCloser q best s = Num y.
Proof.
  intros Hbest. unfold keepCloser.
  destruct (JS.lt (dist q s) best) eqn:Hlt; [|done].
  destruct (dist_range q s) as [Hd | [Hd | (x & Hd & _)]]; rewrite Hd in *; eauto.
  by destruct best.
Qed.

Lemma le_foldl_keepCloser q (t : R) l best :
  (best = PosInfinity \/ exists y, best = Num y) ->
  JS.le (foldl (keepCloser q) best l) (Num t)
  = JS.le best (Num t) || existsb (fun s => JS.le (dist q s) (Num t)) l.
Proof.
  revert best. induction l as [|s l IH]; intros best Hbest.
  - simpl. by rewrite orb_false_r.
  - cbn [foldl existsb]. rewrite IH by (by apply keepCloser_range).
    rewrite le_keepCloser by done. by rewrite orb_assoc.
Qed.

Lemma le_minDistance q (t : R) l :
  JS.le (Spec.minDistance q l) (Num t)
  = existsb (fun s => JS.le (dist q s) (Num t)) l.
Proof. rewrite minDistance_foldl, le_foldl_keepCloser by (by left). done. Qed.

Lemma minimum_candidates_within q people (t : R) :
  existsb (fun c => JS.le c.2 (Num t)) (Spec.candidates q people)
  = existsb (fun s => JS.le (dist q s) (Num t)) (allSamples people).
Proof.
  unfold Spec.candidates, Spec.bestDistanceToIdentity, allSamples.
  induction people as [|p people IH]; [done|].
  cbn [omap list_omap map concat]. rewrite existsb_app, <- IH.
  rewrite <- le_minDistance.
  destruct (samplesLength p =? 0) eqn:Hlen.
  - apply Nat.eqb_eq in Hlen. unfold samplesLength in Hlen.
    by destruct (person.samples p) as [[|]|].
  - by destruct (Spec.minDistance q (default [] (person.samples p))).
Qed.

Lemma selectedPeople_all people sel :
  (forall p, p ∈ people -> sel !! idKey p <> Some false) ->
  selectedPeople people sel = people.
Proof.
  intros Hall. unfold selectedPeople.
  induction people as [|p people IH]; [done|].
  rewrite filter_cons, decide_True by (apply Hall; left).
  f_equal. apply IH. intros p' Hp'. apply Hall. by right.
Qed.

(** X11: with every profile selected, a threshold of at least 0.20 and
    a band that is not negative, the first version reports a hit for a
    face exactly when app.js classifies the face FLAGGED: the selection
    filter, the early exit and the tiers do not change which faces are
    flagged. *)
Theorem versions_agree_on_flagged (band thr : R) (people : list person.t)
  (sel : selection) (q : embedding) :
  (EARLY_EXIT <= thr)%R -> (0 <= band)%R ->
  (forall p, p ∈ people -> sel !! idKey p <> Some false) ->
  FirstVersion.found.hit (FirstVersion.bestMatchToPeople people q (Num thr)) = true
  <-> Spec.tierOf (faceResult.best (faceResultFor band people sel (Num thr) q))
      = flagged.
Proof.
  intros Hthr Hband Hall.
  rewrite face_tier_by_true_minimum by done.
  rewrite selectedPeople_all by done.
  rewrite tierAmong_existsb by apply minimum_candidates_finite.
  rewrite minimum_candidates_within.
  unfold FirstVersion.bestMatchToPeople.
  assert (coherentBest thr (FirstVersion.found.mk false "" (IdString "") PosInfinity))
    as Hinit by (split; [done|by left]).
  destruct (foldl_people_closerSample q thr people _ Hinit) as [[Hhit _] Hd].
  rewrite Hhit, Hd. cbn [FirstVersion.found.dist].
  rewrite <- minDistance_foldl, le_minDistance.
  destruct (existsb _ (allSamples people)); [done|].
  split; [done|]. by destruct (existsb _ _).
Qed.

Lemma versions_agree_on_flagged_witness :
  FirstVersion.found.hit
    (FirstVersion.bestMatchToPeople [alice] [Num 0.3] (Num 0.6)) = true
  <-> Spec.tierOf (faceResult.best (faceResultFor 0.10 [alice] ∅ (Num 0.6) [Num 0.3]))
      = flagged.
Proof.
  apply (versions_agree_on_flagged 0.10 0.6 [alice] ∅ [Num 0.3]).
  - unfold EARLY_EXIT. lra.
  - lra.
  - intros p _. by rewrite lookup_empty.
Defined.

(** ** [dedupeByPerson] once more *)

Lemma js_sort_of_sorted l :
  Forall finiteDist l -> StronglySorted closerOrEqual l -> js_sort byDist l = l.
Proof.
  intros Hfin Hs. induction Hs as [|x l Hs IH Hx]; [done|].
  apply Forall_cons in Hfin as [Hfx Hfl].
  cbn [js_sort foldr]. fold (js_sort byDist l). rewrite IH by done.
  destruct l as [|y l]; [done|]. cbn [sort_insert].
  apply Forall_cons in Hfl as [Hfy _]. apply Forall_cons in Hx as [Hxy _].
  rewrite byDist_gt by done.
  apply finiteDist_Num in Hfx as [a Ha]. apply finiteDist_Num in Hfy as [b Hb].
  unfold closerOrEqual in Hxy. rewrite Ha, Hb in *.
  cases_lt; [|done]. orderR. lra.
Qed.

Lemma map_set_fresh {A} k (v : A) m :
  k ∉ map fst m -> map_set k v m = m ++ [(k, v)].
Proof.
  induction m as [|[k' v'] m IH]; [done|]. simpl.
  intros [Hne Hk]%not_elem_of_cons.
  rewrite decide_False by done. by rewrite IH.
Qed.

Lemma foldl_keepBest_distinct l entries :
  NoDup (map fst entries ++ map hit.personId l) ->
  foldl keepBest entries l = entries ++ map (fun h => (hit.personId h, h)) l.
Proof.
  revert entries. induction l as [|h l IH]; intros entries Hnd.
  - simpl. by rewrite app_nil_r.
  - cbn [foldl map]. unfold keepBest at 2.
    assert (hit.personId h ∉ map fst entries) as Hfresh.
    { apply NoDup_app in Hnd as (_ & Hdisj & _). intros Hin.
      apply (Hdisj _ Hin). left. }
    rewrite (proj2 (map_get_None _ _) Hfresh), map_set_fresh by done.
    rewrite IH.
    + by rewrite <- app_assoc.
    + rewrite map_app. cbn [map fst]. rewrite <- app_assoc. done.
Qed.

Lemma dedupeByPerson_distinct l :
  NoDup (map hit.personId l) -> dedupeByPerson l = js_sort byDist l.
Proof.
  intros Hnd. unfold dedupeByPerson. rewrite foldl_keepBest_distinct by done.
  cbn [app]. unfold map_values. rewrite map_map. cbn [snd]. by rewrite map_id.
Qed.

(** X12: deduplicating twice changes nothing: [dedupeByPerson] gives
    back its own result. *)
Theorem dedupeByPerson_idempotent (l : list hit.t) :
  Forall finiteDist l ->
  dedupeByPerson (dedupeByPerson l) = dedupeByPerson l.
Proof.
  intros Hfin. destruct (dedupeByPerson_spec l Hfin) as (Hnd & Hs & Hin & _).
  rewrite dedupeByPerson_distinct by done.
  apply js_sort_of_sorted; [|done].
  apply Forall_forall. intros e He. destruct (Hin e He) as [Hel _].
  by eapply Forall_forall.
Qed.

Lemma dedupeByPerson_idempotent_witness :
  dedupeByPerson (dedupeByPerson [farMatch; nearMatch])
  = dedupeByPerson [farMatch; nearMatch].
Proof.
  apply (dedupeByPerson_idempotent [farMatch; nearMatch]).
  repeat constructor.
Defined.

(** X13: on matches of different persons [dedupeByPerson] drops
    nothing: its result is the same matches in another order. *)
Theorem dedupeByPerson_keeps_distinct (l : list hit.t) :
  NoDup (map hit.personId l) -> dedupeByPerson l ≡ₚ l.
Proof.
  intros Hnd. rewrite dedupeByPerson_distinct by done. apply js_sort_perm.
Qed.

Lemma dedupeByPerson_keeps_distinct_witness :
  dedupeByPerson [nearMatch; bobMatch] ≡ₚ [nearMatch; bobMatch].
Proof.
  apply (dedupeByPerson_keeps_distinct [nearMatch; bobMatch]).
  simpl. apply NoDup_cons. split; [|apply NoDup_singleton].
  by intros [=]%list_elem_of_singleton.
Defined.

(** ** The matched identities and the status of an image *)

Lemma elem_of_concat {A} (x : A) (ls : list (list A)) :
  x ∈ concat ls <-> exists l, l ∈ ls /\ x ∈ l.
Proof.
  rewrite list_elem_of_In, in_concat. split.
  - intros (l & Hl & Hx). exists l. by rewrite !list_elem_of_In.
  - intros (l & Hl & Hx). exists l. by rewrite <- !list_elem_of_In.
Qed.

Lemma matchesAt_level tier frs h :
  Forall wellFormedFace frs -> h ∈ matchesAt tier frs -> hit.level h = tier.
Proof.
  intros Hwf. unfold matchesAt. rewrite imageMatches_concat. cbn [fst snd].
  destruct tier; [by intros ?%elem_of_nil| |].
  - intros (l & (fr & -> & Hfr)%list_elem_of_fmap & Hh)%elem_of_concat.
    pose proof (proj1 (Forall_forall _ _) Hwf fr Hfr) as (_ & Hp & _).
    destruct (nonempty (faceResult.hits fr)); [by apply elem_of_nil in Hh|].
    by destruct (proj1 (Forall_forall _ _) Hp h Hh).
  - intros (l & (fr & -> & Hfr)%list_elem_of_fmap & Hh)%elem_of_concat.
    pose proof (proj1 (Forall_forall _ _) Hwf fr Hfr) as (Hhits & _).
    by destruct (proj1 (Forall_forall _ _) Hhits h Hh).
Qed.

Lemma imageVerdict_clear n frs :
  verdict.status (imageVerdict n frs) = clear
  <-> verdict.listForLabel (imageVerdict n frs) = [].
Proof.
  unfold imageVerdict. destruct (imageMatches frs) as [imageHits imagePossibles].
  cbn [verdict.status verdict.listForLabel].
  destruct (dedupeByPerson imageHits) as [|h hs]; cbn [length Nat.eqb negb].
  - by destruct (dedupeByPerson imagePossibles) as [|p ps].
  - done.
Qed.

(** X14: the matched identities listed for an image all carry the tier
    of the image (only flagged matches on a FLAGGED image, only possible
    ones on a POSSIBLE image), and the list is empty exactly when the
    image is CLEAR. *)
Theorem listed_matches_carry_status (band : R) (people : list person.t)
  (sel : selection) (thr : number) (detections : list det.t) :
  Forall (fun h => hit.level h
                   = verdict.status (scanDetections band people sel thr detections))
         (verdict.listForLabel (scanDetections band people sel thr detections))
  /\ (verdict.status (scanDetections band people sel thr detections) = clear
      <-> verdict.listForLabel (scanDetections band people sel thr detections) = []).
Proof.
  unfold scanDetections.
  set (frs := faceResultsOf band people sel thr (take MAX_FACES_PER_IMAGE detections)).
  set (n := length (take MAX_FACES_PER_IMAGE detections)).
  assert (Forall wellFormedFace frs) as Hwf by apply faceResultsOf_wf.
  split; [|apply imageVerdict_clear].
  rewrite imageVerdict_label. apply Forall_forall. intros h Hh.
  destruct (dedupeByPerson_spec _ (wellFormed_matches_finite
              (verdict.status (imageVerdict n frs)) frs Hwf)) as (_ & _ & Hin & _).
  destruct (Hin h Hh) as [Hel _]. by eapply matchesAt_level.
Qed.

(** ** The buckets and the preview of a scan *)

Lemma rowsAt_snoc tier rows r :
  rowsAt tier (rows ++ [r])
  = rowsAt tier rows ++ (if decide (verdict.status r = tier) then [r] else []).
Proof.
  unfold rowsAt. by rewrite filter_app.
Qed.

Lemma head_snoc {A} (l : list A) (x : A) :
  head (l ++ [x]) = match head l with Some y => Some y | None => Some x end.
Proof. by destruct l. Qed.

Lemma fillBuckets_snoc rows r :
  fillBuckets (rows ++ [r]) = bucketRow (fillBuckets rows) r.
Proof. unfold fillBuckets. by rewrite foldl_app. Qed.

Lemma fillBuckets_state rows :
  buckets.flaggedCount (fillBuckets rows) = length (rowsAt flagged rows)
  /\ buckets.possibleCount (fillBuckets rows) = length (rowsAt possible rows)
  /\ buckets.clearCount (fillBuckets rows) = length (rowsAt clear rows)
  /\ buckets.preview (fillBuckets rows)
     = match firstAt flagged rows with
       | Some r => Some r
       | None => match firstAt possible rows with
                 | Some r => Some r
                 | None => firstAt clear rows
                 end
       end.
Proof.
  induction rows as [|r rows (Hf & Hp & Hc & Hprev)] using rev_ind; [done|].
  rewrite fillBuckets_snoc. unfold bucketRow, firstAt in *.
  rewrite !rowsAt_snoc.
  destruct (verdict.status r) eqn:Hs;
    repeat case_decide; try done;
    rewrite ?app_nil_r, ?head_snoc, ?length_app;
    cbn [buckets.flaggedCount buckets.possibleCount buckets.clearCount
         buckets.preview length];
    rewrite ?Hf, ?Hp, ?Hc, ?Hprev;
    (split; [lia|split; [lia|split; [lia|]]]);
    destruct (rowsAt flagged rows) as [|f fs];
    destruct (rowsAt possible rows) as [|p ps];
    destruct (rowsAt clear rows) as [|c cs]; done.
Qed.

(** X15: after a scan every file is counted in exactly one bucket: the
    three counters are the numbers of FLAGGED, POSSIBLE and CLEAR rows,
    and they add up to the number of rows. *)
Theorem buckets_count_rows (rows : list verdict.t) :
  buckets.flaggedCount (fillBuckets rows) = length (rowsAt flagged rows)
  /\ buckets.possibleCount (fillBuckets rows) = length (rowsAt possible rows)
  /\ buckets.clearCount (fillBuckets rows) = length (rowsAt clear rows)
  /\ buckets.flaggedCount (fillBuckets rows)
     + buckets.possibleCount (fillBuckets rows)
     + buckets.clearCount (fillBuckets rows) = length rows.
Proof.
  destruct (fillBuckets_state rows) as (Hf & Hp & Hc & _).
  repeat split; try done. rewrite Hf, Hp, Hc. clear.
  unfold rowsAt. induction rows as [|r rows IH]; [done|].
  rewrite !filter_cons. cbn [length]. rewrite <- IH.
  destruct (verdict.status r); repeat case_decide; try done; cbn [length]; lia.
Qed.

(** X16: the preview left by a scan is that of the first FLAGGED row if
    there is one, else of the first POSSIBLE row if there is one, else
    of the first row. *)
Theorem preview_is_first_most_severe (rows : list verdict.t) :
  buckets.preview (fillBuckets rows)
  = match firstAt flagged rows with
    | Some r => Some r
    | None => match firstAt possible rows with
              | Some r => Some r
              | None => head rows
              end
    end.
Proof.
  destruct (fillBuckets_state rows) as (_ & _ & _ & ->).
  destruct (firstAt flagged rows) eqn:Hf; [done|].
  destruct (firstAt possible rows) eqn:Hp; [done|].
  unfold firstAt, rowsAt in *.
  destruct rows as [|r rows]; [done|]. rewrite filter_cons in *.
  destruct (verdict.status r); repeat case_decide; done.
Qed.

(** ** The scan button and the click handler *)

(** X17: the scan button is enabled exactly when a click scans: enabled,
    the click gives one result row per file; disabled, it gives none. *)
Theorem button_enabled_iff_click_scans {Image : Type} `{Detector Image}
  (band : R) (modelsReady : bool) (files : list Image)
  (people : list person.t) (sel : selection) (thr : number) :
  (btnScan_disabled modelsReady (length files) people sel = false ->
   btnScan_click band modelsReady files people sel thr
   = Scanned (map (scanImage band people sel thr) files))
  /\ (btnScan_disabled modelsReady (length files) people sel = true ->
      rowsOf (btnScan_click band modelsReady files people sel thr) = []
      /\ forall rows,
           btnScan_click band modelsReady files people sel thr <> Scanned rows).
Proof.
  unfold btnScan_disabled, btnScan_click.
  destruct modelsReady; cbn [negb orb]; [|by split].
  destruct (length files =? 0); cbn [orb]; [by split|].
  destruct ((length (selectedPeople people sel) =? 0)
            || (foldl (fun s p => s + samplesLength p) 0
                      (selectedPeople people sel) =? 0)); by split.
Qed.

Lemma button_enabled_iff_click_scans_witness :
  btnScan_click 0.10 true [[]] [alice] ∅ (Num 0.6)
  = Scanned (map (scanImage 0.10 [alice] ∅ (Num 0.6)) [[]]).
Proof.
  apply (button_enabled_iff_click_scans 0.10 true [[]] [alice] ∅ (Num 0.6)).
  reflexivity.
Defined.

(** X18: the level the preview works out for a face from the distance
    of its match is the tier the matcher gave the match, and CLEAR for a
    face without a match: the colours of the preview agree with the
    buckets. *)
Theorem preview_level_is_tier (band thr : R) (people : list person.t)
  (sel : selection) (q : embedding) :
  previewLevel (faceResult.best (faceResultFor band people sel (Num thr) q))
               (Num thr) (JS.add (Num thr) (Num band))
  = Spec.tierOf (faceResult.best (faceResultFor band people sel (Num thr) q)).
Proof.
  rewrite faceResultFor_best. unfold reportedMatch, Spec.matchAmong.
  destruct (Spec.closest _) as [[p d]|] eqn:Hc; [|done].
  assert (finiteCandidate (p, d)) as [x Hx].
  { eapply Forall_forall; [apply candidates_finite|]. by apply closest_elem. }
  simpl in Hx. subst d. unfold Spec.classify, previewLevel. cbn [JS.add].
  destruct (JS.le (Num x) (Num thr)) eqn:H1.
  { cbn [optionalDist hit.dist Spec.tierOf hit.level]. by rewrite H1. }
  destruct (JS.lt (Num thr) (Num x)) eqn:H2; cbn [andb].
  - destruct (JS.le (Num x) (Num (thr + band))) eqn:H3; [|done].
    cbn [optionalDist hit.dist Spec.tierOf hit.level]. by rewrite H1, H3.
  - orderR. lra.
Qed.

(** ** Geometry *)

Lemma mul_Num x y : JS.mul (Num x) (Num y) = Num (x * y).
Proof. reflexivity. Qed.

Lemma previewScale_real (W : R) :
  (0 < W)%R -> previewScale (Num W) = Num (Rmin 1 (1100 / W)).
Proof. intros HW. unfold previewScale. by rewrite div_Num, min_Num by lra. Qed.

Lemma scaled_width (W : R) :
  (0 < W)%R -> (W * Rmin 1 (1100 / W) = Rmin W 1100)%R.
Proof.
  intros HW. assert (W * (1100 / W) = 1100)%R as Hdiv by (field; lra).
  assert (1100 / W < 1 <-> 1100 < W)%R as Hlt.
  { split; intros Hc.
    - apply (Rmult_lt_compat_l W) in Hc; lra.
    - apply (Rmult_lt_reg_l W); lra. }
  unfold Rmin. destruct (Rle_dec 1 (1100 / W)); destruct (Rle_dec W 1100); lra.
Qed.

(** X19: the preview canvas of an image of positive width is as wide as
    the image, rounded, and at most 1100: a wider image is scaled down
    to 1100, and an image that fits keeps its own size. *)
Theorem preview_at_most_1100 (W H : R) :
  (0 < W)%R ->
  exists w h : Z,
    previewSize (Num W) (Num H) = (Num (IZR w), Num (IZR h))
    /\ w = Zfloor (Rmin W 1100 + / 2) /\ (w <= 1100)%Z
    /\ ((W <= 1100)%R -> h = Zfloor (H + / 2)).
Proof.
  intros HW. unfold previewSize. rewrite previewScale_real by done.
  rewrite !mul_Num. cbn [JS.round]. rewrite scaled_width by done.
  eexists _, _. split; [done|]. split; [done|]. split.
  - pose proof (Zfloor_bound (Rmin W 1100 + / 2)) as [Hlo _].
    pose proof (Rmin_r W 1100).
    assert (Zfloor (Rmin W 1100 + / 2) < 1101)%Z by (apply lt_IZR; lra). lia.
  - intros Hfit. do 2 f_equal.
    assert (1 <= 1100 / W)%R.
    { apply (Rmult_le_reg_l W); [done|]. replace (W * (1100 / W))%R with 1100%R by (field; lra). lra. }
    rewrite Rmin_left by done. lra.
Qed.

Lemma preview_at_most_1100_witness :
  exists w h : Z,
    previewSize (Num 2200) (Num 1000) = (Num (IZR w), Num (IZR h))
    /\ w = Zfloor (Rmin 2200 1100 + / 2) /\ (w <= 1100)%Z
    /\ ((2200 <= 1100)%R -> h = Zfloor (1000 + / 2)).
Proof. apply (preview_at_most_1100 2200 1000). lra. Defined.

Lemma round_integer (n : Z) : Zfloor (IZR n + / 2) = n.
Proof. apply Zfloor_eq. lra. Qed.

Lemma round_at_least (n : Z) (x : R) :
  (IZR n <= x)%R -> (n <= Zfloor (x + / 2))%Z.
Proof.
  intros Hx. rewrite <- (round_integer n) at 1. apply Zfloor_le. lra.
Qed.

(** X21: the detection canvas of an image of [W] by [Ht] pixels for a
    target of [T] pixels is never smaller than the image, and its scale
    is at least 1: when the smaller side of the image reaches the
    target the scale is 1 and the canvas has the size of the image;
    otherwise the smaller side of the canvas is the target. *)
Theorem detection_canvas_reaches_target {Image : Type} `{Detector Image}
  (img : Image) (W Ht T : Z) :
  img_width img = Num (IZR W) -> img_height img = Num (IZR Ht) ->
  (0 < W)%Z -> (0 < Ht)%Z ->
  exists (k : R) (w h : Z),
    imageToDetectionCanvas img (Num (IZR T))
    = (canvas.mk img (Num (IZR w)) (Num (IZR h)), Num k)
    /\ (1 <= k)%R /\ (W <= w)%Z /\ (Ht <= h)%Z
    /\ ((T <= Z.min W Ht)%Z -> k = 1%R /\ w = W /\ h = Ht)
    /\ ((Z.min W Ht < T)%Z -> Z.min w h = T).
Proof.
  intros HWimg HHimg HW HH. unfold imageToDetectionCanvas.
  rewrite HWimg, HHimg, min_Num.
  assert (Rmin (IZR W) (IZR Ht) = IZR (Z.min W Ht)) as Hmin.
  { unfold Rmin. destruct (Rle_dec (IZR W) (IZR Ht)) as [Hle|Hgt].
    - apply le_IZR in Hle. by rewrite Z.min_l.
    - rewrite Z.min_r; [done|]. apply Z.lt_le_incl, lt_IZR. lra. }
  rewrite Hmin. set (m := Z.min W Ht) in *.
  assert (0 < IZR m)%R as Hm by (apply IZR_lt; lia).
  assert (IZR m <= IZR W)%R as HmW by (apply IZR_le; lia).
  assert (IZR m <= IZR Ht)%R as HmH by (apply IZR_le; lia).
  destruct (JS.lt (Num (IZR m)) (Num (IZR T))) eqn:Hlt.
  - apply lt_Num_true in Hlt. rewrite div_Num by lra.
    rewrite !mul_Num. cbn [JS.round].
    set (k := (IZR T / IZR m)%R).
    assert (k * IZR m = IZR T)%R as Hk by (unfold k; field; lra).
    assert (1 <= k)%R as Hk1 by nra.
    exists k, (Zfloor (IZR W * k + / 2)), (Zfloor (IZR Ht * k + / 2)).
    split; [done|]. split; [done|].
    split; [apply round_at_least; nra|]. split; [apply round_at_least; nra|].
    split; [intros Hle; apply IZR_le in Hle; lra|]. intros _.
    assert (T <= Zfloor (IZR W * k + / 2))%Z by (apply round_at_least; nra).
    assert (T <= Zfloor (IZR Ht * k + / 2))%Z by (apply round_at_least; nra).
    destruct (Z.min_spec W Ht) as [[_ Hmw]|[_ Hmh]]; fold m in Hmw || fold m in Hmh.
    + rewrite <- Hmw, (Rmult_comm (IZR m)), Hk, round_integer in *. lia.
    + rewrite <- Hmh, (Rmult_comm (IZR m)), Hk, round_integer in *. lia.
  - apply lt_Num_false in Hlt. rewrite !mul_Num, !Rmult_1_r. cbn [JS.round].
    rewrite !round_integer. exists 1%R, W, Ht.
    split; [done|]. split; [lra|]. split; [lia|]. split; [lia|].
    split; [done|]. intros Hc. apply IZR_lt in Hc. lra.
Qed.

Lemma detection_canvas_reaches_target_witness :
  exists (k : R) (w h : Z),
    imageToDetectionCanvas (300, 400)%Z (Num (IZR 900))
    = (canvas.mk (300, 400)%Z (Num (IZR w)) (Num (IZR h)), Num k)
    /\ (1 <= k)%R /\ (300 <= w)%Z /\ (400 <= h)%Z
    /\ ((900 <= Z.min 300 400)%Z -> k = 1%R /\ w = 300%Z /\ h = 400%Z)
    /\ ((Z.min 300 400 < 900)%Z -> Z.min w h = 900%Z).
Proof.
  apply (detection_canvas_reaches_target (300, 400)%Z 300 400 900);
    try reflexivity; lia.
Defined.

(** X22: when the left and top edges of the face box, brought back to
    the image, are not beyond the image and its sides are not
    negative, the rectangle cropped for an enrollment tile lies inside
    the image: it starts inside it, its sides are not negative and it
    ends within the width and the height; and when the face box lies
    inside the image, the crop contains it. *)
Theorem enroll_crop_inside_image (s bx by_ bw bh W Ht : R) :
  s <> 0%R -> (0 <= W)%R -> (0 <= Ht)%R ->
  (bx / s <= W)%R -> (by_ / s <= Ht)%R -> (0 <= bw / s)%R -> (0 <= bh / s)%R ->
  exists x y w h : R,
    enrollCrop (realBox bx by_ bw bh) (Num s) (Num W) (Num Ht) = realBox x y w h
    /\ (0 <= x <= W)%R /\ (0 <= y <= Ht)%R /\ (0 <= w)%R /\ (0 <= h)%R
    /\ (x + w <= W)%R /\ (y + h <= Ht)%R
    /\ ((0 <= bx / s)%R -> (bx / s + bw / s <= W)%R ->
        (x <= bx / s)%R /\ (bx / s + bw / s <= x + w)%R)
    /\ ((0 <= by_ / s)%R -> (by_ / s + bh / s <= Ht)%R ->
        (y <= by_ / s)%R /\ (by_ / s + bh / s <= y + h)%R).
Proof.
  intros Hs HW HH Hbx Hby Hbw Hbh. unfold enrollCrop, realBox.
  cbn [det.x det.y det.width det.height]. rewrite !div_Num by done.
  rewrite min_Num, mul_Num. cbn [JS.round]. rewrite max_Num, !sub_Num.
  cbn [js_floor]. rewrite !max_Num, !sub_Num, !mul_Num. cbn [JS.add js_floor].
  rewrite !min_Num.
  set (ox := (bx / s)%R) in *. set (oy := (by_ / s)%R) in *.
  set (ow := (bw / s)%R) in *. set (oh := (bh / s)%R) in *.
  remember (Rmax 12 (IZR (Zfloor (Rmin ow oh * 0.18 + / 2)))) as pad eqn:Hpad.
  assert (12 <= pad)%R as Hpad12 by (subst pad; apply Rmax_l). clear Hpad.
  pose proof (Zfloor_bound (ox - pad)) as [Hx1 Hx2].
  pose proof (Zfloor_bound (oy - pad)) as [Hy1 Hy2].
  pose proof (Zfloor_bound (ow + pad * 2)) as [Hw1 Hw2].
  pose proof (Zfloor_bound (oh + pad * 2)) as [Hh1 Hh2].
  eexists _, _, _, _. split; [reflexivity|].
  unfold Rmax, Rmin. repeat destruct (Rle_dec _ _); repeat split; intros; lra.
Qed.

Lemma enroll_crop_inside_image_witness :
  exists x y w h : R,
    enrollCrop (realBox 200 200 100 100) (Num 2) (Num 350) (Num 500)
    = realBox x y w h
    /\ (0 <= x <= 350)%R /\ (0 <= y <= 500)%R /\ (0 <= w)%R /\ (0 <= h)%R
    /\ (x + w <= 350)%R /\ (y + h <= 500)%R
    /\ ((0 <= 200 / 2)%R -> (200 / 2 + 100 / 2 <= 350)%R ->
        (x <= 200 / 2)%R /\ (200 / 2 + 100 / 2 <= x + w)%R)
    /\ ((0 <= 200 / 2)%R -> (200 / 2 + 100 / 2 <= 500)%R ->
        (y <= 200 / 2)%R /\ (200 / 2 + 100 / 2 <= y + h)%R).
Proof.
  apply (enroll_crop_inside_image 2 200 200 100 100 350 500); lra.
Defined.

(** ** An enrolled sample met again *)

Lemma enrolled_distance (xs : list R) p :
  (Num <$> xs) ∈ default [] (person.samples p) ->
  samplesLength p <> 0
  /\ exists y, reportedDistance (Num <$> xs) p = Num y
               /\ (0 <= y < EARLY_EXIT)%R.
Proof.
  intros Hin. split.
  - unfold samplesLength. destruct (person.samples p) as [ss|]; cbn in Hin.
    + destruct ss; [by apply elem_of_nil in Hin | done].
    + by apply elem_of_nil in Hin.
  - assert (JS.le (Spec.minDistance (Num <$> xs) (default [] (person.samples p)))
                  (Num 0) = true) as Hmin.
    { rewrite le_minDistance. apply existsb_exists. exists (Num <$> xs).
      split; [by apply list_elem_of_In|].
      rewrite dist_real by done. apply le_Num_true. unfold euclidean.
      rewrite squaredDistance_self, sqrt_0. lra. }
    assert (JS.lt (Spec.minDistance (Num <$> xs) (default [] (person.samples p)))
                  (Num EARLY_EXIT) = true) as Hlt.
    { destruct (minDistance_range (Num <$> xs) (default [] (person.samples p)))
        as [Hm|(x & Hm & Hx)]; rewrite Hm in *; [done|].
      orderR. apply lt_Num_true. unfold EARLY_EXIT. lra. }
    apply scanSamples_exit in Hlt. unfold reportedDistance.
    destruct (scanSamples_range (Num <$> xs) (default [] (person.samples p)))
      as [Hs|(y & Hs & Hy)]; rewrite Hs in *; [done|].
    exists y. split; [done|]. orderR. lra.
Qed.

Lemma enrolled_hit band thr people sel p (xs : list R) :
  (EARLY_EXIT <= thr)%R ->
  p ∈ people -> sel !! idKey p <> Some false ->
  (Num <$> xs) ∈ default [] (person.samples p) ->
  exists h, h ∈ (matchesForDescriptor band people sel (Num <$> xs) (Num thr)).1
            /\ hit.personId h = person.id p.
Proof.
  intros Hthr Hp Hsel Hin.
  destruct (enrolled_distance xs p Hin) as (Hlen & y & Hy & Hrange).
  rewrite matchesForDescriptor_sorted_pushed. cbn [fst].
  exists (hit.mk (person.id p) (person.name p) (Num y)
                 (distanceToConfidence band (Num y) (Num thr)) flagged).
  split; [|done].
  rewrite js_sort_perm. apply list_elem_of_omap. exists (p, Num y). split.
  - unfold reportedCandidates. apply list_elem_of_omap. exists p. split.
    + unfold selectedPeople. by apply list_elem_of_filter.
    + apply Nat.eqb_neq in Hlen. by rewrite Hlen, Hy.
  - rewrite pushed_pair. by rewrite (proj2 (le_Num_true y thr)) by lra.
Qed.

Lemma faceResultFor_hits band people sel thr desc :
  faceResult.hits (faceResultFor band people sel thr desc)
  = (matchesForDescriptor band people sel desc thr).1.
Proof.
  unfold faceResultFor. by destruct (matchesForDescriptor band people sel desc thr).
Qed.

(** X27: with a threshold of at least 0.20, an image on which one of
    the first thirty detected faces has the descriptor, of finite
    numbers, of a stored sample of a selected profile is flagged, and
    the profile is among the identities listed for the image. *)
Theorem enrolled_sample_flags_image (band thr : R) (people : list person.t)
  (sel : selection) (p : person.t) (xs : list R) (detections : list det.t)
  (d : det.t) :
  (EARLY_EXIT <= thr)%R ->
  p ∈ people -> sel !! idKey p <> Some false ->
  (Num <$> xs) ∈ default [] (person.samples p) ->
  d ∈ take MAX_FACES_PER_IMAGE detections ->
  det.descriptor d = Num <$> xs ->
  verdict.status (scanDetections band people sel (Num thr) detections) = flagged
  /\ exists h,
       h ∈ verdict.listForLabel (scanDetections band people sel (Num thr) detections)
       /\ hit.personId h = person.id p.
Proof.
  intros Hthr Hp Hsel Hin Hd Hdesc.
  destruct (enrolled_hit band thr people sel p xs Hthr Hp Hsel Hin) as (h0 & Hh0 & Hid).
  unfold scanDetections, imageVerdict. rewrite imageMatches_concat.
  set (frs := faceResultsOf band people sel (Num thr)
                (take MAX_FACES_PER_IMAGE detections)).
  set (imageHits := concat (map faceResult.hits frs)).
  assert (h0 ∈ imageHits) as Hin0.
  { apply elem_of_concat. exists (faceResult.hits (faceResultFor band people sel (Num thr) (det.descriptor d))).
    split.
    - apply list_elem_of_fmap. eexists. split; [reflexivity|].
      unfold frs, faceResultsOf. apply list_elem_of_fmap. by exists d.
    - by rewrite faceResultFor_hits, Hdesc. }
  assert (Forall finiteDist imageHits) as Hfin.
  { apply Forall_forall. intros h (l & (fr & -> & Hfr)%list_elem_of_fmap & Hh)%elem_of_concat.
    pose proof (faceResultsOf_wf band people sel (Num thr)
                  (take MAX_FACES_PER_IMAGE detections)) as Hwf.
    rewrite Forall_forall in Hwf. destruct (Hwf fr Hfr) as (Hhits & _).
    rewrite Forall_forall in Hhits. by apply Hhits. }
  destruct (dedupeByPerson_spec imageHits Hfin) as (_ & _ & _ & Hall).
  destruct (Hall h0 Hin0) as (e & He & Heid).
  destruct (dedupeByPerson imageHits) as [|e0 rest] eqn:Hdd;
    [by apply elem_of_nil in He|].
  cbn. split; [done|]. exists e. split; [done|congruence].
Qed.

Lemma enrolled_sample_flags_image_witness :
  verdict.status
    (scanDetections 0.10 [alice] ∅ (Num 0.6) [faceAt [Num 0]]) = flagged
  /\ exists h,
       h ∈ verdict.listForLabel
             (scanDetections 0.10 [alice] ∅ (Num 0.6) [faceAt [Num 0]])
       /\ hit.personId h = person.id alice.
Proof.
  apply (enrolled_sample_flags_image 0.10 0.6 [alice] ∅ alice [0%R]
           [faceAt [Num 0]] (faceAt [Num 0])).
  - unfold EARLY_EXIT. lra.
  - left.
  - by rewrite lookup_empty.
  - cbn. left.
  - cbn. left.
  - reflexivity.
Defined.

(** ** escapeHtml *)

Ltac cases_unit m :=
  repeat match goal with
  | |- context [(m =? ?k)%N] => destruct (N.eqb_spec m k) as [->|?]
  end.

Lemma escapeUnit_no_markup m : Forall (fun c => ~ markup c) (escapeUnit m).
Proof.
  unfold escapeUnit, markup.
  cases_unit m; vm_compute; repeat constructor; by intros [|[|[|]]].
Qed.

Lemma escapeUnit_prefix_free m1 m2 (r1 r2 : list N) :
  escapeUnit m1 ++ r1 = escapeUnit m2 ++ r2 -> m1 = m2 /\ r1 = r2.
Proof.
  unfold escapeUnit.
  cases_unit m1; cases_unit m2;
    vm_compute; intros Heq; try discriminate;
    try (injection Heq as <-; (done || lia));
    try (injection Heq as ->; (done || lia));
    try (injection Heq; intros; subst; (done || lia)).
Qed.

(** X28: the escaped text holds no less-than, greater-than, double
    quote or apostrophe, and two texts escaped to the same text are the
    same text. *)
Theorem escapeHtml_safe_and_injective (str1 str2 : list N) :
  Forall (fun c => ~ markup c) (escapeHtml str1)
  /\ (escapeHtml str1 = escapeHtml str2 -> str1 = str2).
Proof.
  split.
  - unfold escapeHtml. induction str1 as [|m str1 IH]; [constructor|].
    cbn [map concat]. apply Forall_app. split; [apply escapeUnit_no_markup|done].
  - unfold escapeHtml. revert str2.
    induction str1 as [|m1 str1 IH]; intros [|m2 str2]; cbn [map concat].
    + done.
    + intros Heq. exfalso. symmetry in Heq.
      apply app_eq_nil in Heq as [Heq _]. revert Heq. unfold escapeUnit.
      by cases_unit m2.
    + intros Heq. exfalso.
      apply app_eq_nil in Heq as [Heq _]. revert Heq. unfold escapeUnit.
      by cases_unit m1.
    + intros [-> Hrest]%escapeUnit_prefix_free. f_equal. by apply IH.
Qed.

Lemma escapeHtml_safe_and_injective_witness :
  Forall (fun c => ~ markup c) (escapeHtml (units "<b>"))
  /\ units "<b>" = units "<b>".
Proof.
  destruct (escapeHtml_safe_and_injective (units "<b>") (units "<b>")) as [Hs Hi].
  split; [exact Hs|]. apply Hi. reflexivity.
Defined.

(** ** The closest-match variant against app.js *)

(** X29: the closest-match variant reports a match for a face exactly
    when the best match of app.js for that face is a flagged one, and
    then for the same profile at the same distance. *)
Theorem closest_match_is_flagged_best (band thr : R) (people : list person.t)
  (sel : selection) (q : embedding) :
  reportOfBest <$> ClosestMatch.bestMatchForDescriptor people sel q (Num thr)
  = reportOfHit
      <$> flaggedOnly (faceResult.best (faceResultFor band people sel (Num thr) q)).
Proof.
  rewrite bestMatchForDescriptor_closest, faceResultFor_best.
  unfold reportedMatch, Spec.matchAmong.
  pose proof (candidates_finite q (selectedPeople people sel)) as Hfin.
  destruct (Spec.closest (reportedCandidates q (selectedPeople people sel)))
    as [[p d]|] eqn:Hc; [|done].
  apply closest_elem in Hc. rewrite Forall_forall in Hfin.
  destruct (Hfin _ Hc) as (x & Hx). cbn [snd] in Hx. subst d.
  unfold Spec.classify. rewrite Rplus_0_r.
  destruct (JS.le (Num x) (Num thr)) eqn:Hle; [done|].
  orderR.
  rewrite (proj2 (lt_Num_true thr x)) by done.
  rewrite andb_false_r.
  by destruct (JS.le (Num x) (Num (thr + band))).
Qed.

(** ** Clearing the samples of a profile *)

(** X30: once the samples of a profile are cleared, no face is matched
    to it, flagged or possible, whatever the descriptor and the
    threshold, as long as no other profile has its id. *)
Theorem cleared_profile_never_matched (band : R) (people : list person.t)
  (sel : selection) (q : embedding) (thr : number) (i : nat) (p : person.t) :
  NoDup (person.id <$> people) ->
  people !! i = Some p ->
  Forall (fun h => hit.personId h <> person.id p)
    ((matchesForDescriptor band (clearSamples i people) sel q thr).1
     ++ (matchesForDescriptor band (clearSamples i people) sel q thr).2).
Proof.
  intros Hnd Hi. apply Forall_forall. intros h Hh Hid.
  apply matches_elem in Hh as (p' & x & tier & Hp' & Hlen & _ & _ & -> & _).
  cbn [hit.personId] in Hid.
  apply list_elem_of_filter in Hp' as [_ Hp'].
  apply list_elem_of_lookup in Hp' as [j Hj]. unfold clearSamples in Hj.
  destruct (decide (i = j)) as [<-|Hne].
  - rewrite list_lookup_alter, Hi in Hj. cbn in Hj.
    rewrite decide_True in Hj by done. injection Hj as <-.
    by apply Hlen.
  - rewrite list_lookup_alter_ne in Hj by done.
    apply Hne. apply (NoDup_lookup _ _ _ (person.id p) Hnd).
    + by rewrite list_lookup_fmap, Hi.
    + by rewrite list_lookup_fmap, Hj, <- Hid.
Qed.

Lemma cleared_profile_never_matched_witness :
  Forall (fun h => hit.personId h <> person.id alice)
    ((matchesForDescriptor 0.10 (clearSamples 0 [alice; carol]) ∅
        [Num 0] (Num 0.6)).1
     ++ (matchesForDescriptor 0.10 (clearSamples 0 [alice; carol]) ∅
           [Num 0] (Num 0.6)).2).
Proof.
  apply (cleared_profile_never_matched 0.10 [alice; carol] ∅ [Num 0]
           (Num 0.6) 0 alice).
  - simpl. apply NoDup_cons. split; [|apply NoDup_singleton].
    by intros ?%list_elem_of_singleton.
  - reflexivity.
Defined.

(** * The scan selection *)

Lemma hasProperty_false k (o : selection) :
  hasProperty k o = false <-> o !! k = None /\ k ∉ objectPrototype.
Proof.
  unfold hasProperty. rewrite orb_false_iff, !bool_decide_eq_false.
  rewrite <- eq_None_not_Some. tauto.
Qed.

Lemma assign_fresh k b (o : selection) :
  k ∉ objectPrototype -> assign k b o = <[k := b]> o.
Proof.
  intros Hk. unfold assign. rewrite bool_decide_eq_false_2; [done|].
  intros ->. apply Hk. unfold objectPrototype. set_solver.
Qed.

(** What the first loop of a resync leaves at every key. *)
Lemma added_lookup (people : list person.t) (sel : selection) (i : string) :
  foldl (fun sel p =>
           if hasProperty (idKey p) sel then sel
           else assign (idKey p) true sel) sel people !! i
  = match sel !! i with
    | Some b => Some b
    | None =>
        if decide (i ∈ map idKey people /\ i ∉ objectPrototype)
        then Some true else None
    end.
Proof.
  revert sel. induction people as [|p people IH]; intros sel.
  - cbn [foldl map]. destruct (sel !! i); [done|].
    rewrite decide_False; [done|]. intros [[]%elem_of_nil _].
  - cbn [foldl map]. rewrite IH. clear IH.
    destruct (hasProperty (idKey p) sel) eqn:Hhas.
    + destruct (sel !! i) eqn:Hi; [done|].
      destruct (decide (i = idKey p)) as [->|Hne].
      * assert (idKey p ∈ objectPrototype) as Hproto.
        { destruct (decide (idKey p ∈ objectPrototype)) as [|Hn]; [done|].
          assert (hasProperty (idKey p) sel = false) as Hf
            by (by apply hasProperty_false).
          congruence. }
        rewrite !decide_False; [done|tauto|tauto].
      * apply decide_ext. rewrite elem_of_cons. tauto.
    + apply hasProperty_false in Hhas as [Hnone Hproto].
      rewrite assign_fresh by done.
      destruct (decide (i = idKey p)) as [->|Hne].
      * rewrite lookup_insert_eq, Hnone, decide_True; [done|].
        split; [left|done].
      * rewrite lookup_insert_ne by done.
        destruct (sel !! i); [done|].
        apply decide_ext. rewrite elem_of_cons. tauto.
Qed.

(** What the second loop leaves at every key. *)
Lemma delete_unknown_lookup (known : list jsid) (ks : list string)
  (sel : selection) (i : string) :
  foldl (fun sel k => if decide (IdString k ∈ known) then sel else delete k sel)
        sel ks !! i
  = if decide (IdString i ∈ known) then sel !! i
    else if decide (i ∈ ks) then None else sel !! i.
Proof.
  revert sel. induction ks as [|k ks IH]; intros sel.
  - cbn [foldl]. case_decide; [done|].
    case_decide as Hin; [by apply elem_of_nil in Hin|done].
  - cbn [foldl]. rewrite IH. clear IH.
    destruct (decide (IdString i ∈ known)) as [Hi|Hi].
    + destruct (decide (IdString k ∈ known)); [done|].
      rewrite lookup_delete_ne; [done|]. by intros ->.
    + destruct (decide (i ∈ ks)) as [Hin|Hnin].
      * rewrite decide_True; [done|by right].
      * destruct (decide (i = k)) as [->|Hne].
        -- destruct (decide (IdString k ∈ known)); [done|].
           rewrite lookup_delete_eq.
           case_decide as Hk; [done|]. exfalso. apply Hk. left.
        -- destruct (decide (i ∈ k :: ks)) as [[?|?]%elem_of_cons|_]; [done..|].
           destruct (decide (IdString k ∈ known)); [done|].
           by rewrite lookup_delete_ne.
Qed.

Lemma idKey_of_string (people : list person.t) (i : string) :
  IdString i ∈ map person.id people -> i ∈ map idKey people.
Proof.
  intros (p & Hp & Hin)%list_elem_of_fmap. apply list_elem_of_fmap.
  exists p. split; [|done]. unfold idKey. by rewrite <- Hp.
Qed.

(** What a resync leaves at every key: the flag it had, or [true], when
    a profile has the key as its id, a string; nothing otherwise, also
    when the key is that of a profile whose id is a number. *)
Lemma syncSelection_lookup (people : list person.t) (sel : selection) (i : string) :
  syncSelection people sel !! i
  = if decide (IdString i ∈ map person.id people)
    then match sel !! i with
         | Some b => Some b
         | None => if decide (i ∈ objectPrototype) then None else Some true
         end
    else None.
Proof.
  unfold syncSelection. rewrite delete_unknown_lookup, added_lookup.
  destruct (decide (IdString i ∈ map person.id people)) as [Hin|Hnin].
  - destruct (sel !! i); [done|].
    apply idKey_of_string in Hin.
    destruct (decide (i ∈ objectPrototype)).
    + rewrite decide_False; [done|tauto].
    + rewrite decide_True; [done|tauto].
  - case_decide as Hk; [done|].
    match goal with |- ?x = None => destruct x eqn:Hi; [|done] end.
    exfalso. apply Hk. apply list_elem_of_fmap.
    rewrite <- added_lookup in Hi.
    eexists (i, _). split; [done|]. by apply elem_of_map_to_list.
Qed.

(** The flag of a profile whose id is a string survives a resync, and
    the resyncs that follow a sequence of changes of the profile list it
    survives. *)
Lemma syncSelection_keeps_string_flag (people : list person.t)
  (sel : selection) (i : string) (b : bool) :
  IdString i ∈ map person.id people -> sel !! i = Some b ->
  syncSelection people sel !! i = Some b.
Proof.
  intros Hin Hi. by rewrite syncSelection_lookup, decide_True, Hi.
Qed.

Lemma resyncs_keep_flag (states : list (list person.t)) (sel : selection)
  (i : string) (b : bool) :
  Forall (fun people => IdString i ∈ map person.id people) states ->
  sel !! i = Some b ->
  resyncs states sel !! i = Some b.
Proof.
  intros Hstates. revert sel.
  induction Hstates as [|people states Hin _ IH]; intros sel Hi; [done|].
  unfold resyncs in *. cbn [foldl]. apply IH.
  by apply syncSelection_keeps_string_flag.
Qed.

(** C10: a profile with the number [1] for id, deselected: the resync
    deletes its flag, the key ["1"] being no element of the [Set] that
    holds the number, and the profile is back among the profiles a scan
    compares against. *)
Theorem syncSelection_drops_numeric_flag :
  selectedPeople [ann] {[ "1" := false ]} = []
  /\ syncSelection [ann] {[ "1" := false ]} = ∅
  /\ selectedPeople [ann] (syncSelection [ann] {[ "1" := false ]}) = [ann].
Proof.
  assert (syncSelection [ann] {[ "1" := false ]} = ∅) as Hsync.
  { apply map_eq. intros i. rewrite syncSelection_lookup, lookup_empty.
    rewrite decide_False; [done|].
    cbn. by intros [[=]|[]%elem_of_nil]%elem_of_cons. }
  split; [|split; [done|]].
  - unfold selectedPeople. rewrite filter_cons, decide_False; [done|].
    intros Hn. apply Hn. unfold idKey. cbn. apply lookup_singleton_eq.
  - rewrite Hsync. unfold selectedPeople.
    rewrite filter_cons, decide_True; [done|]. by rewrite lookup_empty.
Qed.

(** ** The people controls *)

Lemma selectedPeople_ext people (sel1 sel2 : selection) :
  (forall p, p ∈ people ->
     sel1 !! idKey p = Some false <-> sel2 !! idKey p = Some false) ->
  selectedPeople people sel1 = selectedPeople people sel2.
Proof.
  unfold selectedPeople. induction people as [|p people IH]; intros Hext; [done|].
  rewrite !filter_cons.
  rewrite IH by (intros q Hq; apply Hext; by right).
  pose proof (Hext p ltac:(left)) as Hp.
  repeat case_decide; try done; tauto.
Qed.

Lemma stringId_known (people : list person.t) p :
  Forall stringId people -> p ∈ people ->
  IdString (idKey p) ∈ map person.id people.
Proof.
  intros Hall Hp. rewrite Forall_forall in Hall. destruct (Hall p Hp) as [s Hs].
  unfold idKey. rewrite Hs. cbn. rewrite <- Hs. by apply list_elem_of_fmap_2.
Qed.

Lemma syncSelection_pool people sel :
  Forall stringId people ->
  selectedPeople people (syncSelection people sel) = selectedPeople people sel.
Proof.
  intros Hall. apply selectedPeople_ext. intros p Hp.
  rewrite syncSelection_lookup.
  rewrite decide_True by (by apply stringId_known).
  destruct (sel !! idKey p) as [[]|]; [done|done|].
  case_decide; split; congruence.
Qed.

Lemma poolSamples_from (l : list person.t) n :
  foldl (fun s p => s + samplesLength p) n l
  = n + foldl (fun s p => s + samplesLength p) 0 l.
Proof.
  revert n. induction l as [|p l IH]; intros n; cbn [foldl]; [lia|].
  rewrite (IH (n + _)), (IH (0 + _)). lia.
Qed.

Lemma poolSamples_app (l1 l2 : list person.t) n :
  foldl (fun s p => s + samplesLength p) n (l1 ++ l2)
  = foldl (fun s p => s + samplesLength p) n l1
    + foldl (fun s p => s + samplesLength p) 0 l2.
Proof. by rewrite foldl_app, poolSamples_from. Qed.

Lemma assign_other k b (o : selection) i :
  i <> k -> assign k b o !! i = o !! i.
Proof.
  intros Hne. unfold assign.
  destruct (bool_decide (k = "__proto__") && bool_decide (o !! k = None));
    [done|]. by rewrite lookup_insert_ne.
Qed.

Lemma selectEach_frame b people (sel : selection) i :
  i ∉ map idKey people -> selectEach b people sel !! i = sel !! i.
Proof.
  unfold selectEach. revert sel.
  induction people as [|p people IH]; intros sel Hi; [done|].
  cbn [foldl map] in *. apply not_elem_of_cons in Hi as [Hne Hi].
  rewrite IH by done. by apply assign_other.
Qed.

Lemma selectEach_true people (sel : selection) i :
  selectEach true people sel !! i = Some false ->
  sel !! i = Some false /\ i ∉ map idKey people.
Proof.
  unfold selectEach. revert sel.
  induction people as [|p people IH]; intros sel Hi.
  - split; [done|]. apply not_elem_of_nil.
  - cbn [foldl map] in *. apply IH in Hi as [Hi Hrest].
    destruct (decide (i = idKey p)) as [->|Hne].
    + exfalso. unfold assign in Hi.
      destruct (bool_decide (idKey p = "__proto__")
                && bool_decide (sel !! idKey p = None)) eqn:Hskip.
      * apply andb_true_iff in Hskip as [_ Hnone%bool_decide_eq_true].
        congruence.
      * by rewrite lookup_insert_eq in Hi.
    + rewrite assign_other in Hi by done. split; [done|].
      by apply not_elem_of_cons.
Qed.

Lemma selectEach_false people (sel : selection) i :
  "__proto__" ∉ map idKey people -> i ∈ map idKey people ->
  selectEach false people sel !! i = Some false.
Proof.
  unfold selectEach. revert sel.
  induction people as [|p people IH]; intros sel Hproto Hi.
  - by apply elem_of_nil in Hi.
  - cbn [foldl map] in *. apply not_elem_of_cons in Hproto as [Hp Hproto].
    destruct (decide (i ∈ map idKey people)) as [Hin|Hnin]; [by apply IH|].
    apply elem_of_cons in Hi as [->|Hi]; [|done].
    pose proof (selectEach_frame false people (assign (idKey p) false sel)
                  (idKey p) Hnin) as Hframe.
    unfold selectEach in Hframe. rewrite Hframe. unfold assign.
    rewrite bool_decide_eq_false_2 by (intros Heq; by apply Hp).
    apply lookup_insert_eq.
Qed.

Lemma selectedPeople_none people sel :
  (forall p, p ∈ people -> sel !! idKey p = Some false) ->
  selectedPeople people sel = [].
Proof.
  intros Hall. unfold selectedPeople.
  induction people as [|p people IH]; [done|].
  rewrite filter_cons, decide_False.
  - apply IH. intros q Hq. apply Hall. by right.
  - intros Hn. apply Hn, Hall. left.
Qed.

(** X23: when the ids of the profiles are strings, a resync does not
    change which profiles a scan compares against; and a second resync
    changes nothing, whatever the ids: the import, which resyncs twice
    in a row, leaves the selection of one resync. *)
Theorem syncSelection_keeps_pool (people : list person.t) (sel : selection) :
  (Forall stringId people ->
   selectedPeople people (syncSelection people sel) = selectedPeople people sel)
  /\ syncSelection people (syncSelection people sel) = syncSelection people sel.
Proof.
  split; [apply syncSelection_pool|].
  apply map_eq. intros i. rewrite !syncSelection_lookup.
  case_decide; [|done]. destruct (sel !! i); [done|]. by case_decide.
Qed.

Lemma syncSelection_keeps_pool_witness :
  selectedPeople [alice; bob] (syncSelection [alice; bob] {[ "a1" := false ]})
  = selectedPeople [alice; bob] {[ "a1" := false ]}.
Proof.
  apply (syncSelection_keeps_pool [alice; bob] {[ "a1" := false ]}).
  repeat constructor; eexists; reflexivity.
Defined.

(** X24: after "All" every profile is scanned against; after "None" no
    profile is, and the scan button is disabled, whatever the selection
    was before, as long as no profile has the id [__proto__], which an
    assignment does not record. *)
Theorem select_all_and_none (people : list person.t) (sel : selection)
  (modelsReady : bool) (files : nat) :
  selectedPeople people (btnAll_click people sel) = people
  /\ ("__proto__" ∉ map idKey people ->
      selectedPeople people (btnNone_click people sel) = []
      /\ btnScan_disabled modelsReady files people (btnNone_click people sel)
         = true).
Proof.
  split.
  - apply selectedPeople_all. intros p Hp Hfalse. unfold btnAll_click in Hfalse.
    apply selectEach_true in Hfalse as [_ Hnin]. apply Hnin.
    by apply list_elem_of_fmap_2.
  - intros Hproto.
    assert (selectedPeople people (btnNone_click people sel) = []) as Hnone.
    { apply selectedPeople_none. intros p Hp. unfold btnNone_click.
      apply selectEach_false; [done|]. by apply list_elem_of_fmap_2. }
    split; [done|]. unfold btnScan_disabled. rewrite Hnone. cbn.
    by rewrite !orb_true_r.
Qed.

Lemma select_all_and_none_witness :
  selectedPeople [alice; bob] (btnNone_click [alice; bob] ∅) = []
  /\ btnScan_disabled true 1 [alice; bob] (btnNone_click [alice; bob] ∅) = true.
Proof.
  apply (select_all_and_none [alice; bob] ∅ true 1).
  cbn. intros [[=]|[[=]|[]%elem_of_nil]%elem_of_cons]%elem_of_cons.
Defined.

Lemma stringId_filter (P : person.t -> Prop) `{forall p, Decision (P p)} people :
  Forall stringId people -> Forall stringId (filter P people).
Proof.
  rewrite !Forall_forall. intros Hall p [_ Hp]%list_elem_of_filter. by apply Hall.
Qed.

(** X25: when the ids of the profiles are strings, deleting a profile
    removes it, and nothing else, from the profiles a scan compares
    against, and the resync that follows leaves no selection flag under
    its id. *)
Theorem delete_removes_from_pool (pid : string) (people : list person.t)
  (sel : selection) :
  Forall stringId people ->
  selectedPeople (deletePerson (IdString pid) people)
                 (syncSelection (deletePerson (IdString pid) people) sel)
  = filter (fun x => person.id x ≠ IdString pid) (selectedPeople people sel)
  /\ syncSelection (deletePerson (IdString pid) people) sel !! pid = None.
Proof.
  intros Hall. split.
  - rewrite syncSelection_pool by (by apply stringId_filter).
    unfold selectedPeople, deletePerson.
    rewrite !list_filter_filter. apply list_filter_iff. tauto.
  - rewrite syncSelection_lookup, decide_False; [done|].
    unfold deletePerson.
    intros (p & Hp & [Hne _]%list_elem_of_filter)%list_elem_of_fmap.
    congruence.
Qed.

Lemma delete_removes_from_pool_witness :
  selectedPeople (deletePerson (IdString "a1") [alice; carol])
    (syncSelection (deletePerson (IdString "a1") [alice; carol])
       {[ "a1" := false ]})
  = filter (fun x => person.id x ≠ IdString "a1")
           (selectedPeople [alice; carol] {[ "a1" := false ]})
  /\ syncSelection (deletePerson (IdString "a1") [alice; carol])
       {[ "a1" := false ]} !! "a1" = None.
Proof.
  apply (delete_removes_from_pool "a1" [alice; carol] {[ "a1" := false ]}).
  repeat constructor; eexists; reflexivity.
Defined.

Lemma pool_empty_no_samples (pool : list person.t) :
  (length pool =? 0) || (foldl (fun s p => s + samplesLength p) 0 pool =? 0)
  = (foldl (fun s p => s + samplesLength p) 0 pool =? 0).
Proof. destruct pool; [done|]. done. Qed.

(** X26: when the ids of the profiles are strings, adding a profile
    changes neither the number of samples nor whether the scan button
    is enabled: the new profile has no sample, whether or not the resync
    selects it. *)
Theorem add_person_never_enables_scan (pid name : string)
  (people : list person.t) (sel : selection) (modelsReady : bool) (files : nat) :
  Forall stringId people ->
  totalSamples (btnAddPerson_click pid name people) = totalSamples people
  /\ btnScan_disabled modelsReady files (btnAddPerson_click pid name people)
       (syncSelection (btnAddPerson_click pid name people) sel)
     = btnScan_disabled modelsReady files people sel.
Proof.
  intros Hall. unfold btnAddPerson_click. case_decide as Hname.
  - split; [done|]. unfold btnScan_disabled. by rewrite syncSelection_pool.
  - split.
    + unfold totalSamples. rewrite poolSamples_app. cbn. lia.
    + unfold btnScan_disabled. rewrite syncSelection_pool.
      * rewrite <- !orb_assoc, !pool_empty_no_samples. do 2 f_equal.
        unfold selectedPeople. rewrite filter_app, poolSamples_app.
        rewrite filter_cons, filter_nil. case_decide; cbn.
        -- by rewrite Nat.add_0_r.
        -- by rewrite Nat.add_0_r.
      * apply Forall_app. split; [done|]. repeat constructor. by eexists.
Qed.

Lemma add_person_never_enables_scan_witness :
  totalSamples (btnAddPerson_click "d4" "Dan" [alice]) = totalSamples [alice]
  /\ btnScan_disabled true 1 (btnAddPerson_click "d4" "Dan" [alice])
       (syncSelection (btnAddPerson_click "d4" "Dan" [alice]) ∅)
     = btnScan_disabled true 1 [alice] ∅.
Proof.
  apply (add_person_never_enables_scan "d4" "Dan" [alice] ∅ true 1).
  repeat constructor; eexists; reflexivity.
Defined.

(** * C5: the matched identities of an image *)

Lemma finite_imageMatches frs :
  Forall finiteFace frs ->
  Forall finiteDist (imageMatches frs).1
  /\ Forall finiteDist (imageMatches frs).2.
Proof.
  intros Hfin. rewrite imageMatches_concat. cbn [fst snd]. split.
  - apply Forall_concat, Forall_fmap. eapply Forall_impl; [exact Hfin|].
    by intros fr [Hh _].
  - apply Forall_concat, Forall_fmap. eapply Forall_impl; [exact Hfin|].
    intros fr [_ Hp]. simpl. by destruct (nonempty _); [constructor|].
Qed.

Lemma concat_hits_nil (frs : list faceResult.t) :
  (forall fr, fr ∈ frs -> faceResult.hits fr = []) ->
  concat (map faceResult.hits frs) = [].
Proof.
  induction frs as [|fr frs IH]; intros Hnil; [done|].
  cbn [map concat]. rewrite (Hnil fr) by left.
  apply IH. intros fr' Hfr'. apply Hnil. by right.
Qed.

(** C5: whatever the matches of the faces of an image, with finite
    distances, the matched identities of its verdict have no two
    entries for one person and are in ascending order of distance; each
    entry is a match of one of the faces; and every person flagged on a
    face (or, when no face has a flagged match, every person possible
    on a face) has an entry, which is at most as far as that match of
    the person: the occurrence kept is the one at the lowest
    distance. *)
Theorem matchedIdentities_deduped (n : nat) (faceResults : list faceResult.t) :
  Forall finiteFace faceResults ->
  NoDup (map hit.personId (verdict.listForLabel (imageVerdict n faceResults)))
  /\ StronglySorted closerOrEqual
       (verdict.listForLabel (imageVerdict n faceResults))
  /\ (forall e,
        e ∈ verdict.listForLabel (imageVerdict n faceResults) ->
        exists fr, fr ∈ faceResults
                   /\ (e ∈ faceResult.hits fr \/ e ∈ faceResult.possibles fr))
  /\ (forall fr h,
        fr ∈ faceResults -> h ∈ faceResult.hits fr ->
        exists e, e ∈ verdict.listForLabel (imageVerdict n faceResults)
                  /\ hit.personId e = hit.personId h /\ closerOrEqual e h)
  /\ ((forall fr, fr ∈ faceResults -> faceResult.hits fr = []) ->
      forall fr h,
        fr ∈ faceResults -> h ∈ faceResult.possibles fr ->
        exists e, e ∈ verdict.listForLabel (imageVerdict n faceResults)
                  /\ hit.personId e = hit.personId h /\ closerOrEqual e h).
Proof.
  intros Hfin. destruct (finite_imageMatches faceResults Hfin) as [HfinH HfinP].
  unfold imageVerdict. rewrite imageMatches_concat in *. cbn [fst snd] in *.
  set (imageHits := concat (map faceResult.hits faceResults)) in *.
  set (imagePossibles :=
         concat (map (fun fr => if nonempty (faceResult.hits fr) then []
                                else faceResult.possibles fr) faceResults)) in *.
  destruct (dedupeByPerson_spec imageHits HfinH) as (HndH & HsortH & HinH & HallH).
  destruct (dedupeByPerson_spec imagePossibles HfinP)
    as (HndP & HsortP & HinP & HallP).
  fold (nonempty (dedupeByPerson imageHits)).
  fold (nonempty (dedupeByPerson imagePossibles)).
  rewrite !nonempty_dedupeByPerson.
  assert (forall fr h, fr ∈ faceResults -> h ∈ faceResult.hits fr ->
                       h ∈ imageHits) as HhitIn.
  { intros fr h Hfr Hh. apply elem_of_concat. exists (faceResult.hits fr).
    split; [by apply list_elem_of_fmap_2|done]. }
  destruct (nonempty imageHits) eqn:HneH; cbn [verdict.listForLabel].
  - split; [done|]. split; [done|]. split; [|split].
    + intros e [He _]%HinH.
      apply elem_of_concat in He as (l & (fr & -> & Hfr)%list_elem_of_fmap & He).
      exists fr. tauto.
    + intros fr h Hfr Hh. destruct (HallH h (HhitIn fr h Hfr Hh)) as (e & He & Hid).
      exists e. split; [done|]. split; [done|].
      destruct (HinH e He) as [_ Hmin]. apply Hmin; [by eapply HhitIn|done].
    + intros Hnil. exfalso. unfold imageHits in HneH.
      by rewrite concat_hits_nil in HneH.
  - apply nonempty_false in HneH.
    assert (forall fr h, fr ∈ faceResults -> h ∈ faceResult.hits fr -> False)
      as Hnohit.
    { intros fr h Hfr Hh. pose proof (HhitIn fr h Hfr Hh) as Hin.
      rewrite HneH in Hin. by apply elem_of_nil in Hin. }
    assert (forall fr h, fr ∈ faceResults -> h ∈ faceResult.possibles fr ->
                         h ∈ imagePossibles) as HposIn.
    { intros fr h Hfr Hh. apply elem_of_concat.
      exists (faceResult.possibles fr). split; [|done].
      apply list_elem_of_fmap. exists fr. split; [|done].
      destruct (faceResult.hits fr) as [|h' ?] eqn:Hhits; [done|].
      exfalso. apply (Hnohit fr h' Hfr). rewrite Hhits. left. }
    destruct (nonempty imagePossibles) eqn:HneP; cbn [verdict.listForLabel].
    + split; [done|]. split; [done|]. split; [|split].
      * intros e [He _]%HinP.
        apply elem_of_concat in He as (l & (fr & -> & Hfr)%list_elem_of_fmap & He).
        exists fr. split; [done|]. right.
        destruct (nonempty (faceResult.hits fr)); [by apply elem_of_nil in He|done].
      * intros fr h Hfr Hh. destruct (Hnohit fr h Hfr Hh).
      * intros _ fr h Hfr Hh.
        destruct (HallP h (HposIn fr h Hfr Hh)) as (e & He & Hid).
        exists e. split; [done|]. split; [done|].
        destruct (HinP e He) as [_ Hmin]. apply Hmin; [by eapply HposIn|done].
    + apply nonempty_false in HneP.
      split; [constructor|]. split; [constructor|]. split; [|split].
      * by intros e ?%elem_of_nil.
      * intros fr h Hfr Hh. destruct (Hnohit fr h Hfr Hh).
      * intros _ fr h Hfr Hh. pose proof (HposIn fr h Hfr Hh) as Hin.
        rewrite HneP in Hin. by apply elem_of_nil in Hin.
Qed.

Lemma faces_finite : Forall finiteFace [faceNear; faceFar].
Proof. repeat constructor. Qed.

(** The scenario of the design document: two faces of one image match
    the same person at 0.3 and at 0.5; the entry kept is the one at
    0.3. *)
Lemma matchedIdentities_deduped_witness :
  verdict.listForLabel (imageVerdict 2 [faceNear; faceFar]) = [nearMatch]
  /\ NoDup (map hit.personId
              (verdict.listForLabel (imageVerdict 2 [faceNear; faceFar])))
  /\ (exists e, e ∈ verdict.listForLabel (imageVerdict 2 [faceNear; faceFar])
                /\ hit.personId e = hit.personId farMatch
                /\ closerOrEqual e farMatch).
Proof.
  destruct (matchedIdentities_deduped 2 [faceNear; faceFar] faces_finite)
    as (Hnd & _ & _ & Hkept & _).
  split; [|split; [exact Hnd|]].
  - unfold imageVerdict, imageMatches.
    cbn [foldl collectFace faceNear faceFar faceResult.hits
         faceResult.possibles length Nat.eqb negb app].
    unfold dedupeByPerson. cbn [foldl]. unfold keepBest at 2.
    cbn [map_get hit.personId map_set nearMatch farMatch].
    unfold keepBest. cbn [map_get hit.personId map_set hit.dist].
    rewrite !decide_True by done. unfold farMatch, nearMatch. cbn [hit.dist].
    cases_lt; try lra. reflexivity.
  - apply (Hkept faceFar farMatch); [right; left|left].
Defined.

(** * C6: the confidence and the formula of the specification *)

Section RoundingError.
Local Open Scope R_scope.
Variables (fl : R -> R) (B u eta : R).
Hypothesis Hfl : roundsWithin fl B u eta.
Hypothesis Hu : 0 <= u.
Hypothesis Heta : 0 <= eta.
Hypothesis Hsmall : u + eta <= / 100000.

Lemma abs_le_inv x a : Rabs x <= a -> - a <= x <= a.
Proof. unfold Rabs. destruct (Rcase_abs x); lra. Qed.

Lemma fl_near x :
  Rabs x <= B -> x - (u * Rabs x + eta) <= fl x <= x + (u * Rabs x + eta).
Proof.
  intros Hx. pose proof (Hfl x Hx) as H.
  apply abs_le_inv in H. lra.
Qed.

Lemma fl_nonneg x :
  0 <= x -> x <= B -> (1 - u) * x - eta <= fl x <= (1 + u) * x + eta.
Proof.
  intros H0 HB. pose proof (fl_near x) as H.
  rewrite Rabs_pos_eq in H by done. specialize (H HB). lra.
Qed.

Lemma u_times x : 0 <= x -> 0 <= u * x <= x * / 100000.
Proof.
  intros Hx. assert (u <= / 100000) as Hu1 by lra. split.
  - by apply Rmult_le_pos.
  - rewrite (Rmult_comm u x). by apply Rmult_le_compat_l.
Qed.

Lemma eta_times x : 0 <= x -> 0 <= eta * x <= x * / 100000.
Proof.
  intros Hx. assert (eta <= / 100000) as Hu1 by lra. split.
  - by apply Rmult_le_pos.
  - rewrite (Rmult_comm eta x). by apply Rmult_le_compat_l.
Qed.

(** The quotient by a divisor known up to the relative error [rho]. *)
Lemma div_perturbed d m M rho :
  0 <= d -> 0 < M -> 0 <= rho <= / 2 ->
  M * (1 - rho) <= m <= M * (1 + rho) ->
  0 < m /\ d / M * (1 - rho) <= d / m <= d / M * (1 + 2 * rho).
Proof.
  intros Hd HM Hrho Hm.
  assert (0 < m) as Hmpos by nra.
  split; [done|]. unfold Rdiv.
  assert (0 < / M) as HiM by (by apply Rinv_0_lt_compat).
  assert (0 < / m) as Him by (by apply Rinv_0_lt_compat).
  assert (/ M * (1 - rho) <= / m <= / M * (1 + 2 * rho)) as [H1 H2].
  { split.
    - apply Rmult_le_reg_r with (r := m * M); [nra|].
      replace (/ M * (1 - rho) * (m * M)) with ((1 - rho) * m * (M * / M)) by ring.
      replace (/ m * (m * M)) with (M * (m * / m)) by ring.
      rewrite !Rinv_r by lra. nra.
    - apply Rmult_le_reg_r with (r := m * M); [nra|].
      replace (/ M * (1 + 2 * rho) * (m * M)) with ((1 + 2 * rho) * m * (M * / M)) by ring.
      replace (/ m * (m * M)) with (M * (m * / m)) by ring.
      rewrite !Rinv_r by lra. nra. }
  split; nra.
Qed.

Lemma clamp_near x y e :
  Rabs (x - y) <= e ->
  Rabs (Rmax 0 (Rmin 1 x) - Rmax 0 (Rmin 1 y)) <= e.
Proof.
  intros H. apply abs_le_inv in H. apply Rabs_le.
  unfold Rmax, Rmin. repeat destruct (Rle_dec _ _); lra.
Qed.

(** The error of the percentage, from a divisor [m] within the
    relative error [3 u + 12 eta] of the exact divisor [M]. *)
Lemma percentFrom_near m M d :
  / 4 <= M -> 0 <= d -> 10 * d + 101 <= B ->
  M * (1 - (3 * u + 12 * eta)) <= m <= M * (1 + (3 * u + 12 * eta)) ->
  Rabs (percentFrom fl m d - 100 * Spec.clamp (1 - d / M) 0 1)
  <= 5001 * (u + eta).
Proof.
  intros HM Hd HB Hm. set (rho := 3 * u + 12 * eta) in *.
  assert (0 <= rho <= / 2) as Hrho by (unfold rho; lra).
  destruct (div_perturbed d m M rho Hd ltac:(lra) Hrho Hm) as [Hmpos [Ht1 Ht2]].
  set (T := d / M) in *. set (t := d / m) in *.
  assert (0 <= T) as HT.
  { unfold T, Rdiv. apply Rmult_le_pos; [lra|].
    left. apply Rinv_0_lt_compat. lra. }
  assert (T <= 4 * d) as HT4.
  { unfold T, Rdiv. apply Rmult_le_reg_r with (r := M); [lra|].
    rewrite Rmult_assoc, Rinv_l by lra. nra. }
  assert (0 <= t) as Ht0 by nra.
  assert (t <= 8 * d) as Ht8 by nra.
  destruct (fl_nonneg t Ht0 ltac:(lra)) as [Hq1 Hq2].
  set (q := fl t) in *.
  assert (Rabs (1 - q) <= B) as HqB.
  { apply Rabs_le. nra. }
  pose proof (fl_near (1 - q) HqB) as Hs.
  set (s := fl (1 - q)) in *.
  unfold percentFrom, Spec.clamp. fold t q s.
  set (c := Rmax 0 (Rmin 1 s)).
  assert (0 <= c <= 1) as Hc.
  { unfold c, Rmax, Rmin. repeat destruct (Rle_dec _ _); lra. }
  destruct (fl_nonneg (c * 100) ltac:(lra) ltac:(lra)) as [Hp1 Hp2].
  destruct (Rle_dec T 2) as [Hle|Hgt].
  - (* the quotient is at most 2: all the errors are small *)
    assert (Rabs (s - (1 - T)) <= 21 * u + 50 * eta) as Hnear.
    { apply Rabs_le.
      assert (Rabs (1 - q) <= 4) as H4.
      { apply Rabs_le. unfold rho in *. nra. }
      unfold rho in *. nra. }
    pose proof (clamp_near s (1 - T) _ Hnear) as Hclamp. fold c in Hclamp.
    apply abs_le_inv in Hclamp. apply Rabs_le. nra.
  - (* the quotient is above 2: both sides are 0 *)
    assert (s < 0) as Hneg.
    { assert (1 - q < - / 100) as Hq by (unfold rho in *; nra).
      rewrite Rabs_left in Hs by lra. nra. }
    assert (c = 0) as Hc0.
    { unfold c, Rmax, Rmin. repeat destruct (Rle_dec _ _); lra. }
    assert (Rmax 0 (Rmin 1 (1 - T)) = 0) as ->.
    { unfold Rmax, Rmin. repeat destruct (Rle_dec _ _); lra. }
    rewrite Hc0 in *. apply Rabs_le. lra.
Qed.

End RoundingError.

Section Confidence.
Local Open Scope R_scope.
Variables (fl : R -> R) (B u eta : R).
Hypothesis Hfl : roundsWithin fl B u eta.
Hypothesis Hu : 0 <= u.
Hypothesis Heta : 0 <= eta.
Hypothesis Hsmall : u + eta <= / 100000.

(** The divisor of app.js and that of the closest-match variant are
    within the relative error [3 u + 12 eta] of [thr + band + 0.25]. *)
Lemma divisor_near band thr :
  0 <= thr -> 0 <= band -> 2 * (thr + band) + 101 <= B ->
  (thr + band + 0.25) * (1 - (3 * u + 12 * eta))
  <= fl (fl (thr + band) + 0.25)
  <= (thr + band + 0.25) * (1 + (3 * u + 12 * eta)).
Proof.
  intros Hthr Hband HB. set (a := thr + band).
  assert (0 <= a) as Ha by (unfold a; lra).
  pose proof (u_times u eta Hu Heta Hsmall a Ha) as Hua.
  pose proof (eta_times u eta Hu Heta Hsmall a Ha) as Hea.
  destruct (fl_nonneg fl B u eta Hfl a Ha ltac:(unfold a; lra)) as [H1 H2].
  replace ((1 - u) * a) with (a - u * a) in H1 by lra.
  replace ((1 + u) * a) with (a + u * a) in H2 by lra.
  assert (0 <= fl a + 0.25 <= B) as [Hb1 Hb2] by (unfold a in *; lra).
  destruct (fl_nonneg fl B u eta Hfl (fl a + 0.25) Hb1 Hb2) as [H3 H4].
  pose proof (u_times u eta Hu Heta Hsmall (u * a) ltac:(lra)) as Hsq.
  pose proof (u_times u eta Hu Heta Hsmall eta Heta) as Hue.
  pose proof (u_times u eta Hu Heta Hsmall (fl a + eta) ltac:(lra)) as Hfa.
  assert (u * fl a <= u * a + u * (u * a) + u * eta) as Hprod.
  { replace (u * a + u * (u * a) + u * eta) with (u * (a + u * a + eta)) by lra.
    apply Rmult_le_compat_l; lra. }
  assert (u * a - u * (u * a) - u * eta <= u * fl a) as Hprod'.
  { replace (u * a - u * (u * a) - u * eta) with (u * (a - u * a - eta)) by lra.
    apply Rmult_le_compat_l; lra. }
  replace ((a + 0.25) * (1 - (3 * u + 12 * eta)))
    with (a + 0.25 - 3 * (u * a) - 0.75 * u - 12 * (eta * a) - 3 * eta) by lra.
  replace ((a + 0.25) * (1 + (3 * u + 12 * eta)))
    with (a + 0.25 + 3 * (u * a) + 0.75 * u + 12 * (eta * a) + 3 * eta) by lra.
  replace ((1 - u) * (fl a + 0.25)) with (fl a + 0.25 - u * fl a - 0.25 * u)
    in H3 by lra.
  replace ((1 + u) * (fl a + 0.25)) with (fl a + 0.25 + u * fl a + 0.25 * u)
    in H4 by lra.
  replace ((1 - u) * a) with (a - u * a) in H1 by lra.
  replace ((1 + u) * a) with (a + u * a) in H2 by lra.
  lra.
Qed.

Lemma closest_divisor_near thr :
  0 <= thr -> 2 * thr + 101 <= B ->
  (thr + 0 + 0.25) * (1 - (3 * u + 12 * eta))
  <= fl (thr + 0.25)
  <= (thr + 0 + 0.25) * (1 + (3 * u + 12 * eta)).
Proof.
  intros Hthr HB.
  destruct (fl_nonneg fl B u eta Hfl (thr + 0.25) ltac:(lra) ltac:(lra))
    as [H1 H2].
  pose proof (u_times u eta Hu Heta Hsmall thr Hthr) as Hut.
  pose proof (eta_times u eta Hu Heta Hsmall thr Hthr) as Het.
  replace ((thr + 0 + 0.25) * (1 - (3 * u + 12 * eta)))
    with (thr + 0.25 - 3 * (u * thr) - 0.75 * u - 12 * (eta * thr) - 3 * eta)
    by lra.
  replace ((thr + 0 + 0.25) * (1 + (3 * u + 12 * eta)))
    with (thr + 0.25 + 3 * (u * thr) + 0.75 * u + 12 * (eta * thr) + 3 * eta)
    by lra.
  replace ((1 - u) * (thr + 0.25)) with (thr + 0.25 - u * thr - 0.25 * u)
    in H1 by lra.
  replace ((1 + u) * (thr + 0.25)) with (thr + 0.25 + u * thr + 0.25 * u)
    in H2 by lra.
  lra.
Qed.

(** Rounding to the nearest integer two numbers less than 1 apart. *)
Lemma round_near p P tau :
  Rabs (p - P) <= tau -> tau < 1 ->
  (Z.abs (Zfloor (p + / 2) - Zfloor (P + / 2)) <= 1)%Z.
Proof.
  intros Hp Htau. apply abs_le_inv in Hp.
  destruct (Zfloor_bound (p + / 2)) as [Ha1 Ha2].
  destruct (Zfloor_bound (P + / 2)) as [Hb1 Hb2].
  assert (Zfloor (p + / 2) - Zfloor (P + / 2) < 2)%Z
    by (apply lt_IZR; rewrite minus_IZR; lra).
  assert (Zfloor (P + / 2) - Zfloor (p + / 2) < 2)%Z
    by (apply lt_IZR; rewrite minus_IZR; lra).
  lia.
Qed.

Lemma round_same p P tau :
  Rabs (p - P) <= tau ->
  (forall k : Z, tau < Rabs (P - (IZR k + / 2))) ->
  Zfloor (p + / 2) = Zfloor (P + / 2).
Proof.
  intros Hp Hfar. apply abs_le_inv in Hp.
  destruct (Zfloor_bound (P + / 2)) as [Hb1 Hb2].
  pose proof (Hfar (Zfloor (P + / 2) - 1)%Z) as Hlow.
  pose proof (Hfar (Zfloor (P + / 2))) as Hhigh.
  rewrite minus_IZR in Hlow.
  rewrite Rabs_pos_eq in Hlow by lra. rewrite Rabs_left1 in Hhigh by lra.
  apply Zfloor_eq. lra.
Qed.

Lemma round_percent_range p P tau :
  Rabs (p - P) <= tau -> tau < / 2 -> 0 <= P <= 100 ->
  (0 <= Zfloor (p + / 2) <= 100)%Z.
Proof.
  intros Hp Htau HP. apply abs_le_inv in Hp.
  destruct (Zfloor_bound (p + / 2)) as [Ha1 Ha2].
  assert (-1 < Zfloor (p + / 2))%Z by (apply lt_IZR; lra).
  assert (Zfloor (p + / 2) < 101)%Z by (apply lt_IZR; lra).
  lia.
Qed.

Lemma exactPercent_range margin thr band d :
  0 <= exactPercent margin thr band d <= 100.
Proof.
  unfold exactPercent, Spec.clamp, Rmax, Rmin.
  repeat destruct (Rle_dec _ _); lra.
Qed.

(** What the three conclusions of C6 need of a percentage. *)
Lemma confidence_of_percent p margin thr band d :
  Rabs (p - exactPercent margin thr band d) <= 5001 * (u + eta) ->
  (0 <= Zfloor (p + / 2) <= 100)%Z
  /\ (Z.abs (Zfloor (p + / 2) - Spec.confidence margin thr band d) <= 1)%Z
  /\ ((forall k : Z,
         5001 * (u + eta)
         < Rabs (exactPercent margin thr band d - (IZR k + / 2))) ->
      Zfloor (p + / 2) = Spec.confidence margin thr band d).
Proof.
  intros Hp. unfold Spec.confidence. fold (exactPercent margin thr band d).
  split; [|split].
  - eapply round_percent_range; [exact Hp|lra|apply exactPercent_range].
  - eapply round_near; [exact Hp|lra].
  - intros Hfar. eapply round_same; [exact Hp|exact Hfar].
Qed.

End Confidence.

(** With the identity for rounding the confidence is the one on exact
    numbers. *)
Lemma distanceToConfidence_exact (band d thr : R) :
  (thr + band + 0.25 <> 0)%R ->
  distanceToConfidence band (Num d) (Num thr)
  = Num (IZR (Rounded.distanceToConfidence (fun x => x) band d thr)).
Proof.
  intros Hmax. rewrite distanceToConfidence_value by done.
  unfold Rounded.distanceToConfidence, Spec.confidence, Spec.clamp.
  do 3 f_equal. lra.
Qed.


Lemma exact_rounding : roundsWithin (fun x => x) 1000 0 0.
Proof.
  intros x _. rewrite Rminus_diag, Rabs_R0. lra.
Qed.


(** ** The confidence on binary64 floats *)

Lemma toR_threshold :
  Binary64.toR 0x1.3333333333333p-1%float
  = (5404319552844595 / 9007199254740992)%R.
Proof.
  unfold Binary64.toR.
  assert (Prim2SF 0x1.3333333333333p-1%float
          = S754_finite false 5404319552844595 (-53)) as ->
    by (vm_compute; reflexivity).
  simpl. lra.
Qed.

Lemma toR_band :
  Binary64.toR Binary64.BORDERLINE_BAND
  = (7205759403792794 / 72057594037927936)%R.
Proof.
  unfold Binary64.toR.
  assert (Prim2SF Binary64.BORDERLINE_BAND
          = S754_finite false 7205759403792794 (-56)) as ->
    by (vm_compute; reflexivity).
  simpl. lra.
Qed.

Lemma toR_distance : Binary64.toR 0.59375%float = 0.59375%R.
Proof.
  unfold Binary64.toR.
  assert (Prim2SF 0.59375%float = S754_finite false 5348024557502464 (-53)) as ->
    by (vm_compute; reflexivity).
  simpl. lra.
Qed.


(** * C7: the plausibility filter *)

(** C7, amended: on binary64 numbers [isPlausibleFace] rejects a
    detection exactly when one of the four conditions holds of the
    numbers it computes: the score (0 when missing) is below
    [MIN_DET_SCORE]; the smaller of the sides [w = width / detScale]
    and [h = height / detScale], rounded quotients, is below
    [MIN_FACE_PX]; the rounded ratio [w / h] is below [MIN_AR] or above
    [MAX_AR]; [w] is above the rounded [0.75 * imageWidth] or [h] above
    the rounded [0.75 * imageHeight].  It accepts otherwise. *)
Theorem isPlausibleFace_rejects (d : Binary64.det.t) (detScale : float)
  (img : Binary64.image.t) :
  Binary64.isPlausibleFace d detScale img = false
  <-> (PrimFloat.ltb (default 0%float (Binary64.det.score d))
         Binary64.MIN_DET_SCORE = true
       \/ PrimFloat.ltb
            (Binary64.min (PrimFloat.div (Binary64.det.width d) detScale)
                          (PrimFloat.div (Binary64.det.height d) detScale))
            Binary64.MIN_FACE_PX = true
       \/ (PrimFloat.ltb
             (PrimFloat.div (PrimFloat.div (Binary64.det.width d) detScale)
                            (PrimFloat.div (Binary64.det.height d) detScale))
             Binary64.MIN_AR = true
           \/ PrimFloat.ltb Binary64.MAX_AR
                (PrimFloat.div (PrimFloat.div (Binary64.det.width d) detScale)
                               (PrimFloat.div (Binary64.det.height d) detScale))
              = true)
       \/ (PrimFloat.ltb
             (PrimFloat.mul (Binary64.image.width img) 0.75)
             (PrimFloat.div (Binary64.det.width d) detScale) = true
           \/ PrimFloat.ltb
                (PrimFloat.mul (Binary64.image.height img) 0.75)
                (PrimFloat.div (Binary64.det.height d) detScale) = true)).
Proof.
  unfold Binary64.isPlausibleFace.
  destruct (PrimFloat.ltb (default 0%float (Binary64.det.score d)) _);
    [tauto|].
  destruct (PrimFloat.ltb (Binary64.min _ _) _); [tauto|].
  destruct (PrimFloat.ltb (PrimFloat.div _ _) Binary64.MIN_AR); [tauto|].
  destruct (PrimFloat.ltb Binary64.MAX_AR _); [tauto|].
  destruct (PrimFloat.ltb (PrimFloat.mul (Binary64.image.width img) _) _);
    [tauto|].
  destruct (PrimFloat.ltb (PrimFloat.mul (Binary64.image.height img) _) _);
    [tauto|].
  cbn [orb]. split; [done|]. intros [?|[?|[[?|?]|[?|?]]]]; done.
Qed.

(** The scenario of the design document: a detection with a score of
    0.1 is rejected whatever its box. *)
Example low_score_rejected (width height detScale : float)
  (img : Binary64.image.t) :
  Binary64.isPlausibleFace
    (Binary64.det.mk width height (Some 0x1.999999999999ap-4%float))
    detScale img = false.
Proof. reflexivity. Qed.

(** C7, as stated, fails on binary64 numbers: a box of 200 by 125 on
    the canvas of an image of 300 by 400 upscaled by 3, with a score of
    0.5, meets none of the four conditions, its ratio being 1.6, which
    is [MAX_AR] and at most the binary64 number the program has for
    it; the program rejects it, the ratio of the rounded sides being
    above that number. *)
Lemma ratio_at_bound_rejected :
  Binary64.isPlausibleFace (Binary64.det.mk 200 125 (Some 0.5%float)) 3
    (Binary64.image.mk 300 400) = false
  /\ ~ (0.5 < ClosestMatch.MIN_DET_SCORE)%R
  /\ ~ (Rmin (200 / 3) (125 / 3) < ClosestMatch.MIN_FACE_PX)%R
  /\ (ClosestMatch.MIN_AR <= (200 / 3) / (125 / 3) <= ClosestMatch.MAX_AR)%R
  /\ ((200 / 3) / (125 / 3) <= Binary64.toR Binary64.MAX_AR)%R
  /\ ~ (200 / 3 > 0.75 * 300)%R
  /\ ~ (125 / 3 > 0.75 * 400)%R.
Proof.
  split; [vm_compute; reflexivity|].
  unfold ClosestMatch.MIN_DET_SCORE, ClosestMatch.MIN_FACE_PX,
    ClosestMatch.MIN_AR, ClosestMatch.MAX_AR.
  assert (Binary64.toR Binary64.MAX_AR
          = (7205759403792794 / 4503599627370496)%R) as ->.
  { unfold Binary64.toR.
    assert (Prim2SF Binary64.MAX_AR
            = S754_finite false 7205759403792794 (-52)) as ->
      by (vm_compute; reflexivity).
    simpl. lra. }
  repeat split; try lra.
  unfold Rmin. destruct (Rle_dec _ _); lra.
Qed.
